(** * Snapshot manager: parser, context model, chunker and relevance trimmer

    Shallow embedding of [src/libs/snapshot_manager/snapshot_parser.py],
    [transform_with_context.py] and [nodebased_chunking.py].

    Modelling conventions.
    - A Python [str] is a [string]; each [ascii] stands for the code point
      of the same number (0..255), and the character classes used by the
      regular expressions ([\s], [\w], [\d], line boundaries, [lower]) are
      the Unicode ones restricted to that range.
    - Python objects that are mutated while shared ([Node], the item
      dictionaries) live in a store; a reference to the object is its
      index in the store, which also plays the role of [id(obj)].
    - A Python list used as a stack is a Rocq list whose head is the top.
    - Loops that Python writes as [while stack:] take a fuel argument;
      [Raise OutOfFuel] is returned when it runs out. *)

From Stdlib Require Import ZArith Ascii String.
From stdpp Require Import gmap strings list pretty sorting.

Local Open Scope string_scope.
Local Open Scope list_scope.
Local Open Scope nat_scope.

(** ** Outcomes of fallible code *)

Inductive exn := IndexError | KeyError | OutOfFuel.

Inductive result (A : Type) :=
  | Ok (a : A)
  | Raise (e : exn).
Arguments Ok {A} a.
Arguments Raise {A} e.

#[global] Instance result_ret : MRet result := λ A a, Ok a.
#[global] Instance result_bind : MBind result := λ A B k r,
  match r with
  | Ok a => k a
  | Raise e => Raise e
  end.

(** ** Characters and strings *)

Module Text.

Definition code (c : ascii) : N := N_of_ascii c.

Definition between (lo hi : N) (c : ascii) : bool :=
  ((lo <=? code c) && (code c <=? hi))%N.

(** [str.isspace] / the regex class [\s]. *)
Definition is_space (c : ascii) : bool :=
  between 9 13 c || between 28 31 c || between 32 32 c
  || between 133 133 c || between 160 160 c.

(** Line boundaries of [str.splitlines]. *)
Definition is_linebreak (c : ascii) : bool :=
  between 10 13 c || between 28 30 c || between 133 133 c.

Definition is_digit (c : ascii) : bool := between 48 57 c.
Definition is_upper (c : ascii) : bool := between 65 90 c.
Definition is_lower (c : ascii) : bool := between 97 122 c.
Definition is_underscore (c : ascii) : bool := between 95 95 c.

(** The class [[a-zA-Z_]]. *)
Definition is_role_char (c : ascii) : bool :=
  is_upper c || is_lower c || is_underscore c.

(** The class [[a-zA-Z0-9]]. *)
Definition is_alnum_ascii (c : ascii) : bool :=
  is_upper c || is_lower c || is_digit c.

(** The regex class [\w]: [str.isalnum] or underscore. *)
Definition is_word (c : ascii) : bool :=
  is_alnum_ascii c || is_underscore c
  || between 170 170 c || between 178 179 c || between 181 181 c
  || between 185 186 c || between 188 190 c
  || between 192 214 c || between 216 246 c || between 248 255 c.

Definition LF : ascii := ascii_of_N 10.
Definition CR : ascii := ascii_of_N 13.
Definition DQUOTE : ascii := ascii_of_N 34.

Definition is_char (d c : ascii) : bool := (code c =? code d)%N.

(** [s] between double quotes. *)
Definition quoted (s : string) : string :=
  String DQUOTE s +:+ String DQUOTE EmptyString.

(** [c.lower()] on one character. *)
Definition lower_char (c : ascii) : ascii :=
  if is_upper c || between 192 214 c || between 216 222 c
  then ascii_of_N (code c + 32) else c.

Fixpoint lower (s : string) : string :=
  match s with
  | EmptyString => EmptyString
  | String c r => String (lower_char c) (lower r)
  end.

Fixpoint drop_while (p : ascii → bool) (s : string) : string :=
  match s with
  | EmptyString => EmptyString
  | String c r => if p c then drop_while p r else s
  end.

Fixpoint take_while (p : ascii → bool) (s : string) : string :=
  match s with
  | EmptyString => EmptyString
  | String c r => if p c then String c (take_while p r) else EmptyString
  end.

Fixpoint all_chars (p : ascii → bool) (s : string) : bool :=
  match s with
  | EmptyString => true
  | String c r => p c && all_chars p r
  end.

(** [s.rstrip()] and [s.strip()]. *)
Fixpoint rstrip (s : string) : string :=
  match s with
  | EmptyString => EmptyString
  | String c r =>
      match rstrip r with
      | EmptyString => if is_space c then EmptyString else String c EmptyString
      | r' => String c r'
      end
  end.

Definition strip (s : string) : string := rstrip (drop_while is_space s).

(** [s[len(p):]] when [s.startswith(p)]. *)
Fixpoint strip_prefix (p s : string) : option string :=
  match p with
  | EmptyString => Some s
  | String a p' =>
      match s with
      | EmptyString => None
      | String b s' => if is_char a b then strip_prefix p' s' else None
      end
  end.

(** [p in s]. *)
Fixpoint contains (p s : string) : bool :=
  match strip_prefix p s with
  | Some _ => true
  | None =>
      match s with
      | EmptyString => false
      | String _ r => contains p r
      end
  end.

(** [s[:n]] for a natural number [n]. *)
Fixpoint str_take (n : nat) (s : string) : string :=
  match n, s with
  | S n', String c r => String c (str_take n' r)
  | _, _ => EmptyString
  end.

(** [s[:k]] for any integer [k]: a negative bound counts from the end. *)
Definition slice_to (k : Z) (s : string) : string :=
  if (0 <=? k)%Z then str_take (Z.to_nat k) s
  else str_take (Z.to_nat (Z.of_nat (String.length s) + k)) s.

(** [sep.join(parts)]. *)
Fixpoint join (sep : string) (parts : list string) : string :=
  match parts with
  | [] => EmptyString
  | [p] => p
  | p :: rest => p +:+ sep +:+ join sep rest
  end.

(** [s.splitlines()]: the line that starts at the head of [s] is the head
    of the result; a CR immediately followed by LF is one boundary. *)
Fixpoint splitlines (s : string) : list string :=
  match s with
  | EmptyString => []
  | String c r =>
      if is_linebreak c then
        match r with
        | String c2 r2 =>
            if is_char CR c && is_char LF c2
            then EmptyString :: splitlines r2
            else EmptyString :: splitlines r
        | EmptyString => [EmptyString]
        end
      else
        match splitlines r with
        | [] => [String c EmptyString]
        | l :: ls => String c l :: ls
        end
  end.

(** The regex tail "any characters, then end of string" anchored where [s]
    starts: the dot does not match LF, and the end anchor matches at the
    end or just before a final LF. *)
Fixpoint dot_star_end (s : string) : option string :=
  match s with
  | EmptyString => Some EmptyString
  | String c r =>
      if is_char LF c then
        match r with EmptyString => Some EmptyString | _ => None end
      else option_map (String c) (dot_star_end r)
  end.

End Text.

(** ** The snapshot parser ([snapshot_parser.py]) *)

Module Parser.
Import Text.

Definition nonempty (s : string) : bool :=
  match s with EmptyString => false | _ => true end.

(** [LINE_RE.match(line)]: leading whitespace (group [indent]), a dash, at
    least one whitespace, then group [body] up to the end. *)
Definition LINE_RE (line : string) : option (string * string) :=
  match drop_while is_space line with
  | String c r =>
      if is_char "-" c then
        match r with
        | String w _ =>
            if is_space w then
              body ← dot_star_end (drop_while is_space r);
              Some (take_while is_space line, body)
            else None
        | EmptyString => None
        end
      else None
  | EmptyString => None
  end.

(** [URL_RE.match(body)]: the literal [/url:], optional whitespace, a
    non-empty run of non-whitespace (group [url]), optional whitespace,
    end. *)
Definition URL_RE (body : string) : option string :=
  r ← strip_prefix "/url:" body;
  let r1 := drop_while is_space r in
  let u := take_while (λ c, negb (is_space c)) r1 in
  let r2 := drop_while (λ c, negb (is_space c)) r1 in
  if nonempty u && all_chars is_space r2 then Some u else None.

(** [TEXT_KV_RE.match(body)]: the literal [text:], optional whitespace,
    then group [text] up to the end. *)
Definition TEXT_KV_RE (body : string) : option string :=
  r ← strip_prefix "text:" body;
  dot_star_end (drop_while is_space r).

(** [ROLE_RE.match(body)]: a non-empty run of letters and underscores at
    the start, ending at a word boundary. *)
Definition ROLE_RE (body : string) : option string :=
  let r := take_while is_role_char body in
  let boundary :=
    match drop_while is_role_char body with
    | String c _ => negb (is_word c)
    | EmptyString => true
    end in
  if nonempty r && boundary then Some r else None.

(** The lazy group of [NAME_RE] after an opening quote: characters up to
    the next quote, none of them LF. *)
Fixpoint until_quote (s : string) : option string :=
  match s with
  | EmptyString => None
  | String c r =>
      if is_char DQUOTE c then Some EmptyString
      else if is_char LF c then None
      else String c <$> until_quote r
  end.

(** [NAME_RE.search(body)]: the leftmost quoted substring. *)
Fixpoint NAME_RE (body : string) : option string :=
  match body with
  | EmptyString => None
  | String c r =>
      if is_char DQUOTE c then
        match until_quote r with
        | Some n => Some n
        | None => NAME_RE r
        end
      else NAME_RE r
  end.

Definition ref_here (s : string) : option string :=
  r ← strip_prefix "[ref=e" s;
  let ds := take_while is_digit r in
  match drop_while is_digit r with
  | String c _ => if nonempty ds && is_char "]" c then Some ("e" +:+ ds) else None
  | EmptyString => None
  end.

(** [REF_RE.search(body)]: the leftmost [[ref=e<digits>]]. *)
Fixpoint REF_RE (body : string) : option string :=
  match ref_here body with
  | Some r => Some r
  | None =>
      match body with
      | EmptyString => None
      | String _ r => REF_RE r
      end
  end.

(** [DISABLED_RE.search(body)] as a truth value. *)
Definition DISABLED_RE (body : string) : bool := contains "[disabled]" body.

(** *** Nodes and the node store *)

(** [attrs] is a dictionary with at most the keys [url] and [texts]; the
    list under [texts] is created by the first append, so an empty list
    stands for the missing key. [children] holds references. *)
Record Node := mkNode {
  raw : string;
  indent : Z;
  role : string;
  name : option string;
  ref : option string;
  disabled : bool;
  attrs_url : option string;
  attrs_texts : list string;
  children : list nat;
}.

(** The node store. *)
Abbreviation heap := (list Node).

Definition new_node (raw : string) (indent : Z) (role : string)
    (name ref : option string) (disabled : bool) : Node :=
  mkNode raw indent role name ref disabled None [] [].

(** [Node(raw="ROOT", indent=-1, role="root")] *)
Definition root_node : Node := new_node "ROOT" (-1) "root" None None false.

#[global] Instance Node_inhabited : Inhabited Node := populate root_node.

(** The root is the first object created: reference 0. *)
Definition ROOT : nat := 0.

Definition add_child (c : nat) (n : Node) : Node :=
  mkNode (raw n) (indent n) (role n) (name n) (ref n) (disabled n)
         (attrs_url n) (attrs_texts n) (children n ++ [c]).

Definition set_url (u : string) (n : Node) : Node :=
  mkNode (raw n) (indent n) (role n) (name n) (ref n) (disabled n)
         (Some u) (attrs_texts n) (children n).

Definition append_text (t : string) (n : Node) : Node :=
  mkNode (raw n) (indent n) (role n) (name n) (ref n) (disabled n)
         (attrs_url n) (attrs_texts n ++ [t]) (children n).

(** *** [parse_snapshot] *)

(** [while stack and indent <= stack[-1].indent: stack.pop()] *)
Fixpoint pop_closed (h : heap) (ind : Z) (stack : list nat) : list nat :=
  match stack with
  | [] => []
  | top :: below =>
      if (ind <=? indent (h !!! top))%Z then pop_closed h ind below else stack
  end.

(** The parser state: the node store and the stack of open nodes. *)
Abbreviation pstate := (list Node * list nat)%type.

(** One iteration of the loop over the lines. *)
Definition parse_line (st : pstate) (line : string) : result pstate :=
  let '(h, stack) := st in
  match LINE_RE line with
  | None => Ok st
  | Some (ind_text, body0) =>
      let ind := Z.of_nat (String.length ind_text) in
      let body := strip body0 in
      match URL_RE body with
      | Some u =>
          match stack with
          | top :: _ => Ok (alter (set_url u) top h, stack)
          | [] => Raise IndexError
          end
      | None =>
      match TEXT_KV_RE body with
      | Some t =>
          match stack with
          | top :: _ => Ok (alter (append_text t) top h, stack)
          | [] => Raise IndexError
          end
      | None =>
          let role := default "unknown" (ROLE_RE body) in
          let node := new_node body ind role (NAME_RE body) (REF_RE body)
                               (DISABLED_RE body) in
          match pop_closed h ind stack with
          | top :: below =>
              let id := length h in
              Ok (alter (add_child id) top h ++ [node], id :: top :: below)
          | [] => Raise IndexError
          end
      end
      end
  end.

Fixpoint parse_lines (st : pstate) (lines : list string) : result pstate :=
  match lines with
  | [] => Ok st
  | l :: ls => st' ← parse_line st l; parse_lines st' ls
  end.

(** [parse_snapshot(snapshot_text)]: the store; the returned root is
    reference [ROOT]. *)
Definition parse_snapshot (snapshot_text : string) : result heap :=
  st ← parse_lines ([root_node], [ROOT]) (splitlines snapshot_text);
  Ok st.1.

End Parser.

(** ** Tree walks and the salient text ([snapshot_parser.py], continued) *)

Module Walk.
Import Text Parser.

Definition INTERACTIVE_ROLES : list string :=
  ["button"; "link"; "combobox"; "textbox"; "searchbox"; "checkbox";
   "radio"; "option"; "menuitem"; "tab"].
Definition LANDMARK_ROLES : list string := ["main"; "navigation"; "contentinfo"].
Definition REPEATER_ITEM_ROLES : list string := ["row"; "listitem"; "group"].
Definition HEADING_ROLE : string := "heading".

(** [r in ROLES] *)
Definition role_in (roles : list string) (r : string) : bool :=
  existsb (String.eqb r) roles.

(** Truth value of an optional string: [None] and the empty string are
    false. *)
Definition truthy (o : option string) : bool :=
  match o with
  | Some s => nonempty s
  | None => false
  end.

(** [iter_nodes]: the loop pops [n], records it and pushes its children
    reversed, so that the first child is popped next. *)
Fixpoint iter_loop (fuel : nat) (h : heap) (stack out : list nat)
    : result (list nat) :=
  match fuel with
  | O => Raise OutOfFuel
  | S fuel' =>
      match stack with
      | [] => Ok out
      | n :: rest =>
          iter_loop fuel' h (children (h !!! n) ++ rest) (out ++ [n])
      end
  end.

Definition iter_nodes (fuel : nat) (h : heap) (root : nat) : result (list nat) :=
  iter_loop fuel h [root] [].

(** The inner [for c in n.children] of [ancestors_with_context]; the
    [parent] dictionary of the source is written and never read, and is
    left out. *)
Fixpoint push_children (n : nat) (cs : list nat)
    (chains : gmap nat (list nat)) (stack : list nat)
    : result (gmap nat (list nat) * list nat) :=
  match cs with
  | [] => Ok (chains, stack)
  | c :: cs' =>
      match chains !! n with
      | Some a => push_children n cs' (<[c := a ++ [n]]> chains) (c :: stack)
      | None => Raise KeyError
      end
  end.

Fixpoint anc_loop (fuel : nat) (h : heap) (stack : list nat)
    (chains : gmap nat (list nat)) : result (gmap nat (list nat)) :=
  match fuel with
  | O => Raise OutOfFuel
  | S fuel' =>
      match stack with
      | [] => Ok chains
      | n :: rest =>
          cs ← push_children n (children (h !!! n)) chains rest;
          anc_loop fuel' h cs.2 cs.1
      end
  end.

(** [ancestors_with_context(root)]: reference of a node to the list of its
    ancestors, root first, parent last. *)
Definition ancestors_with_context (fuel : nat) (h : heap) (root : nat)
    : result (gmap nat (list nat)) :=
  anc_loop fuel h [root] {[ root := [] ]}.

(** The body of the loop of [first_salient_text] over the nodes of the
    container, in the order of the source: heading or link name, then the
    texts of the node, then the branch for role [emphasis]. *)
Fixpoint salient_scan (max_len : nat) (h : heap) (nodes : list nat)
    : option string :=
  match nodes with
  | [] => None
  | n :: rest =>
      let nd := h !!! n in
      if (String.eqb (role nd) "heading" || String.eqb (role nd) "link")
         && truthy (name nd)
      then Some (str_take max_len (default EmptyString (name nd)))
      else
        let t := strip (join " " (attrs_texts nd)) in
        if negb (bool_decide (attrs_texts nd = [])) && nonempty t
        then Some (str_take max_len t)
        else if String.eqb (role nd) "emphasis"
                && negb (bool_decide (attrs_texts nd = [])) && nonempty t
        then Some (str_take max_len t)
        else salient_scan max_len h rest
  end.

Definition salient_fallback (h : heap) (container : nat) : string :=
  role (h !!! container) +:+ ":" +:+
  (if truthy (ref (h !!! container))
   then default EmptyString (ref (h !!! container)) else "no-ref").

(** [first_salient_text(container)] with the default [max_len = 80]. *)
Definition first_salient_text (fuel : nat) (h : heap) (container : nat)
    : result string :=
  nodes ← iter_nodes fuel h container;
  Ok (default (salient_fallback h container) (salient_scan 80 h nodes)).

End Walk.

(** ** The context model ([transform_with_context.py]) *)

Module Context.
Import Text Parser Walk.

Record Action := mkAction {
  action_id : string;
  a_role : string;
  a_name : string;
  a_ref : string;
  a_disabled : bool;
  a_url : option string;
}.

Record Item := mkItem {
  item_id : string;
  item_key : string;
  container_role : string;
  actions : list Action;
}.

#[global] Instance Item_inhabited : Inhabited Item :=
  populate (mkItem EmptyString EmptyString EmptyString []).

(** A section dictionary; [I] is what its [items] list holds: references
    into the item store while the model is built, the items themselves in
    the finished model. *)
Record Section (I : Type) := mkSection {
  section_id : string;
  landmark : string;
  heading_path : list string;
  items : list I;
}.
Arguments mkSection {I}.
Arguments section_id {I}.
Arguments landmark {I}.
Arguments heading_path {I}.
Arguments items {I}.

(** [hp[-3:]] *)
Definition last3 {A} (l : list A) : list A := drop (length l - 3) l.

Definition heading_path_for (h : heap) (ancs : list nat) : list string :=
  last3 (omap (λ a, if String.eqb (role (h !!! a)) HEADING_ROLE
                       && truthy (name (h !!! a))
                    then name (h !!! a) else None) ancs).

Definition nearest_landmark (h : heap) (ancs : list nat) : option nat :=
  List.find (λ a, role_in LANDMARK_ROLES (role (h !!! a))) (rev ancs).

Definition nearest_item_container (h : heap) (ancs : list nat) : option nat :=
  List.find (λ a, role_in REPEATER_ITEM_ROLES (role (h !!! a))) (rev ancs).

(** [nearest_item_container(ancs) or (lm if lm else ancs[-1] if ancs else root)] *)
Definition item_container_for (h : heap) (ancs : list nat) (root : nat) : nat :=
  match nearest_item_container h ancs with
  | Some c => c
  | None =>
      match nearest_landmark h ancs with
      | Some lm => lm
      | None =>
          match last ancs with
          | Some p => p
          | None => root
          end
      end
  end.

Definition section_landmark_for (h : heap) (ancs : list nat) : string :=
  match nearest_landmark h ancs with
  | Some lm => role (h !!! lm)
  | None => "unknown"
  end.

Definition section_id_for (section_landmark : string) (hp : list string)
    : string :=
  "s_" +:+ section_landmark +:+ "_" +:+
  (match hp with [] => "noheading" | _ => join "_" hp end).

(** The state of the loop of [build_context_model]: the [sections]
    dictionary in insertion order, [item_map], and the store of the item
    dictionaries that both of them reference. *)
Record bstate := mkB {
  sections : list (Section nat);
  item_map : gmap (string * nat) nat;
  item_store : list Item;
}.

Definition has_section (sid : string) (secs : list (Section nat)) : bool :=
  existsb (λ s, String.eqb (section_id s) sid) secs.

(** [sections[sid]["items"].append(item)] *)
Fixpoint section_append (sid : string) (r : nat) (secs : list (Section nat))
    : result (list (Section nat)) :=
  match secs with
  | [] => Raise KeyError
  | s :: rest =>
      if String.eqb (section_id s) sid
      then Ok (mkSection (section_id s) (landmark s) (heading_path s)
                         (items s ++ [r]) :: rest)
      else rest' ← section_append sid r rest; Ok (s :: rest')
  end.

Definition add_action (a : Action) (it : Item) : Item :=
  mkItem (item_id it) (item_key it) (container_role it) (actions it ++ [a]).

(** The two tests at the head of the loop body. *)
Definition eligible (h : heap) (n : nat) : bool :=
  role_in INTERACTIVE_ROLES (role (h !!! n)) && truthy (ref (h !!! n)).

(** One iteration of [for n in iter_nodes(root)]. *)
Definition visit (fuel : nat) (h : heap) (chains : gmap nat (list nat))
    (root : nat) (st : bstate) (n : nat) : result bstate :=
  if negb (role_in INTERACTIVE_ROLES (role (h !!! n))) then Ok st
  else if negb (truthy (ref (h !!! n))) then Ok st
  else
    match chains !! n with
    | None => Raise KeyError
    | Some ancs =>
        let section_landmark := section_landmark_for h ancs in
        let hp := heading_path_for h ancs in
        let sid := section_id_for section_landmark hp in
        let secs1 :=
          if has_section sid (sections st) then sections st
          else sections st ++ [mkSection sid section_landmark hp []] in
        let item_container := item_container_for h ancs root in
        key ← first_salient_text fuel h item_container;
        let item_key_id := (sid, item_container) in
        st2 ←
          match item_map st !! item_key_id with
          | Some _ => Ok (mkB secs1 (item_map st) (item_store st))
          | None =>
              let item :=
                mkItem (sid +:+ "/i" +:+ pretty (size (item_map st))) key
                       (role (h !!! item_container)) [] in
              let r := length (item_store st) in
              secs2 ← section_append sid r secs1;
              Ok (mkB secs2 (<[item_key_id := r]> (item_map st))
                      (item_store st ++ [item]))
          end;
        match item_map st2 !! item_key_id with
        | None => Raise KeyError
        | Some r =>
            let it := item_store st2 !!! r in
            let action :=
              mkAction (item_id it +:+ "/a" +:+ pretty (length (actions it)))
                       (role (h !!! n))
                       (default EmptyString (name (h !!! n)))
                       (default EmptyString (ref (h !!! n)))
                       (disabled (h !!! n))
                       (attrs_url (h !!! n)) in
            Ok (mkB (sections st2) (item_map st2)
                    (alter (add_action action) r (item_store st2)))
        end
    end.

Fixpoint visit_all (fuel : nat) (h : heap) (chains : gmap nat (list nat))
    (root : nat) (st : bstate) (nodes : list nat) : result bstate :=
  match nodes with
  | [] => Ok st
  | n :: rest =>
      st' ← visit fuel h chains root st n;
      visit_all fuel h chains root st' rest
  end.

(** Reading the finished structure: every reference is followed into the
    item store. *)
Definition resolve (st : bstate) : list (Section Item) :=
  (λ s, mkSection (section_id s) (landmark s) (heading_path s)
                  ((λ r, item_store st !!! r) <$> items s))
    <$> sections st.

(** The run of [build_context_model] up to its [return]: the parsed tree
    and the final loop state. *)
Definition build_state (fuel : nat) (snapshot_text : string)
    : result (heap * bstate) :=
  h ← parse_snapshot snapshot_text;
  chains ← ancestors_with_context fuel h ROOT;
  nodes ← iter_nodes fuel h ROOT;
  st ← visit_all fuel h chains ROOT (mkB [] ∅ []) nodes;
  Ok (h, st).

(** [build_context_model(snapshot_text)["sections"]]; the [page] entry of
    the result is the empty dictionary. *)
Definition build_context_model (fuel : nat) (snapshot_text : string)
    : result (list (Section Item)) :=
  hs ← build_state fuel snapshot_text;
  Ok (resolve hs.2).

End Context.

(** ** Stable sorting and list slices, as the builtins behave *)

Module Builtins.

(** [sorted(l, key=...)] and [sorted(l, key=..., reverse=True)] are
    stable: elements with equal keys keep their relative order in both
    directions. A stable sort has one possible result, which insertion
    from the right computes. *)
Section Sorted.
Context {A : Type} (key : A → Z).

Fixpoint insert_desc (x : A) (l : list A) : list A :=
  match l with
  | [] => [x]
  | y :: l' =>
      if (key y <=? key x)%Z then x :: y :: l' else y :: insert_desc x l'
  end.

Definition sorted_desc (l : list A) : list A := foldr insert_desc [] l.

Fixpoint insert_asc (x : A) (l : list A) : list A :=
  match l with
  | [] => [x]
  | y :: l' =>
      if (key x <=? key y)%Z then x :: y :: l' else y :: insert_asc x l'
  end.

Definition sorted_asc (l : list A) : list A := foldr insert_asc [] l.
End Sorted.

(** [l[:k]] for any integer [k]. *)
Definition list_slice_to {A} (k : Z) (l : list A) : list A :=
  if (0 <=? k)%Z then take (Z.to_nat k) l
  else take (Z.to_nat (Z.of_nat (length l) + k)) l.

End Builtins.

(** ** The chunker ([nodebased_chunking.py]) *)

Module Chunker.
Import Text Parser Walk Builtins.

Definition CHUNK_ROOT_ROLES : list string :=
  ["main"; "navigation"; "contentinfo"; "rowgroup"; "list"].

Definition estimate_tokens (text : string) : Z :=
  Z.max 1 (Z.of_nat (String.length text) / 4).

Fixpoint repeat_string (s : string) (n : nat) : string :=
  match n with
  | O => EmptyString
  | S n' => s +:+ repeat_string s n'
  end.

(** The line appended for node [n] at depth [depth]. *)
Definition render_line (nd : Node) (depth : nat) : string :=
  let name_part :=
    if truthy (name nd) then " " +:+ quoted (default EmptyString (name nd))
    else EmptyString in
  let ref_part :=
    if truthy (ref nd) then " [ref=" +:+ default EmptyString (ref nd) +:+ "]"
    else EmptyString in
  let dis_part := if disabled nd then " [disabled]" else EmptyString in
  let url_part :=
    match attrs_url nd with
    | Some u => " /url=" +:+ u
    | None => EmptyString
    end in
  repeat_string "  " depth +:+ "- " +:+ role nd +:+ name_part +:+ ref_part
    +:+ dis_part +:+ url_part.

(** The loop [while stack and len(lines) < max_lines] of
    [serialize_subtree]; every iteration appends one line, so [room]
    counts [max_lines - len(lines)] down. *)
Fixpoint serialize_loop (room : nat) (h : heap) (stack : list (nat * nat))
    (lines : list string) : list string :=
  match room with
  | O => lines
  | S room' =>
      match stack with
      | [] => lines
      | (n, depth) :: rest =>
          serialize_loop room' h
            (((λ c, (c, S depth)) <$> children (h !!! n)) ++ rest)
            (lines ++ [render_line (h !!! n) depth])
      end
  end.

Definition NEWLINE : string := String LF EmptyString.

(** [serialize_subtree(node)] with the default [max_lines = 5000]. *)
Definition serialize_subtree (h : heap) (node : nat) : string :=
  join NEWLINE (serialize_loop (Z.to_nat 5000) h [(node, O)] []).

Definition rank (h : heap) (n : nat) : Z :=
  if role_in ["main"; "navigation"; "contentinfo"] (role (h !!! n))
  then 0 else 1.

Definition find_chunk_roots (fuel : nat) (h : heap) (root : nat)
    : result (list nat) :=
  nodes ← iter_nodes fuel h root;
  Ok (sorted_asc (rank h)
        (filter (λ n, role_in CHUNK_ROOT_ROLES (role (h !!! n)) && negb (Nat.eqb n root))
                nodes)).

Record Chunk := mkChunk {
  chunk_id : string;
  root_role : string;
  text : string;
}.

(** The chunk of child number [j] of chunk root number [idx]. *)
Definition child_chunk (h : heap) (max_tokens_per_chunk : Z)
    (idx : nat) (cr : nat) (j : nat) (child : nat) : Chunk :=
  let child_text := serialize_subtree h child in
  if (estimate_tokens child_text <=? max_tokens_per_chunk)%Z
  then mkChunk ("ch" +:+ pretty idx +:+ "_" +:+ pretty j)
               (role (h !!! cr) +:+ ":" +:+ role (h !!! child))
               child_text
  else mkChunk ("ch" +:+ pretty idx +:+ "_" +:+ pretty j +:+ "_slice")
               (role (h !!! cr) +:+ ":" +:+ role (h !!! child))
               (slice_to (max_tokens_per_chunk * 4) child_text).

(** The chunks appended by one iteration of the loop over the chunk
    roots. *)
Definition root_chunks (h : heap) (max_tokens_per_chunk : Z)
    (idx : nat) (cr : nat) : list Chunk :=
  let text := serialize_subtree h cr in
  if (estimate_tokens text <=? max_tokens_per_chunk)%Z
  then [mkChunk ("ch" +:+ pretty idx) (role (h !!! cr)) text]
  else imap (child_chunk h max_tokens_per_chunk idx cr) (children (h !!! cr)).

Definition make_chunks (fuel : nat) (snapshot_text : string)
    (max_tokens_per_chunk : Z) : result (list Chunk) :=
  h ← parse_snapshot snapshot_text;
  chunk_roots ← find_chunk_roots fuel h ROOT;
  Ok (concat (imap (root_chunks h max_tokens_per_chunk) chunk_roots)).

End Chunker.

(** ** The relevance trimmer ([trim_for_llm]) *)

Module Trimmer.
Import Text Context Builtins.

(** [re.findall(r"[a-zA-Z0-9]+", task)]: the maximal runs of ASCII
    letters and digits. [cur] is the run being read, reversed. *)
Fixpoint findall_alnum (cur : list ascii) (s : string) : list string :=
  let flush := match cur with
               | [] => []
               | _ => [string_of_list_ascii (rev cur)]
               end in
  match s with
  | EmptyString => flush
  | String c r =>
      if is_alnum_ascii c then findall_alnum (c :: cur) r
      else flush ++ findall_alnum [] r
  end.

(** The set [kw], as a duplicate-free list. *)
Definition keywords (task : string) : list string :=
  remove_dups
    (lower <$> filter (λ w, Nat.ltb 2 (String.length w)) (findall_alnum [] task)).

Definition score_text (kw : list string) (s : string) : Z :=
  Z.of_nat (length (filter (λ k, contains k (lower s)) kw)).

Definition section_score (kw : list string) (sec : Section Item) : Z :=
  score_text kw (join " " (heading_path sec)).

Definition item_score (kw : list string) (it : Item) : Z :=
  score_text kw (item_key it).

Definition action_score (kw : list string) (a : Action) : Z :=
  score_text kw (a_name a +:+ " " +:+ default EmptyString (a_url a)).

Definition trim_item (kw : list string) (max_actions : Z) (it : Item) : Item :=
  mkItem (item_id it) (item_key it) (container_role it)
         (list_slice_to max_actions (sorted_desc (action_score kw) (actions it))).

Definition trim_section (kw : list string) (max_items max_actions : Z)
    (sec : Section Item) : Section Item :=
  mkSection (section_id sec) (landmark sec) (heading_path sec)
    (trim_item kw max_actions
       <$> list_slice_to max_items (sorted_desc (item_score kw) (items sec))).

(** [trim_for_llm(model, task, max_sections, max_items, max_actions)]: the
    pair of the [task] and [sections] entries of the result. *)
Definition trim_for_llm (model : list (Section Item)) (task : string)
    (max_sections max_items max_actions : Z) : string * list (Section Item) :=
  let kw := keywords task in
  (task,
   trim_section kw max_items max_actions
     <$> list_slice_to max_sections (sorted_desc (section_score kw) model)).

End Trimmer.

(** * Verification *)

(** ** The parser: indentation and shape of the store *)

Module ParserFacts.
Import Text Parser.

(** Reading the store after [stack[-1].add_child(node)] and the creation
    of the node. *)
Section Attach.
Variables (h : heap) (p : nat) (nd : Node).
Let h' := alter (add_child (length h)) p h ++ [nd].

Lemma attach_length : length h' = S (length h).
Proof. unfold h'. rewrite length_app, length_alter. simpl. lia. Qed.

Lemma attach_new : h' !!! length h = nd.
Proof.
  unfold h'. rewrite lookup_total_app_r by (rewrite length_alter; lia).
  rewrite length_alter, Nat.sub_diag. reflexivity.
Qed.

Lemma attach_parent : p < length h → h' !!! p = add_child (length h) (h !!! p).
Proof.
  intros Hp. unfold h'.
  rewrite lookup_total_app_l by (rewrite length_alter; lia).
  by apply list_lookup_total_alter_eq.
Qed.

Lemma attach_other i : i ≠ p → i < length h → h' !!! i = h !!! i.
Proof.
  intros Hne Hi. unfold h'.
  rewrite lookup_total_app_l by (rewrite length_alter; lia).
  by apply list_lookup_total_alter_ne.
Qed.

Lemma attach_beyond i : length h < i → h' !!! i = root_node.
Proof.
  intros Hi. rewrite list_lookup_total_alt.
  rewrite (lookup_ge_None_2 h') by (rewrite attach_length; lia).
  reflexivity.
Qed.

Lemma attach_indent i : i < length h → indent (h' !!! i) = indent (h !!! i).
Proof.
  intros Hi. destruct (decide (i = p)) as [->|Hne].
  - by rewrite attach_parent.
  - by rewrite attach_other.
Qed.

Lemma attach_children i :
  children (h' !!! i) =
    if decide (i = p ∧ p < length h) then children (h !!! p) ++ [length h]
    else if decide (i = length h) then children nd
    else children (h !!! i).
Proof.
  destruct (decide (i = p ∧ p < length h)) as [[-> Hp]|Hn].
  - by rewrite attach_parent.
  - destruct (decide (i = length h)) as [->|Hk]; [by rewrite attach_new|].
    destruct (decide (i < length h)) as [Hi|Hi].
    + rewrite attach_other; [done| |done]. intros ->. by apply Hn.
    + rewrite attach_beyond by lia.
      rewrite (list_lookup_total_alt h), (lookup_ge_None_2 h) by lia. done.
Qed.
End Attach.

(** An attribute line changes neither an indentation nor a child list. *)
Lemma alter_keeps {B} (g : Node → B) (f : Node → Node) (h : heap) (i j : nat) :
  (∀ x, g (f x) = g x) → g (alter f i h !!! j) = g (h !!! j).
Proof.
  intros Hf. rewrite list_lookup_total_alter.
  case_decide as Hd; [|done]. destruct Hd as [-> _]. apply Hf.
Qed.

Lemma beyond_root (h : heap) (i : nat) : length h ≤ i → h !!! i = root_node.
Proof.
  intros Hi. by rewrite list_lookup_total_alt, (lookup_ge_None_2 h) by lia.
Qed.

(** What the pop loop leaves: the popped nodes are at least as indented as
    the new line, the new top is strictly less indented. *)
Lemma pop_closed_spec (h : heap) (ind : Z) (stack : list nat) :
  ∃ pre, stack = pre ++ pop_closed h ind stack
    ∧ Forall (λ c, (ind ≤ indent (h !!! c))%Z) pre
    ∧ match pop_closed h ind stack with
      | top :: _ => (indent (h !!! top) < ind)%Z
      | [] => True
      end.
Proof.
  induction stack as [|top below IH]; simpl.
  - by exists [].
  - destruct (Z.leb_spec ind (indent (h !!! top))) as [Hle|Hlt].
    + destruct IH as (pre & Heq & Hpre & Htop).
      exists (top :: pre). split_and!; [simpl; congruence|by constructor|done].
    + exists []. split_and!; [done|constructor|done].
Qed.

(** The invariant of the loop over the lines. *)
Record parse_inv (h : heap) (stack : list nat) : Prop := {
  pi_root : 0 < length h ∧ indent (h !!! 0) = (-1)%Z;
  pi_nonneg : ∀ i, 0 < i < length h → (0 ≤ indent (h !!! i))%Z;
  pi_bound : Forall (λ i, i < length h) stack;
  pi_last : last stack = Some 0;
  pi_nodup : NoDup stack;
  pi_children : ∀ p c, c ∈ children (h !!! p) → c < length h;
  pi_edges : ∀ p c, c ∈ children (h !!! p) →
      (indent (h !!! p) < indent (h !!! c))%Z;
  pi_sibs : ∀ p i j ci cj,
      children (h !!! p) !! i = Some ci → children (h !!! p) !! j = Some cj →
      i ≤ j → (indent (h !!! cj) ≤ indent (h !!! ci))%Z;
  pi_top_leaf : ∀ top below, stack = top :: below → children (h !!! top) = [];
  pi_links : ∀ pre c p post, stack = pre ++ c :: p :: post →
      last (children (h !!! p)) = Some c;
  pi_root_role : role (h !!! 0) = "root";
}.

Lemma root_only_children (p : nat) : children ([root_node] !!! p) = [].
Proof. by destruct p as [|[|p]]. Qed.

Lemma parse_inv_init : parse_inv [root_node] [ROOT].
Proof.
  split; simpl.
  - split; [lia|done].
  - intros i Hi. lia.
  - repeat constructor.
  - done.
  - apply NoDup_singleton.
  - intros p c. rewrite root_only_children. by intros ?%elem_of_nil.
  - intros p c. rewrite root_only_children. by intros ?%elem_of_nil.
  - intros p i j ci cj. rewrite root_only_children, lookup_nil. done.
  - intros top below _. apply root_only_children.
  - intros pre c p post Heq. destruct pre as [|? [|? ?]]; discriminate.
  - done.
Qed.

Lemma parse_inv_alter (f : Node → Node) (h : heap) (stack : list nat) (i : nat) :
  (∀ x, indent (f x) = indent x) → (∀ x, children (f x) = children x) →
  (∀ x, role (f x) = role x) →
  parse_inv h stack → parse_inv (alter f i h) stack.
Proof.
  intros Hi Hc Hro [R N B L D C E SB T K RR].
  assert (Hind : ∀ j, indent (alter f i h !!! j) = indent (h !!! j))
    by (intros j; by apply alter_keeps).
  assert (Hch : ∀ j, children (alter f i h !!! j) = children (h !!! j))
    by (intros j; by apply alter_keeps).
  split; rewrite ?length_alter; try done.
  - by rewrite Hind.
  - intros j Hj. rewrite Hind. by apply N.
  - intros p c. rewrite Hch. apply C.
  - intros p c. rewrite Hch, !Hind. apply E.
  - intros p a b ca cb. rewrite Hch, !Hind. apply SB.
  - intros top below Heq. rewrite Hch. by eapply T.
  - intros pre c p post Heq. rewrite Hch. by eapply K.
  - by rewrite (alter_keeps role).
Qed.

Lemma child_parent_bound (h : heap) (p c : nat) :
  c ∈ children (h !!! p) → p < length h.
Proof.
  intros Hc. destruct (decide (p < length h)) as [|Hn]; [done|].
  rewrite beyond_root in Hc by lia. by apply elem_of_nil in Hc.
Qed.

Lemma parse_inv_attach (h : heap) (stack : list nat) (nd : Node)
    (p : nat) (below : list nat) :
  parse_inv h stack → (0 ≤ indent nd)%Z → children nd = [] →
  pop_closed h (indent nd) stack = p :: below →
  parse_inv (alter (add_child (length h)) p h ++ [nd]) (length h :: p :: below).
Proof.
  intros [R N B L D C E SB T K RR] Hind Hleaf Hpop.
  destruct (pop_closed_spec h (indent nd) stack) as (pre & Heq & Hpre & Htop).
  rewrite Hpop in Heq, Htop.
  assert (Hp : p < length h).
  { rewrite Heq in B. apply Forall_app in B as [_ B]. by inversion B. }
  assert (Hbelow : Forall (λ i, i < length h) (p :: below)).
  { rewrite Heq in B. by apply Forall_app in B as [_ B]. }
  set (h' := alter (add_child (length h)) p h ++ [nd]).
  assert (Hi : ∀ i, i < length h → indent (h' !!! i) = indent (h !!! i))
    by apply attach_indent.
  assert (Hk : h' !!! length h = nd) by apply attach_new.
  assert (Hc : ∀ i, children (h' !!! i) =
      if decide (i = p ∧ p < length h) then children (h !!! p) ++ [length h]
      else if decide (i = length h) then children nd
      else children (h !!! i)) by apply attach_children.
  split.
  - unfold h'. rewrite attach_length. split; [lia|]. rewrite Hi; [apply R|apply R].
  - unfold h' at 1. rewrite attach_length. intros i Hil.
    destruct (decide (i = length h)) as [->|Hne]; [by rewrite Hk|].
    rewrite Hi by lia. apply N. lia.
  - unfold h'. rewrite attach_length. constructor; [lia|].
    eapply Forall_impl; [exact Hbelow|]. simpl. lia.
  - rewrite last_cons_cons. rewrite <-L, Heq. by rewrite last_app_cons.
  - constructor.
    + intros Hin. rewrite Forall_forall in Hbelow. apply Hbelow in Hin. lia.
    + rewrite Heq in D. by apply NoDup_app in D as (_ & _ & D).
  - unfold h' at 2. rewrite attach_length. intros q c. rewrite Hc.
    destruct (decide (q = p ∧ p < length h)) as [[-> _]|Hn1];
      [|destruct (decide (q = length h)) as [->|Hn2]].
    + intros [Hin| ->%list_elem_of_singleton]%elem_of_app; [|lia].
      apply C in Hin. lia.
    + rewrite Hleaf. by intros ?%elem_of_nil.
    + intros Hin%C. lia.
  - intros q c. rewrite Hc.
    destruct (decide (q = p ∧ p < length h)) as [[-> _]|Hn1];
      [|destruct (decide (q = length h)) as [->|Hn2]].
    + rewrite (Hi p) by done.
      intros [Hin| ->%list_elem_of_singleton]%elem_of_app.
      * rewrite Hi by (by eapply C). by apply E.
      * by rewrite Hk.
    + rewrite Hleaf. by intros ?%elem_of_nil.
    + intros Hin. rewrite !Hi; [by apply E|by eapply C|by eapply child_parent_bound].
  - intros q i j ci cj. rewrite Hc.
    destruct (decide (q = p ∧ p < length h)) as [[-> _]|Hn1];
      [|destruct (decide (q = length h)) as [->|Hn2]].
    + rewrite !lookup_snoc_Some.
      intros [[Hil Hci]|[-> <-]] [[Hjl Hcj]|[-> <-]] Hij; try lia.
      * rewrite !Hi by (eapply C, list_elem_of_lookup_2; eassumption).
        by eapply SB.
      * rewrite Hk, Hi by (eapply C, list_elem_of_lookup_2; eassumption).
        destruct (decide (pre = [])) as [->|Hne].
        { simpl in Heq. rewrite (T _ _ Heq) in Hci. by rewrite lookup_nil in Hci. }
        apply exists_last in Hne as (pre' & c & ->).
        rewrite <-app_assoc in Heq. simpl in Heq.
        specialize (K _ _ _ _ Heq). rewrite last_lookup in K.
        apply Forall_app in Hpre as [_ Hpre]. inversion_clear Hpre as [|? ? Hle _].
        etrans; [exact Hle|]. eapply SB; [exact Hci|exact K|lia].
    + rewrite Hleaf. by rewrite lookup_nil.
    + intros Hci Hcj Hij.
      rewrite !Hi by (eapply C, list_elem_of_lookup_2; eassumption).
      by eapply SB.
  - intros top rest [= <- <-]. by rewrite Hk.
  - intros pre0 c q post Hst. destruct pre0 as [|x pre0]; simpl in Hst.
    + injection Hst as <- <- <-. rewrite Hc, decide_True by done.
      apply last_snoc.
    + injection Hst as <- Hst.
      assert (Hq : q ∈ below).
      { clear -Hst. destruct pre0; simplify_eq/=; set_solver. }
      assert (Hne : q ≠ p).
      { rewrite Heq in D. apply NoDup_app in D as (_ & _ & D).
        inversion_clear D as [|? ? Hnin _]. intros ->. by apply Hnin. }
      rewrite Hc. rewrite decide_False by (intros [? _]; done).
      rewrite decide_False.
      * apply (K (pre ++ pre0) c q post). by rewrite Heq, Hst, app_assoc.
      * intros ->. rewrite Forall_forall in Hbelow.
        assert (length h < length h); [|lia]. apply Hbelow. by right.
  - destruct R as [R _]. destruct (decide (0 = p)) as [<-|Hne].
    + unfold h'. by rewrite attach_parent.
    + unfold h'. by rewrite attach_other.
Qed.

(** The three effects a line can have on the parser state. *)
Inductive pstep : pstate → pstate → Prop :=
  | ps_skip st : pstep st st
  | ps_attr f h stack top :
      (∀ x, indent (f x) = indent x) → (∀ x, children (f x) = children x) →
      (∀ x, role (f x) = role x) →
      pstep (h, stack) (alter f top h, stack)
  | ps_node h stack nd p below :
      (0 ≤ indent nd)%Z → children nd = [] →
      pop_closed h (indent nd) stack = p :: below →
      pstep (h, stack)
            (alter (add_child (length h)) p h ++ [nd], length h :: p :: below).

Lemma pop_closed_nonempty (h : heap) (stack : list nat) (ind : Z) :
  parse_inv h stack → (0 ≤ ind)%Z → pop_closed h ind stack ≠ [].
Proof.
  intros Hinv Hind Hnil.
  destruct (pop_closed_spec h ind stack) as (pre & Heq & Hpre & _).
  rewrite Hnil, app_nil_r in Heq. subst pre.
  pose proof (pi_last _ _ Hinv) as Hl. apply last_Some_elem_of in Hl.
  rewrite Forall_forall in Hpre. apply Hpre in Hl.
  destruct (pi_root _ _ Hinv) as [_ Hr]. lia.
Qed.

(** A line never raises while the invariant holds, and does one step. *)
Lemma parse_line_step (h : heap) (stack : list nat) (line : string) :
  parse_inv h stack →
  ∃ st', parse_line (h, stack) line = Ok st' ∧ pstep (h, stack) st'.
Proof.
  intros Hinv. unfold parse_line.
  destruct (LINE_RE line) as [[ind_text body0]|]; [|eexists; split; [done|constructor]].
  assert (Hne : stack ≠ []).
  { intros ->. by pose proof (pi_last _ _ Hinv). }
  destruct (URL_RE (strip body0)) as [u|].
  { destruct stack as [|top below]; [done|].
    eexists; split; [done|]. by apply ps_attr. }
  destruct (TEXT_KV_RE (strip body0)) as [t|].
  { destruct stack as [|top below]; [done|].
    eexists; split; [done|]. by apply ps_attr. }
  set (ind := Z.of_nat (String.length ind_text)).
  set (nd := new_node _ _ _ _ _ _).
  destruct (pop_closed h ind stack) as [|p below] eqn:Hpop.
  { exfalso. eapply pop_closed_nonempty; [done| |exact Hpop]. lia. }
  eexists; split; [done|]. apply (ps_node h stack nd); simpl; [lia|done|done].
Qed.

Lemma pstep_inv (h : heap) (stack : list nat) (st' : pstate) :
  pstep (h, stack) st' → parse_inv h stack → parse_inv st'.1 st'.2.
Proof.
  inversion 1; subst; simpl; intros Hinv.
  - done.
  - by apply parse_inv_alter.
  - by eapply parse_inv_attach.
Qed.

Lemma pstep_length (st st' : pstate) :
  pstep st st' → length st'.1 ≤ S (length st.1).
Proof.
  inversion 1; subst; simpl.
  - lia.
  - rewrite length_alter. lia.
  - rewrite attach_length. lia.
Qed.

(** Any property kept by every step holds after the whole loop, which
    returns. *)
Lemma parse_lines_ind (P : pstate → Prop) (lines : list string) (st : pstate) :
  (∀ st st', parse_inv st.1 st.2 → P st → pstep st st' → P st') →
  parse_inv st.1 st.2 → P st →
  ∃ st', parse_lines st lines = Ok st' ∧ parse_inv st'.1 st'.2 ∧ P st'
    ∧ length st'.1 ≤ length st.1 + length lines.
Proof.
  intros Hstep. revert st.
  induction lines as [|l ls IH]; intros [h stack] Hinv HP.
  - exists (h, stack). split_and!; [done..|simpl; lia].
  - destruct (parse_line_step h stack l Hinv) as (st1 & Hl & Hs).
    cbn [parse_lines]. rewrite Hl. cbn [mbind result_bind].
    destruct (IH st1) as (st' & Hrun & Hinv' & HP' & Hlen).
    + destruct st1. by eapply pstep_inv.
    + by eapply Hstep.
    + exists st'. split_and!; [done..|].
      apply pstep_length in Hs. simpl in *. lia.
Qed.

Lemma splitlines_length (s : string) :
  length (splitlines s) ≤ String.length s.
Proof.
  assert (Hgen : ∀ n s, String.length s ≤ n →
            length (splitlines s) ≤ String.length s); [|eauto].
  induction n as [|n IH]; intros [|c r] Hn; simpl in *; try lia.
  destruct (is_linebreak c).
  - destruct r as [|c2 r2]; simpl; [lia|].
    destruct (is_char CR c && is_char LF c2); simpl.
    + specialize (IH r2). simpl in *. lia.
    + specialize (IH (String c2 r2)). simpl in *. lia.
  - specialize (IH r). destruct (splitlines r); simpl in *; lia.
Qed.

(** [parse_snapshot] returns for every text; the store satisfies the
    invariant and has at most one node per character, plus the root. *)
Lemma parse_snapshot_inv (P : pstate → Prop) (text : string) :
  (∀ st st', parse_inv st.1 st.2 → P st → pstep st st' → P st') →
  P ([root_node], [ROOT]) →
  ∃ h stack, parse_snapshot text = Ok h ∧ parse_inv h stack ∧ P (h, stack)
    ∧ length h ≤ S (String.length text).
Proof.
  intros Hstep Hinit. unfold parse_snapshot.
  destruct (parse_lines_ind P (splitlines text) ([root_node], [ROOT]) Hstep)
    as ([h stack] & -> & Hinv & HP & Hlen); [apply parse_inv_init|done|].
  exists h, stack. split_and!; [done..|].
  pose proof (splitlines_length text). simpl in *. lia.
Qed.

End ParserFacts.

(** ** The parsed store is a tree numbered in pre-order *)

Module Shape.
Import Text Parser ParserFacts.

(** A forest in first-child / next-sibling form: the trees that the store
    represents, kept beside it in the proofs. *)
Inductive forest :=
  | FNil
  | FCons (n : nat) (kids sibs : forest).

Fixpoint roots (f : forest) : list nat :=
  match f with
  | FNil => []
  | FCons n _ sibs => n :: roots sibs
  end.

Fixpoint preorder (f : forest) : list nat :=
  match f with
  | FNil => []
  | FCons n kids sibs => n :: preorder kids ++ preorder sibs
  end.

(** The trees of a forest, each as its root and the forest below it. *)
Fixpoint trees (f : forest) : list (nat * forest) :=
  match f with
  | FNil => []
  | FCons n kids sibs => (n, kids) :: trees sibs
  end.

(** The store [h] has the child lists of the forest. *)
Fixpoint repr (h : heap) (f : forest) : Prop :=
  match f with
  | FNil => True
  | FCons n kids sibs =>
      children (h !!! n) = roots kids ∧ repr h kids ∧ repr h sibs
  end.

(** The last tree, its last child, and so on down. *)
Fixpoint spine (f : forest) : list nat :=
  match f with
  | FNil => []
  | FCons n kids sibs =>
      match sibs with
      | FNil => n :: spine kids
      | _ => spine sibs
      end
  end.

(** [graft d x f] goes [d] nodes down the spine and adds the leaf [x] as
    the last tree of the forest found there. *)
Fixpoint graft (d : nat) (x : nat) (f : forest) : forest :=
  match f with
  | FNil => FCons x FNil FNil
  | FCons n kids sibs =>
      match sibs with
      | FNil =>
          match d with
          | O => FCons n kids (FCons x FNil FNil)
          | S d' => FCons n (graft d' x kids) FNil
          end
      | _ => FCons n kids (graft d x sibs)
      end
  end.

Lemma graft_sibs (d x n : nat) (kids sibs : forest) :
  sibs ≠ FNil → graft d x (FCons n kids sibs) = FCons n kids (graft d x sibs).
Proof. by destruct sibs. Qed.

Lemma spine_sibs (n : nat) (kids sibs : forest) :
  sibs ≠ FNil → spine (FCons n kids sibs) = spine sibs.
Proof. by destruct sibs. Qed.

Lemma graft_not_nil (d x : nat) (f : forest) : graft d x f ≠ FNil.
Proof. destruct f as [|n kids [|]]; [done|by destruct d|done]. Qed.

(** A case analysis that keeps a non-empty sibling forest folded. *)
Lemma forest_nil_dec (f : forest) : {f = FNil} + {f ≠ FNil}.
Proof. destruct f; [by left|by right]. Qed.

Lemma preorder_graft (d x : nat) (f : forest) :
  preorder (graft d x f) = preorder f ++ [x].
Proof.
  revert d. induction f as [|n kids IHk sibs IHs]; intros d; [done|].
  destruct (forest_nil_dec sibs) as [->|Hne].
  - destruct d as [|d']; simpl.
    + by rewrite !app_nil_r.
    + by rewrite IHk, !app_nil_r.
  - rewrite graft_sibs by done. simpl. rewrite IHs. by rewrite !app_assoc.
Qed.

Lemma roots_graft (d x : nat) (f : forest) :
  roots (graft d x f) =
    match d with O => roots f ++ [x] | S _ => if f is FNil then [x] else roots f end.
Proof.
  revert d. induction f as [|n kids IHk sibs IHs]; intros d.
  - by destruct d.
  - destruct (forest_nil_dec sibs) as [->|Hne].
    + by destruct d.
    + rewrite graft_sibs by done. simpl. rewrite IHs.
      destruct d; [done|]. by destruct sibs.
Qed.

Lemma spine_graft (d x : nat) (f : forest) :
  d ≤ length (spine f) → spine (graft d x f) = take d (spine f) ++ [x].
Proof.
  revert d. induction f as [|n kids IHk sibs IHs]; intros d Hd.
  - simpl in *. by replace d with 0 by lia.
  - destruct (forest_nil_dec sibs) as [->|Hne].
    + destruct d as [|d']; [done|]. simpl in *. rewrite IHk by lia.
      pose proof (graft_not_nil d' x kids). done.
    + rewrite spine_sibs in Hd |- * by done. rewrite graft_sibs by done.
      rewrite spine_sibs by apply graft_not_nil. by apply IHs.
Qed.

Lemma spine_preorder (f : forest) : spine f ⊆ preorder f.
Proof.
  induction f as [|n kids IHk sibs IHs]; [done|].
  destruct (forest_nil_dec sibs) as [->|Hne].
  - simpl. rewrite app_nil_r. set_solver.
  - rewrite spine_sibs by done. simpl. set_solver.
Qed.

Lemma roots_preorder (f : forest) : roots f ⊆ preorder f.
Proof. induction f; simpl; set_solver. Qed.

(** [repr] only reads the child lists of the nodes of the forest. *)
Lemma repr_ext (h h' : heap) (f : forest) :
  (∀ i, i ∈ preorder f → children (h' !!! i) = children (h !!! i)) →
  repr h f → repr h' f.
Proof.
  induction f as [|n kids IHk sibs IHs]; simpl; [done|].
  intros Hsame (Hc & Hk & Hs). split_and!.
  - rewrite Hsame; [done|set_solver].
  - apply IHk; [|done]. intros i Hi. apply Hsame. set_solver.
  - apply IHs; [|done]. intros i Hi. apply Hsame. set_solver.
Qed.

(** Grafting the new leaf follows the store after a node line. *)
Lemma repr_graft (h h' : heap) (p x : nat) (f : forest) (d : nat) :
  children (h' !!! p) = children (h !!! p) ++ [x] →
  children (h' !!! x) = [] →
  (∀ i, i ≠ p → i ≠ x → children (h' !!! i) = children (h !!! i)) →
  repr h f → NoDup (preorder f) → x ∉ preorder f →
  match d with O => p ∉ preorder f | S d' => spine f !! d' = Some p end →
  repr h' (graft d x f).
Proof.
  intros Hp Hx Hother. revert d.
  induction f as [|n kids IHk sibs IHs]; intros d Hr Hnd Hfresh Hd.
  { simpl. by rewrite Hx. }
  destruct Hr as (Hc & Hk & Hs). simpl in Hnd, Hfresh.
  apply NoDup_cons in Hnd as [Hn Hnd].
  apply NoDup_app in Hnd as (Hndk & Hdisj & Hnds).
  assert (Hkeep : ∀ g, preorder g ⊆ preorder kids ++ preorder sibs →
            p ∉ preorder g → repr h g → repr h' g).
  { intros g Hsub Hpg. apply repr_ext. intros i Hi. apply Hother.
    - intros ->. done.
    - intros ->. apply Hfresh. right. by apply Hsub. }
  destruct (forest_nil_dec sibs) as [->|Hne].
  - destruct d as [|d'].
    + simpl. simpl in Hd. split_and!; [| |by rewrite Hx|done..].
      * rewrite Hother; [done| |]; intros ->; set_solver.
      * apply Hkeep; [set_solver|set_solver|done].
    + simpl. simpl in Hd. destruct d' as [|d'']; simpl in Hd.
      * injection Hd as ->. split_and!; [| |done].
        -- rewrite Hp, Hc, roots_graft. done.
        -- apply IHk; [done|done|set_solver|set_solver].
      * assert (Hpk : p ∈ preorder kids).
        { apply spine_preorder. by eapply list_elem_of_lookup_2. }
        split_and!; [| |done].
        -- rewrite Hother; [|intros ->; set_solver|intros ->; set_solver].
           rewrite Hc, roots_graft. destruct kids; [done|done].
        -- apply IHk; [done|done|set_solver|done].
  - rewrite graft_sibs by done. rewrite spine_sibs in Hd by done. simpl.
    assert (Hps : match d with O => p ∉ preorder sibs | S _ => p ∈ preorder sibs end).
    { destruct d; [set_solver|].
      apply spine_preorder. by eapply list_elem_of_lookup_2. }
    split_and!.
    + rewrite Hother; [done| |intros ->; set_solver].
      intros ->. destruct d; set_solver.
    + apply Hkeep; [set_solver| |done].
      destruct d; [set_solver|]. intros Hpk. by eapply Hdisj.
    + apply IHs; [done|done|set_solver|].
      destruct d; [set_solver|done].
Qed.

(** The shape invariant of the parser loop: the store is a tree rooted at
    [ROOT] whose pre-order is the order of creation, and the stack is an
    initial part of its spine. *)
Definition shape (st : pstate) : Prop :=
  ∃ kids, repr st.1 (FCons 0 kids FNil)
    ∧ preorder (FCons 0 kids FNil) = seq 0 (length st.1)
    ∧ rev st.2 `prefix_of` spine (FCons 0 kids FNil).

Lemma shape_init : shape ([root_node], [ROOT]).
Proof. exists FNil. simpl. split_and!; done. Qed.

Lemma shape_step (st st' : pstate) :
  parse_inv st.1 st.2 → shape st → pstep st st' → shape st'.
Proof.
  intros Hinv (kids & Hr & Hpre & Hsp) Hstep.
  inversion Hstep as [|f h stack top Hfi Hfc Hfr|h stack nd p below Hind Hleaf Hpop];
    subst; unfold shape; cbn [fst snd] in *.
  - by exists kids.
  - exists kids. split_and!; [|by rewrite length_alter|done].
    revert Hr. apply (repr_ext h (alter f top h) (FCons 0 kids FNil)).
    intros i _. by apply alter_keeps.
  - destruct (pop_closed_spec h (indent nd) stack) as (pre & Heq & _ & _).
    rewrite Hpop in Heq.
    assert (Hp : p < length h).
    { pose proof (pi_bound _ _ Hinv) as B. rewrite Heq in B.
      apply Forall_app in B as [_ B]. by inversion B. }
    assert (Hsp' : rev (p :: below) `prefix_of` spine (FCons 0 kids FNil)).
    { etrans; [|exact Hsp]. rewrite Heq, rev_app_distr. by apply prefix_app_r. }
    destruct Hsp' as [rest Hrest].
    assert (Hlook : spine (FCons 0 kids FNil) !! length below = Some p).
    { rewrite Hrest. cbn [rev]. rewrite <-app_assoc.
      rewrite lookup_app_r by (by rewrite length_rev).
      by rewrite length_rev, Nat.sub_diag. }
    assert (Htake : take (S (length below)) (spine (FCons 0 kids FNil))
                    = rev (p :: below)).
    { rewrite Hrest. apply take_app_length'. rewrite length_rev. done. }
    assert (Hlen : S (length below) ≤ length (spine (FCons 0 kids FNil))).
    { rewrite Hrest, length_app, length_rev. simpl. lia. }
    exists (graft (length below) (length h) kids).
    change (FCons 0 (graft (length below) (length h) kids) FNil)
      with (graft (S (length below)) (length h) (FCons 0 kids FNil)).
    split_and!.
    + eapply (repr_graft h _ p); [| | |exact Hr| | |exact Hlook].
      * by rewrite attach_children, decide_True.
      * by rewrite attach_new.
      * intros i Hip Hik. rewrite attach_children.
        rewrite decide_False by (by intros [? _]). by rewrite decide_False.
      * rewrite Hpre. apply NoDup_seq.
      * rewrite Hpre, elem_of_seq. lia.
    + rewrite preorder_graft, Hpre, attach_length, seq_S. done.
    + rewrite spine_graft by exact Hlen. rewrite Htake. done.
Qed.

(** The shape of every parsed store. *)
Lemma parse_snapshot_shape (text : string) :
  ∃ h kids, parse_snapshot text = Ok h
    ∧ repr h (FCons 0 kids FNil)
    ∧ preorder (FCons 0 kids FNil) = seq 0 (length h)
    ∧ length h ≤ S (String.length text).
Proof.
  destruct (parse_snapshot_inv shape text)
    as (h & stack & Hp & _ & (kids & Hr & Hpre & _) & Hlen).
  - intros st st'. apply shape_step.
  - apply shape_init.
  - by exists h, kids.
Qed.
End Shape.

(** ** The walks over a parsed store *)

Module WalkFacts.
Import Text Parser ParserFacts Shape Walk.

(** A walk's stack, seen as the trees still to be visited. *)
Definition tree_ok (h : heap) (t : nat * forest) : Prop :=
  children (h !!! t.1) = roots t.2 ∧ repr h t.2.

Fixpoint stack_ids (stk : list (nat * forest)) : list nat :=
  match stk with
  | [] => []
  | (n, k) :: rest => n :: preorder k ++ stack_ids rest
  end.

(** The nodes strictly below the roots of the stack. *)
Fixpoint stack_below (stk : list (nat * forest)) : list nat :=
  match stk with
  | [] => []
  | (n, k) :: rest => preorder k ++ stack_below rest
  end.

Lemma trees_roots (f : forest) : (trees f).*1 = roots f.
Proof. induction f as [|n kids _ sibs IH]; [done|]. simpl. f_equal. apply IH. Qed.

Lemma stack_ids_trees (f : forest) : stack_ids (trees f) = preorder f.
Proof. induction f as [|n kids _ sibs IH]; [done|]. simpl. by rewrite IH. Qed.

Lemma stack_ids_app (a b : list (nat * forest)) :
  stack_ids (a ++ b) = stack_ids a ++ stack_ids b.
Proof.
  induction a as [|[n k] a IH]; simpl; [done|].
  by rewrite IH, app_assoc.
Qed.

Lemma stack_below_app (a b : list (nat * forest)) :
  stack_below (a ++ b) = stack_below a ++ stack_below b.
Proof.
  induction a as [|[n k] a IH]; simpl; [done|].
  by rewrite IH, app_assoc.
Qed.

Lemma stack_below_ids (stk : list (nat * forest)) :
  stack_below stk ⊆ stack_ids stk.
Proof. induction stk as [|[n k] stk IH]; simpl; set_solver. Qed.

Lemma stack_below_trees (f : forest) : stack_below (trees f) ⊆ preorder f.
Proof. rewrite <-stack_ids_trees. apply stack_below_ids. Qed.

Lemma stack_ids_roots (stk : list (nat * forest)) : stk.*1 ⊆ stack_ids stk.
Proof. induction stk as [|[n k] stk IH]; simpl; set_solver. Qed.

Lemma trees_ok (h : heap) (f : forest) : repr h f → Forall (tree_ok h) (trees f).
Proof.
  induction f as [|n kids IHk sibs IHs]; simpl; [constructor|].
  intros (Hc & Hk & Hs). constructor; [done|auto].
Qed.

(** [iter_nodes] lists the stacked trees in pre-order, given one unit of
    fuel per node and one for the final test. *)
Lemma iter_loop_spec (h : heap) (fuel : nat) (stk : list (nat * forest))
    (out : list nat) :
  Forall (tree_ok h) stk → length (stack_ids stk) < fuel →
  iter_loop fuel h (stk.*1) out = Ok (out ++ stack_ids stk).
Proof.
  revert stk out. induction fuel as [|fuel IH]; intros stk out Hok Hfuel; [lia|].
  destruct stk as [|[n k] rest]; simpl.
  - by rewrite app_nil_r.
  - apply Forall_cons in Hok as [[Hc Hk] Hrest]. simpl in Hc, Hk, Hfuel.
    rewrite Hc, <-trees_roots, <-fmap_app.
    rewrite IH.
    + by rewrite stack_ids_app, stack_ids_trees, <-app_assoc.
    + apply Forall_app. split; [by apply trees_ok|done].
    + rewrite stack_ids_app, stack_ids_trees. lia.
Qed.

(** Every node of a represented forest is the root of a represented
    tree inside it. *)
Lemma subtree_at (h : heap) (f : forest) (n : nat) :
  repr h f → n ∈ preorder f →
  ∃ k, tree_ok h (n, k) ∧ preorder k ⊆ preorder f
    ∧ length (preorder k) < length (preorder f).
Proof.
  induction f as [|m kids IHk sibs IHs]; simpl; [by intros _ ?%elem_of_nil|].
  intros (Hc & Hk & Hs) Hin.
  apply elem_of_cons in Hin as [->|Hin].
  { exists kids. split_and!; [done|set_solver|rewrite length_app; lia]. }
  apply elem_of_app in Hin as [Hin|Hin].
  - destruct (IHk Hk Hin) as (k & Hok & Hsub & Hlen).
    exists k. split_and!; [done|set_solver|rewrite length_app; lia].
  - destruct (IHs Hs Hin) as (k & Hok & Hsub & Hlen).
    exists k. split_and!; [done|set_solver|rewrite length_app; lia].
Qed.

Lemma iter_nodes_tree (h : heap) (fuel n : nat) (k : forest) :
  tree_ok h (n, k) → S (length (preorder k)) < fuel →
  iter_nodes fuel h n = Ok (n :: preorder k).
Proof.
  intros Hok Hfuel. unfold iter_nodes.
  pose proof (iter_loop_spec h fuel [(n, k)] []) as Hrun.
  simpl in Hrun. rewrite app_nil_r in Hrun. apply Hrun; [by constructor|lia].
Qed.

Lemma stack_ids_reverse (stk : list (nat * forest)) :
  stack_ids (reverse stk) ≡ₚ stack_ids stk.
Proof.
  induction stk as [|[n k] stk IH]; [done|].
  rewrite reverse_cons, stack_ids_app, IH. simpl.
  rewrite app_nil_r. by rewrite (comm (++)).
Qed.

Lemma stack_below_reverse (stk : list (nat * forest)) :
  stack_below (reverse stk) ≡ₚ stack_below stk.
Proof.
  induction stk as [|[n k] stk IH]; [done|].
  rewrite reverse_cons, stack_below_app, IH. simpl.
  rewrite app_nil_r. by rewrite (comm (++)).
Qed.

Lemma roots_not_below (stk : list (nat * forest)) (r : nat) :
  NoDup (stack_ids stk) → r ∈ stk.*1 → r ∉ stack_below stk.
Proof.
  induction stk as [|[n k] stk IH]; simpl; [by intros _ ?%elem_of_nil|].
  intros Hnd Hr. apply NoDup_cons in Hnd as [Hn Hnd].
  apply NoDup_app in Hnd as (_ & Hdisj & Hnd).
  pose proof (stack_below_ids stk). pose proof (stack_ids_roots stk).
  apply elem_of_cons in Hr as [->|Hr]; [set_solver|].
  specialize (IH Hnd Hr). set_solver.
Qed.

(** The inner loop of [ancestors_with_context]. *)
Lemma push_children_spec (n : nat) (cs : list nat)
    (chains : gmap nat (list nat)) (stack a : list nat) :
  chains !! n = Some a → n ∉ cs →
  ∃ chains1, push_children n cs chains stack = Ok (chains1, reverse cs ++ stack)
    ∧ (∀ i, i ∈ cs → chains1 !! i = Some (a ++ [n]))
    ∧ (∀ i, i ∉ cs → chains1 !! i = chains !! i).
Proof.
  revert chains stack. induction cs as [|c cs IH]; intros chains stack Hn Hnin.
  { exists chains. split_and!; [done|by intros i ?%elem_of_nil|done]. }
  simpl. rewrite Hn.
  destruct (IH (<[c:=a ++ [n]]> chains) (c :: stack)) as (chains1 & Hrun & Hin & Hout).
  { rewrite lookup_insert_ne; [done|set_solver]. }
  { set_solver. }
  exists chains1. split_and!.
  - rewrite Hrun, reverse_cons, <-app_assoc. done.
  - intros i Hi. destruct (decide (i ∈ cs)) as [|Hni]; [by apply Hin|].
    rewrite Hout by done. assert (i = c) as -> by set_solver.
    by rewrite lookup_insert_eq.
  - intros i Hi. rewrite Hout by set_solver.
    rewrite lookup_insert_ne; [done|set_solver].
Qed.

(** The outer loop: every stacked tree gets its chains, and nothing
    outside the stacked trees is touched. *)
Lemma anc_loop_spec (h : heap) (fuel : nat) (stk : list (nat * forest))
    (chains : gmap nat (list nat)) :
  Forall (tree_ok h) stk → NoDup (stack_ids stk) →
  Forall (λ t, is_Some (chains !! t.1)) stk →
  length (stack_ids stk) < fuel →
  ∃ chains', anc_loop fuel h (stk.*1) chains = Ok chains'
    ∧ (∀ i, i ∉ stack_below stk → chains' !! i = chains !! i)
    ∧ (∀ i, i ∈ stack_ids stk → is_Some (chains' !! i))
    ∧ (∀ p c, p ∈ stack_ids stk → c ∈ children (h !!! p) →
         ∃ a, chains' !! p = Some a ∧ chains' !! c = Some (a ++ [p])).
Proof.
  revert stk chains.
  induction fuel as [|fuel IH]; intros stk chains Hok Hnd Hsome Hfuel; [lia|].
  destruct stk as [|[n k] rest].
  { exists chains. split_and!; [done|done|by intros i ?%elem_of_nil|].
    by intros p c ?%elem_of_nil. }
  apply Forall_cons in Hok as [[Hc Hk] Hrest].
  apply Forall_cons in Hsome as [[a Ha] Hsome]. simpl in Hc, Hk, Ha, Hfuel.
  pose proof Hnd as Hnd0. simpl in Hnd.
  apply NoDup_cons in Hnd as [Hn Hnd].
  destruct (push_children_spec n (roots k) chains (rest.*1) a Ha)
    as (chains1 & Hpush & Hin1 & Hout1).
  { pose proof (roots_preorder k). set_solver. }
  set (stk' := reverse (trees k) ++ rest).
  assert (Hids : stack_ids stk' ≡ₚ preorder k ++ stack_ids rest).
  { unfold stk'. by rewrite stack_ids_app, stack_ids_reverse, stack_ids_trees. }
  assert (Hbel : stack_below stk' ⊆ preorder k ++ stack_below rest).
  { unfold stk'. rewrite stack_below_app, stack_below_reverse.
    pose proof (stack_below_trees k). set_solver. }
  assert (Hroots : stk'.*1 = reverse (roots k) ++ rest.*1).
  { unfold stk'. by rewrite fmap_app, fmap_reverse, trees_roots. }
  destruct (IH stk' chains1) as (chains' & Hrun & Hframe & Hall & Hedge).
  { apply Forall_app. split; [|done]. apply Forall_reverse. by apply trees_ok. }
  { by rewrite Hids. }
  { apply Forall_app. split.
    - apply Forall_reverse, Forall_forall. intros [c kc] Hck. simpl.
      rewrite Hin1; [done|]. rewrite <-trees_roots.
      by apply (list_elem_of_fmap_2 fst) in Hck.
    - eapply Forall_impl; [exact Hsome|]. intros [r kr] [ar Hr]. simpl in *.
      destruct (decide (r ∈ roots k)); [by rewrite Hin1|by rewrite Hout1, Hr]. }
  { rewrite Hids. lia. }
  assert (Hn' : chains' !! n = Some a).
  { rewrite Hframe, Hout1; [done| |].
    - pose proof (roots_preorder k). set_solver.
    - pose proof (stack_below_ids rest). set_solver. }
  exists chains'. split_and!.
  - change (((n, k) :: rest).*1) with (n :: rest.*1). cbn [anc_loop].
    rewrite Hc, Hpush. cbn [mbind result_bind fst snd]. by rewrite <-Hroots.
  - intros i Hi. simpl in Hi. rewrite Hframe by set_solver.
    apply Hout1. pose proof (roots_preorder k). set_solver.
  - intros i Hi. simpl in Hi. apply elem_of_cons in Hi as [->|Hi]; [by rewrite Hn'|].
    apply Hall. by rewrite Hids.
  - intros p c Hp Hcp. simpl in Hp. apply elem_of_cons in Hp as [->|Hp].
    + exists a. split; [done|]. rewrite Hc in Hcp.
      rewrite Hframe; [by apply Hin1|].
      apply roots_not_below; [by rewrite Hids|].
      rewrite Hroots. rewrite elem_of_app, elem_of_reverse. by left.
    + apply Hedge; [|done]. by rewrite Hids.
Qed.

(** The two walks of [build_context_model] over a parsed store. *)
Lemma iter_nodes_root (h : heap) (kids : forest) (fuel : nat) :
  repr h (FCons 0 kids FNil) →
  preorder (FCons 0 kids FNil) = seq 0 (length h) →
  length h < fuel →
  iter_nodes fuel h ROOT = Ok (seq 0 (length h)).
Proof.
  intros (Hc & Hk & _) Hpre Hfuel. rewrite <-Hpre. simpl. rewrite app_nil_r.
  apply iter_nodes_tree; [done|].
  apply (f_equal length) in Hpre. simpl in Hpre.
  rewrite app_nil_r, length_seq in Hpre. lia.
Qed.

Lemma ancestors_spec (h : heap) (kids : forest) (fuel : nat) :
  repr h (FCons 0 kids FNil) →
  preorder (FCons 0 kids FNil) = seq 0 (length h) →
  length h < fuel →
  ∃ chains, ancestors_with_context fuel h ROOT = Ok chains
    ∧ chains !! ROOT = Some []
    ∧ (∀ n, n < length h → is_Some (chains !! n))
    ∧ (∀ p c, c ∈ children (h !!! p) →
         ∃ a, chains !! p = Some a ∧ chains !! c = Some (a ++ [p])).
Proof.
  intros (Hc & Hk & _) Hpre Hfuel. simpl in Hpre. rewrite app_nil_r in Hpre.
  assert (Hnd : NoDup (0 :: preorder kids)) by (rewrite Hpre; apply NoDup_seq).
  destruct (anc_loop_spec h fuel [(0, kids)] {[ 0 := [] ]})
    as (chains & Hrun & Hframe & Hall & Hedge).
  { by constructor. }
  { simpl. by rewrite app_nil_r. }
  { constructor; [|done]. simpl. by rewrite lookup_singleton_eq. }
  { apply (f_equal length) in Hpre. rewrite length_seq in Hpre.
    simpl in *. rewrite app_nil_r. lia. }
  simpl in Hframe, Hall, Hedge. rewrite app_nil_r in Hframe, Hall, Hedge.
  exists chains. split_and!.
  - exact Hrun.
  - unfold ROOT. rewrite Hframe; [by rewrite lookup_singleton_eq|].
    by apply NoDup_cons in Hnd as [? _].
  - intros n Hn. apply Hall. rewrite Hpre, elem_of_seq. lia.
  - intros p c Hcp. apply Hedge; [|done].
    rewrite Hpre, elem_of_seq. apply child_parent_bound in Hcp. lia.
Qed.
End WalkFacts.

(** ** The context model *)

Module ContextFacts.
Import Text Parser ParserFacts Shape Walk WalkFacts Context.

(** *** What is read off a node and off an action *)

(** The fields an action copies from its node. *)
Definition core : Type := string * string * string * bool * option string.

Definition node_core (h : heap) (n : nat) : core :=
  (role (h !!! n), default EmptyString (name (h !!! n)),
   default EmptyString (ref (h !!! n)), disabled (h !!! n),
   attrs_url (h !!! n)).

Definition action_core (a : Action) : core :=
  (a_role a, a_name a, a_ref a, a_disabled a, a_url a).

(** The ancestor chain of a node, and the section and container that the
    loop body computes from it. *)
Definition ancs_of (chains : gmap nat (list nat)) (n : nat) : list nat :=
  default [] (chains !! n).

Definition sid_of (h : heap) (chains : gmap nat (list nat)) (n : nat) : string :=
  section_id_for (section_landmark_for h (ancs_of chains n))
                 (heading_path_for h (ancs_of chains n)).

Definition container_of (h : heap) (chains : gmap nat (list nat)) (n : nat) : nat :=
  item_container_for h (ancs_of chains n) ROOT.

Definition key_of (h : heap) (chains : gmap nat (list nat)) (n : nat)
    : string * nat :=
  (sid_of h chains n, container_of h chains n).

(** All the actions of a store or of a finished model, as cores. *)
Definition store_cores (store : list Item) : list core :=
  store ≫= λ it, action_core <$> actions it.

Definition model_cores (model : list (Section Item)) : list core :=
  model ≫= λ s, store_cores (items s).

(** *** The chains only hold nodes of the store *)

Definition chains_valid (h : heap) (chains : gmap nat (list nat)) : Prop :=
  ∀ i a, chains !! i = Some a → Forall (λ x, x < length h) a.

Lemma push_children_valid (h : heap) (n : nat) (cs : list nat)
    (chains chains' : gmap nat (list nat)) (stack stack' : list nat) :
  n < length h → Forall (λ x, x < length h) cs →
  Forall (λ x, x < length h) stack → chains_valid h chains →
  push_children n cs chains stack = Ok (chains', stack') →
  Forall (λ x, x < length h) stack' ∧ chains_valid h chains'.
Proof.
  intros Hn. revert chains stack.
  induction cs as [|c cs IH]; intros chains stack Hcs Hst Hv; simpl.
  { by intros [= <- <-]. }
  destruct (chains !! n) as [a|] eqn:Ha; [|done].
  apply Forall_cons in Hcs as [Hc Hcs].
  apply IH; [done|by constructor|].
  intros i b. rewrite lookup_insert. case_decide as Hi; [|by apply Hv].
  intros [= <-]. apply Forall_app. split; [by eapply Hv|by constructor].
Qed.

Lemma anc_loop_valid (h : heap) (fuel : nat) (stack : list nat)
    (chains chains' : gmap nat (list nat)) :
  (∀ p c, c ∈ children (h !!! p) → c < length h) →
  Forall (λ x, x < length h) stack → chains_valid h chains →
  anc_loop fuel h stack chains = Ok chains' → chains_valid h chains'.
Proof.
  intros Hch. revert stack chains.
  induction fuel as [|fuel IH]; intros stack chains Hst Hv; simpl; [done|].
  destruct stack as [|n rest]; [by intros [= <-]|].
  apply Forall_cons in Hst as [Hn Hrest].
  destruct (push_children n (children (h !!! n)) chains rest) as [[c1 s1]|] eqn:Hp;
    [|done].
  simpl. apply (push_children_valid h) in Hp as [Hs1 Hv1]; [by apply IH|done| |done..].
  apply Forall_forall. intros c Hc. by eapply Hch.
Qed.

Lemma ancestors_valid (h : heap) (fuel : nat) (chains : gmap nat (list nat)) :
  0 < length h → (∀ p c, c ∈ children (h !!! p) → c < length h) →
  ancestors_with_context fuel h ROOT = Ok chains → chains_valid h chains.
Proof.
  intros Hlen Hch. apply anc_loop_valid; [done|by constructor|].
  intros i a [<- <-]%lookup_singleton_Some. constructor.
Qed.

(** *** The section dictionary *)

Lemma has_section_spec (sid : string) (secs : list (Section nat)) :
  has_section sid secs = true ↔ sid ∈ section_id <$> secs.
Proof.
  unfold has_section. induction secs as [|s secs IH]; simpl.
  - by rewrite elem_of_nil.
  - rewrite orb_true_iff, IH, elem_of_cons, String.eqb_eq. naive_solver.
Qed.

(** Appending an item reference to an existing section changes that
    section's list only. *)
Lemma section_append_spec (sid : string) (r : nat) (secs : list (Section nat)) :
  sid ∈ section_id <$> secs →
  ∃ secs', section_append sid r secs = Ok secs'
    ∧ section_id <$> secs' = section_id <$> secs
    ∧ concat (items <$> secs') ≡ₚ r :: concat (items <$> secs)
    ∧ (∀ s' r', s' ∈ secs' → r' ∈ items s' →
         (r' = r ∧ section_id s' = sid)
         ∨ (∃ s, s ∈ secs ∧ section_id s = section_id s' ∧ r' ∈ items s)).
Proof.
  induction secs as [|s secs IH]; simpl; [by intros ?%elem_of_nil|].
  intros Hin. destruct (String.eqb_spec (section_id s) sid) as [Heq|Hne].
  - eexists. split_and!; [done|done| |].
    + simpl. rewrite <-app_assoc. simpl.
      by rewrite <-Permutation_middle.
    + intros s' r' [->|Hs']%elem_of_cons Hr'; simpl in *.
      * apply elem_of_app in Hr' as [Hr' | ->%list_elem_of_singleton]; [|by left].
        right. exists s. split_and!; [by left|done|done].
      * right. exists s'. split_and!; [by right|done|done].
  - apply elem_of_cons in Hin as [Hin|Hin]; [done|].
    destruct (IH Hin) as (secs' & Hrun & Hids & Hperm & Hwhere). rewrite Hrun.
    exists (s :: secs'). split_and!; [done| | |].
    + by rewrite !fmap_cons, Hids.
    + rewrite !fmap_cons. cbn [concat]. rewrite Hperm.
      by rewrite Permutation_middle.
    + intros s' r' [->|Hs']%elem_of_cons Hr'.
      * right. exists s. split_and!; [by left|done|done].
      * destruct (Hwhere s' r' Hs' Hr') as [?|(s0 & ? & ? & ?)]; [by left|].
        right. exists s0. split_and!; [by right|done|done].
Qed.

(** *** Reading the finished model *)

Lemma store_cores_lookup (store : list Item) (rs : list nat) :
  store_cores ((λ r, store !!! r) <$> rs)
    = rs ≫= λ r, action_core <$> actions (store !!! r).
Proof.
  unfold store_cores. induction rs as [|r rs IH]; [done|].
  by rewrite fmap_cons, !bind_cons, IH.
Qed.

Lemma bind_seq_lookup {A B} `{!Inhabited A} (g : A → list B) (pre l : list A) :
  seq (length pre) (length l) ≫= (λ r, g ((pre ++ l) !!! r)) = l ≫= g.
Proof.
  revert pre. induction l as [|x l IH]; intros pre; [done|].
  cbn [length seq]. rewrite !bind_cons. f_equal.
  - by rewrite list_lookup_total_middle.
  - specialize (IH (pre ++ [x])). rewrite length_app, Nat.add_1_r in IH.
    by rewrite <-app_assoc in IH.
Qed.

Lemma store_cores_seq (store : list Item) :
  seq 0 (length store) ≫= (λ r, action_core <$> actions (store !!! r))
    = store_cores store.
Proof. apply (bind_seq_lookup (λ it, action_core <$> actions it) []). Qed.

Lemma model_cores_resolve (st : bstate) :
  model_cores (resolve st)
    = concat (items <$> sections st)
        ≫= λ r, action_core <$> actions (item_store st !!! r).
Proof.
  unfold model_cores, resolve.
  induction (sections st) as [|s secs IH]; [done|].
  rewrite !fmap_cons, bind_cons, IH. cbn [concat items].
  rewrite bind_app. f_equal. apply store_cores_lookup.
Qed.

Lemma elem_of_concat_2 {A} (x : A) (l : list A) (ls : list (list A)) :
  l ∈ ls → x ∈ l → x ∈ concat ls.
Proof.
  intros Hl Hx. apply list_elem_of_In, in_concat. exists l.
  split; by apply list_elem_of_In.
Qed.

Lemma filter_none {A} (P : A → Prop) `{!∀ x, Decision (P x)} (l : list A) :
  Forall (λ x, ¬ P x) l → filter P l = [].
Proof.
  induction 1 as [|x l Hx _ IH]; [done|]. by rewrite filter_cons_False.
Qed.

Lemma store_cores_alter (store : list Item) (r : nat) (a : Action) :
  r < length store →
  store_cores (alter (add_action a) r store) ≡ₚ action_core a :: store_cores store.
Proof.
  unfold store_cores. revert r.
  induction store as [|it store IH]; intros r Hr; simpl in Hr; [lia|].
  destruct r as [|r].
  - cbn [alter list_alter]. rewrite !bind_cons. cbn [add_action actions].
    rewrite fmap_app. cbn [fmap list_fmap]. rewrite <-app_assoc. cbn [app].
    by rewrite <-Permutation_middle.
  - cbn [alter list_alter]. rewrite !bind_cons.
    change (list_alter (add_action a) r store) with (alter (add_action a) r store).
    rewrite IH by lia. by rewrite <-Permutation_middle.
Qed.

Lemma store_cores_snoc (store : list Item) (it : Item) :
  store_cores (store ++ [it]) = store_cores store ++ (action_core <$> actions it).
Proof. unfold store_cores. by rewrite bind_app, bind_singleton. Qed.

(** *** The invariant of the loop of [build_context_model] *)

Section Loop.
Variables (h : heap) (chains : gmap nat (list nat)).

(** [L] is the part of the node list already visited; [keys] lists the
    key under which each item of the store was created. *)
Record binv (L : list nat) (st : bstate) (keys : list (string * nat))
    : Prop := {
  bi_len : length keys = length (item_store st);
  bi_map : ∀ k r, item_map st !! k = Some r ↔ keys !! r = Some k;
  bi_cover : ∀ n, n ∈ L → eligible h n →
      is_Some (item_map st !! key_of h chains n);
  bi_secs_nodup : NoDup (section_id <$> sections st);
  bi_secs_items :
    concat (items <$> sections st) ≡ₚ seq 0 (length (item_store st));
  bi_secs_key : ∀ s r k, s ∈ sections st → r ∈ items s →
      keys !! r = Some k → k.1 = section_id s;
  bi_item : ∀ r k, keys !! r = Some k →
      container_role (item_store st !!! r) = role (h !!! k.2)
      ∧ action_core <$> actions (item_store st !!! r)
        = node_core h <$>
            filter (λ n, eligible h n ∧ key_of h chains n = k) L;
  bi_total :
    store_cores (item_store st)
      ≡ₚ node_core h <$> filter (λ n, eligible h n) L;
}.

Lemma binv_init : binv [] (mkB [] ∅ []) [].
Proof.
  split; cbn [item_store item_map sections].
  - done.
  - intros k r. by rewrite lookup_empty, lookup_nil.
  - by intros n ?%elem_of_nil.
  - constructor.
  - done.
  - by intros s r k ?%elem_of_nil.
  - intros r k. by rewrite lookup_nil.
  - done.
Qed.

(** A node that fails one of the two tests changes nothing. *)
Lemma binv_skip (L : list nat) (st : bstate) (keys : list (string * nat))
    (n : nat) :
  ¬ eligible h n → binv L st keys → binv (L ++ [n]) st keys.
Proof.
  intros Hn [Hlen Hmap Hcov Hnd Hit Hkey Hitem Htot].
  split; try done.
  - intros m [Hm| ->%list_elem_of_singleton]%elem_of_app He; [by apply Hcov|done].
  - intros r k Hk. destruct (Hitem r k Hk) as [Hc Ha]. split; [done|].
    rewrite Ha, filter_app, (filter_cons_False _ n) by tauto.
    by rewrite filter_nil, app_nil_r.
  - rewrite filter_app, (filter_cons_False _ n) by done.
    by rewrite filter_nil, app_nil_r.
Qed.

(** [if section_id not in sections: sections[section_id] = ...] *)
Lemma binv_section (L : list nat) (st : bstate) (keys : list (string * nat))
    (sid lm : string) (hp : list string) :
  binv L st keys →
  let secs1 := if has_section sid (sections st) then sections st
               else sections st ++ [mkSection sid lm hp []] in
  binv L (mkB secs1 (item_map st) (item_store st)) keys
  ∧ sid ∈ section_id <$> secs1.
Proof.
  intros [Hlen Hmap Hcov Hnd Hit Hkey Hitem Htot].
  destruct (has_section sid (sections st)) eqn:Hhas; simpl.
  { apply has_section_spec in Hhas. by split. }
  assert (Hnew : sid ∉ section_id <$> sections st).
  { rewrite <-has_section_spec, Hhas. done. }
  split; [split; simpl; try done|].
  - rewrite fmap_app. apply NoDup_app. split_and!; [done| |apply NoDup_singleton].
    intros x Hx ->%list_elem_of_singleton. done.
  - rewrite fmap_app, concat_app. simpl. by rewrite app_nil_r.
  - intros s r k [Hs| ->%list_elem_of_singleton]%elem_of_app Hr; [by eapply Hkey|].
    simpl in Hr. by apply elem_of_nil in Hr.
  - rewrite fmap_app. set_solver.
Qed.

(** A first visit under key [k] creates the item, registers it in
    [item_map] and in its section. *)
Lemma binv_new_item (L : list nat) (st : bstate) (keys : list (string * nat))
    (k : string * nat) (iid ikey : string) :
  binv L st keys → item_map st !! k = None →
  k.1 ∈ section_id <$> sections st →
  let r := length (item_store st) in
  ∃ secs2, section_append k.1 r (sections st) = Ok secs2
    ∧ binv L (mkB secs2 (<[k := r]> (item_map st))
                  (item_store st ++ [mkItem iid ikey (role (h !!! k.2)) []]))
           (keys ++ [k]).
Proof.
  intros [Hlen Hmap Hcov Hnd Hit Hkey Hitem Htot] Hnone Hsec r.
  destruct (section_append_spec k.1 r (sections st) Hsec)
    as (secs2 & Hrun & Hids & Hperm & Hwhere).
  assert (Hfresh : k ∉ keys).
  { intros [i Hi]%list_elem_of_lookup_1. apply Hmap in Hi. congruence. }
  exists secs2. split; [done|]. split; cbn [item_store item_map sections].
  - rewrite !length_app. simpl. lia.
  - intros k' r'. rewrite lookup_insert. case_decide as Hk; subst.
    + split.
      * intros [= <-]. unfold r. rewrite <-Hlen. apply list_lookup_middle. done.
      * intros Hr'. f_equal. apply lookup_snoc_Some in Hr' as [[_ Hr']|[-> _]].
        -- exfalso. apply Hfresh. by eapply list_elem_of_lookup_2.
        -- by rewrite Hlen.
    + rewrite Hmap, lookup_snoc_Some. split.
      * intros Hk'. left. split; [by eapply lookup_lt_Some|done].
      * intros [[_ Hk']|[_ Hk']]; [done|congruence].
  - intros n Hn He. destruct (Hcov n Hn He) as [x Hx].
    rewrite lookup_insert. case_decide; [done|by rewrite Hx].
  - by rewrite Hids.
  - rewrite Hperm, Hit, length_app. simpl. rewrite Nat.add_1_r, seq_S. simpl.
    by rewrite <-Permutation_cons_append.
  - intros s' r' k' Hs' Hr' Hk'.
    destruct (Hwhere s' r' Hs' Hr') as [[-> Hsid]|(s0 & Hs0 & Hsid & Hr0)].
    + unfold r in Hk'. rewrite <-Hlen in Hk'.
      rewrite list_lookup_middle in Hk' by done. injection Hk' as <-. done.
    + rewrite <-Hsid. apply (Hkey s0 r'); [done..|].
      apply lookup_snoc_Some in Hk' as [[_ Hk']|[-> _]]; [done|].
      exfalso. assert (Hin : length keys ∈ seq 0 (length (item_store st))).
      { rewrite <-Hit. apply (elem_of_concat_2 _ (items s0)); [|done].
        by apply list_elem_of_fmap_2. }
      apply elem_of_seq in Hin. lia.
  - intros r' k' Hk'. apply lookup_snoc_Some in Hk' as [[Hlt Hk']|[-> <-]].
    + rewrite lookup_total_app_l by lia. by apply Hitem.
    + rewrite Hlen, list_lookup_total_middle by done. simpl. split; [done|].
      rewrite filter_none; [done|].
      apply Forall_forall. intros n Hn [He Hkn].
      destruct (Hcov n Hn He) as [x Hx]. congruence.
  - by rewrite store_cores_snoc, app_nil_r.
Qed.

(** The action of an eligible node is appended to the item registered
    under the node's key. *)
Lemma binv_add_action (L : list nat) (st : bstate)
    (keys : list (string * nat)) (n r : nat) (a : Action) :
  binv L st keys → eligible h n →
  item_map st !! key_of h chains n = Some r →
  action_core a = node_core h n →
  binv (L ++ [n])
       (mkB (sections st) (item_map st)
            (alter (add_action a) r (item_store st)))
       keys.
Proof.
  intros [Hlen Hmap Hcov Hnd Hit Hkey Hitem Htot] He Hr Ha.
  assert (Hkr : keys !! r = Some (key_of h chains n)) by by apply Hmap.
  assert (Hrl : r < length (item_store st)).
  { rewrite <-Hlen. by eapply lookup_lt_Some. }
  split; cbn [item_store item_map sections]; rewrite ?length_alter; try done.
  - intros m [Hm| ->%list_elem_of_singleton]%elem_of_app Hem; [by apply Hcov|].
    by rewrite Hr.
  - intros r' k' Hk'. destruct (Hitem r' k' Hk') as [Hc Hacts].
    rewrite list_lookup_total_alter. case_decide as Hd.
    + destruct Hd as [<- _]. assert (k' = key_of h chains n) as -> by congruence.
      cbn [add_action container_role actions]. split; [done|].
      rewrite fmap_app, Hacts, filter_app, (filter_cons_True _ n) by done.
      rewrite filter_nil, fmap_app. simpl. by rewrite Ha.
    + split; [done|]. rewrite Hacts, filter_app.
      rewrite (filter_cons_False _ n), filter_nil, app_nil_r; [done|].
      intros [_ Hkn]. apply Hd. split; [|done].
      apply Hmap in Hk'. rewrite <-Hkn in Hk'. congruence.
  - rewrite store_cores_alter by done.
    rewrite filter_app, (filter_cons_True _ n), filter_nil, fmap_app by done.
    simpl. rewrite Htot, Ha. by rewrite <-Permutation_cons_append.
Qed.
End Loop.

(** A node of a represented forest is one of its roots or the child of
    one of its nodes. *)
Lemma parent_exists (h : heap) (f : forest) (n : nat) :
  repr h f → n ∈ preorder f →
  n ∈ roots f ∨ ∃ p, p ∈ preorder f ∧ n ∈ children (h !!! p).
Proof.
  induction f as [|m kids IHk sibs IHs]; simpl; [by intros _ ?%elem_of_nil|].
  intros (Hc & Hk & Hs) Hin.
  apply elem_of_cons in Hin as [->|Hin]; [left; by left|].
  apply elem_of_app in Hin as [Hin|Hin].
  - right. destruct (IHk Hk Hin) as [Hr|(p & Hp & Hnp)].
    + exists m. split; [by left|by rewrite Hc].
    + exists p. split; [set_solver|done].
  - destruct (IHs Hs Hin) as [Hr|(p & Hp & Hnp)].
    + left. by right.
    + right. exists p. split; [set_solver|done].
Qed.

Lemma NoDup_fmap_eq {A B} (f : A → B) (l : list A) (x y : A) :
  NoDup (f <$> l) → x ∈ l → y ∈ l → f x = f y → x = y.
Proof.
  induction l as [|a l IH]; [by intros _ ?%elem_of_nil|].
  rewrite fmap_cons, NoDup_cons.
  intros [Ha Hnd] [->|Hx]%elem_of_cons [->|Hy]%elem_of_cons Hxy; [done| | |by apply IH].
  - exfalso. apply Ha. rewrite Hxy. by apply list_elem_of_fmap_2.
  - exfalso. apply Ha. rewrite <-Hxy. by apply list_elem_of_fmap_2.
Qed.

(** What [find] over the reversed chain returns: the last element that
    passes the test. *)
Lemma find_rev_Some {A} (f : A → bool) (l : list A) (c : A) :
  List.find f (rev l) = Some c →
  ∃ pre post, l = pre ++ c :: post ∧ f c = true
    ∧ Forall (λ a, f a = false) post.
Proof.
  induction l as [|x l IH] using rev_ind; [done|].
  rewrite rev_app_distr. simpl. destruct (f x) eqn:Hx.
  - intros [= <-]. exists l, []. split_and!; [done|done|constructor].
  - intros (pre & post & -> & Hc & Hpost)%IH.
    exists pre, (post ++ [x]). split_and!; [by rewrite <-app_assoc|done|].
    apply Forall_app. split; [done|by constructor].
Qed.

Lemma find_rev_None {A} (f : A → bool) (l : list A) :
  List.find f (rev l) = None → Forall (λ a, f a = false) l.
Proof.
  induction l as [|x l IH] using rev_ind; [constructor|].
  rewrite rev_app_distr. simpl. destruct (f x) eqn:Hx; [done|].
  intros Hn. apply Forall_app. split; [by apply IH|by constructor].
Qed.

(** *** The loop over a parsed store *)

Lemma find_elem {A} (f : A → bool) (l : list A) (x : A) :
  List.find f l = Some x → x ∈ l ∧ f x = true.
Proof. intros [Hin Hf]%find_some. split; [by apply list_elem_of_In|done]. Qed.

Lemma item_container_valid (h : heap) (ancs : list nat) :
  0 < length h → Forall (λ x, x < length h) ancs →
  item_container_for h ancs ROOT < length h.
Proof.
  intros Hlen Hancs. rewrite Forall_forall in Hancs. unfold item_container_for.
  destruct (nearest_item_container h ancs) as [c|] eqn:Hc.
  { apply find_elem in Hc as [Hc _]. apply Hancs.
    by apply list_elem_of_In, in_rev, list_elem_of_In in Hc. }
  destruct (nearest_landmark h ancs) as [c|] eqn:Hl.
  { apply find_elem in Hl as [Hl _]. apply Hancs.
    by apply list_elem_of_In, in_rev, list_elem_of_In in Hl. }
  destruct (last ancs) as [p|] eqn:Hp; [|done].
  apply Hancs. by eapply last_Some_elem_of.
Qed.

Section Built.
Variables (h : heap) (kids : forest) (chains : gmap nat (list nat))
          (fuel : nat).
Hypothesis Hrepr : repr h (FCons 0 kids FNil).
Hypothesis Hpre : preorder (FCons 0 kids FNil) = seq 0 (length h).
Hypothesis Hfuel : length h < fuel.
Hypothesis Hall : ∀ n, n < length h → is_Some (chains !! n).
Hypothesis Hvalid : chains_valid h chains.

Lemma store_nonempty : 0 < length h.
Proof. destruct h; [done|simpl; lia]. Qed.

(** [first_salient_text] returns on every node of the store. *)
Lemma first_salient_total (c : nat) :
  c < length h → ∃ key, first_salient_text fuel h c = Ok key.
Proof.
  intros Hc.
  destruct (subtree_at h (FCons 0 kids FNil) c Hrepr) as (k & Hok & _ & Hlen).
  { rewrite Hpre, elem_of_seq. lia. }
  rewrite Hpre, length_seq in Hlen.
  unfold first_salient_text. rewrite (iter_nodes_tree h fuel c k) by (done || lia).
  by eexists.
Qed.

Lemma visit_inv (L : list nat) (st : bstate) (keys : list (string * nat))
    (n : nat) :
  binv h chains L st keys → n < length h →
  ∃ st' keys', visit fuel h chains ROOT st n = Ok st'
    ∧ binv h chains (L ++ [n]) st' keys'.
Proof.
  intros Hinv Hn. unfold visit.
  destruct (role_in INTERACTIVE_ROLES (role (h !!! n))) eqn:Hr; cbn [negb].
  2:{ exists st, keys. split; [done|]. apply binv_skip; [|done].
      unfold eligible. rewrite Hr. simpl. tauto. }
  destruct (truthy (ref (h !!! n))) eqn:Ht; cbn [negb].
  2:{ exists st, keys. split; [done|]. apply binv_skip; [|done].
      unfold eligible. rewrite Hr, Ht. simpl. tauto. }
  assert (He : eligible h n) by (unfold eligible; rewrite Hr, Ht; exact I).
  destruct (Hall n Hn) as [ancs Hancs]. rewrite Hancs.
  set (lm := section_landmark_for h ancs).
  set (hp := heading_path_for h ancs).
  set (sid := section_id_for lm hp).
  set (c := item_container_for h ancs ROOT).
  assert (Hkey : key_of h chains n = (sid, c)).
  { unfold key_of, sid_of, container_of, ancs_of. by rewrite Hancs. }
  destruct (first_salient_total c) as [key Hsal].
  { apply item_container_valid; [apply store_nonempty|by eapply Hvalid]. }
  rewrite Hsal. cbn [mbind result_bind].
  destruct (binv_section h chains L st keys sid lm hp Hinv) as [Hinv1 Hsid].
  set (secs1 := if has_section sid (sections st) then sections st
                else sections st ++ [mkSection sid lm hp []]) in *.
  destruct (item_map st !! (sid, c)) as [r|] eqn:Hlook.
  - cbn [mbind result_bind item_map item_store sections]. rewrite Hlook.
    eexists _, keys. split; [done|].
    apply (binv_add_action h chains L (mkB secs1 (item_map st) (item_store st)));
      [done|done|by rewrite Hkey|done].
  - destruct (binv_new_item h chains L (mkB secs1 (item_map st) (item_store st))
                keys (sid, c)
                (sid +:+ "/i" +:+ pretty (size (item_map st))) key Hinv1 Hlook Hsid)
      as (secs2 & Hrun & Hinv2).
    cbn [fst snd item_map item_store sections] in Hrun, Hinv2.
    rewrite Hrun. cbn [mbind result_bind item_map item_store sections].
    rewrite lookup_insert_eq.
    eexists _, (keys ++ [(sid, c)]). split; [done|].
    apply (binv_add_action h chains L _ _ n _ _ Hinv2);
      [done|cbn [item_map]; by rewrite Hkey, lookup_insert_eq|done].
Qed.

Lemma visit_all_inv (ns L : list nat) (st : bstate)
    (keys : list (string * nat)) :
  binv h chains L st keys → Forall (λ n, n < length h) ns →
  ∃ st' keys', visit_all fuel h chains ROOT st ns = Ok st'
    ∧ binv h chains (L ++ ns) st' keys'.
Proof.
  revert L st keys. induction ns as [|n ns IH]; intros L st keys Hinv Hns.
  { exists st, keys. by rewrite app_nil_r. }
  apply Forall_cons in Hns as [Hn Hns].
  destruct (visit_inv L st keys n Hinv Hn) as (st1 & keys1 & Hv & Hinv1).
  destruct (IH (L ++ [n]) st1 keys1 Hinv1 Hns) as (st' & keys' & Hrun & Hinv').
  exists st', keys'. cbn [visit_all]. rewrite Hv. cbn [mbind result_bind].
  split; [done|]. by rewrite <-app_assoc in Hinv'.
Qed.
End Built.

(** Everything [build_context_model] computes on the way, for any text
    and enough fuel for the walks. *)
Lemma build_state_spec (text : string) (fuel : nat) :
  String.length text + 2 ≤ fuel →
  ∃ h kids chains st keys,
    parse_snapshot text = Ok h
    ∧ role (h !!! ROOT) = "root"
    ∧ repr h (FCons 0 kids FNil)
    ∧ preorder (FCons 0 kids FNil) = seq 0 (length h)
    ∧ iter_nodes fuel h ROOT = Ok (seq 0 (length h))
    ∧ ancestors_with_context fuel h ROOT = Ok chains
    ∧ chains !! ROOT = Some []
    ∧ (∀ p c, c ∈ children (h !!! p) →
         ∃ a, chains !! p = Some a ∧ chains !! c = Some (a ++ [p]))
    ∧ build_state fuel text = Ok (h, st)
    ∧ binv h chains (seq 0 (length h)) st keys.
Proof.
  intros Hfuel.
  destruct (parse_snapshot_inv shape text)
    as (h & stack & Hp & Hinv & (kids & Hr & Hpre & _) & Hlen).
  { intros st st'. apply shape_step. }
  { apply shape_init. }
  cbn [fst] in Hr, Hpre.
  assert (Hf : length h < fuel) by lia.
  destruct (ancestors_spec h kids fuel Hr Hpre Hf)
    as (chains & Hanc & Hroot & Hall & Hedge).
  assert (Hvalid : chains_valid h chains).
  { eapply ancestors_valid; [|exact (pi_children _ _ Hinv)|exact Hanc].
    apply (pi_root _ _ Hinv). }
  destruct (visit_all_inv h kids chains fuel Hr Hpre Hf Hall Hvalid
              (seq 0 (length h)) [] (mkB [] ∅ []) [] (binv_init h chains))
    as (st & keys & Hrun & Hb).
  { apply Forall_forall. intros n Hn%elem_of_seq. lia. }
  exists h, kids, chains, st, keys. split_and!; try done.
  { apply (pi_root_role _ _ Hinv). }
  { by apply (iter_nodes_root h kids). }
  unfold build_state. rewrite Hp. cbn [mbind result_bind]. rewrite Hanc.
  cbn [mbind result_bind]. rewrite (iter_nodes_root h kids fuel Hr Hpre Hf).
  cbn [mbind result_bind]. rewrite Hrun. done.
Qed.
End ContextFacts.

(** * Sample snapshots *)

Module Samples.
Import Text.

(** The lines of a snapshot, joined by LF. *)
Definition snapshot (lines : list string) : string :=
  join (String LF EmptyString) lines.

End Samples.

(** * Properties of the parser *)

Module ParserClaims.
Import Text Parser ParserFacts Samples.

(** The reading of "siblings share the same indentation". *)
Definition siblings_share_indent (h : heap) : Prop :=
  ∀ p pn c1 c2 n1 n2,
    h !! p = Some pn → c1 ∈ children pn → c2 ∈ children pn →
    h !! c1 = Some n1 → h !! c2 = Some n2 → indent n1 = indent n2.

(** A [main] whose first child is indented by four and whose second child
    is indented by two. *)
Definition uneven_text : string :=
  snapshot ["- main"; "    - button"; "  - link"].

(** C8. In the tree returned by [parse_snapshot], for every text, the
    root has indentation -1 and every child is strictly more indented than
    its parent. *)
Theorem parse_snapshot_child_indent (text : string) :
  ∃ h root,
    parse_snapshot text = Ok h ∧ h !! ROOT = Some root
    ∧ indent root = (-1)%Z
    ∧ ∀ p pn c, h !! p = Some pn → c ∈ children pn →
        ∃ cn, h !! c = Some cn ∧ (indent pn < indent cn)%Z.
Proof.
  destruct (parse_snapshot_inv (λ _, True) text) as (h & stack & Hp & Hinv & _ & _);
    [done..|].
  destruct (pi_root _ _ Hinv) as [Hlen Hroot].
  exists h, (h !!! ROOT). split_and!; [done| |done|].
  { by apply list_lookup_lookup_total_lt. }
  intros p pn c Hpn Hc. apply list_lookup_total_correct in Hpn as <-.
  exists (h !!! c). split.
  - apply list_lookup_lookup_total_lt. by eapply pi_children.
  - by apply (pi_edges _ _ Hinv).
Qed.

(** C9, as stated, fails: the two children of [main] in [uneven_text]
    have indentations 4 and 2. *)
Lemma siblings_indent_counterexample :
  ∃ h, parse_snapshot uneven_text = Ok h ∧ ¬ siblings_share_indent h.
Proof.
  eexists. split; [vm_compute; reflexivity|].
  match goal with |- ¬ siblings_share_indent ?l => set (h := l) end.
  intros Hs.
  assert (Hd : indent (h !!! 2) = indent (h !!! 3)).
  { apply (Hs 1 (h !!! 1) 2 3); [done| | |done|done]; cbn; set_solver. }
  discriminate Hd.
Qed.

(** C9, amended. In the tree returned by [parse_snapshot], for every
    text, the children of a node are more indented than the node, and a
    later child is never more indented than an earlier one. *)
Theorem parse_snapshot_sibling_indent (text : string) :
  ∃ h,
    parse_snapshot text = Ok h
    ∧ ∀ p pn i j ci cj, h !! p = Some pn →
        children pn !! i = Some ci → children pn !! j = Some cj → i ≤ j →
        ∃ ni nj, h !! ci = Some ni ∧ h !! cj = Some nj
          ∧ (indent pn < indent nj ≤ indent ni)%Z.
Proof.
  destruct (parse_snapshot_inv (λ _, True) text) as (h & stack & Hp & Hinv & _ & _);
    [done..|].
  exists h. split; [done|].
  intros p pn i j ci cj Hpn Hi Hj Hij.
  apply list_lookup_total_correct in Hpn as <-.
  exists (h !!! ci), (h !!! cj).
  pose proof (list_elem_of_lookup_2 _ _ _ Hi) as Hci.
  pose proof (list_elem_of_lookup_2 _ _ _ Hj) as Hcj.
  split_and!.
  - apply list_lookup_lookup_total_lt. by eapply pi_children.
  - apply list_lookup_lookup_total_lt. by eapply pi_children.
  - by apply (pi_edges _ _ Hinv).
  - by eapply (pi_sibs _ _ Hinv).
Qed.

End ParserClaims.

(** * Properties of the context model *)

Module ContextClaims.
Import Text Parser ParserFacts Shape Walk WalkFacts Context ContextFacts.
Import Samples.

(** [c] is the nearest element of the chain whose role is in [roles]:
    nothing after it in the chain has such a role. *)
Definition nearest_with (roles : list string) (h : heap) (ancs : list nat)
    (c : nat) : Prop :=
  ∃ pre post, ancs = pre ++ c :: post
    ∧ role_in roles (role (h !!! c))
    ∧ Forall (λ a, ¬ role_in roles (role (h !!! a))) post.

Definition none_with (roles : list string) (h : heap) (ancs : list nat)
    : Prop :=
  Forall (λ a, ¬ role_in roles (role (h !!! a))) ancs.

(** The priority chain as the claim words it: nearest repeater, else
    nearest landmark, else the top-level child of the root (the second
    element of a chain that starts at the root), else the root. *)
Definition claimed_item_container (h : heap) (ancs : list nat) (root : nat)
    : nat :=
  match nearest_item_container h ancs with
  | Some c => c
  | None =>
      match nearest_landmark h ancs with
      | Some lm => lm
      | None => default root (ancs !! 1)
      end
  end.

(** "The item container is chosen by the claimed chain", for one text. *)
Definition container_as_claimed (fuel : nat) (text : string) : Prop :=
  ∀ h chains n ancs,
    parse_snapshot text = Ok h →
    ancestors_with_context fuel h ROOT = Ok chains →
    eligible h n → chains !! n = Some ancs →
    item_container_for h ancs ROOT = claimed_item_container h ancs ROOT.

(** "Two nodes with the same container share one item", for one text. *)
Definition same_container_same_item (fuel : nat) (text : string) : Prop :=
  ∀ h chains st n1 n2,
    ancestors_with_context fuel h ROOT = Ok chains →
    build_state fuel text = Ok (h, st) →
    n1 < length h → n2 < length h → eligible h n1 → eligible h n2 →
    container_of h chains n1 = container_of h chains n2 →
    ∃ r it, item_store st !! r = Some it
      ∧ node_core h n1 ∈ action_core <$> actions it
      ∧ node_core h n2 ∈ action_core <$> actions it.

(** A button two levels below a [list], with no repeater and no landmark
    above it. *)
Definition nested_text : string :=
  snapshot ["- list"; "  - banner"; "    - button " +:+ quoted "X" +:+ " [ref=e1]"].

(** Two buttons in one [listitem], the second one under a heading. *)
Definition split_text : string :=
  snapshot ["- listitem";
            "  - button " +:+ quoted "A" +:+ " [ref=e1]";
            "  - heading " +:+ quoted "H";
            "    - button " +:+ quoted "B" +:+ " [ref=e2]"].

(** The scenario of the specification: a button and a link under [main]
    under a heading. *)
Definition profile_text : string :=
  snapshot ["- heading " +:+ quoted "Profile";
            "  - main";
            "    - button " +:+ quoted "Submit" +:+ " [ref=e1]";
            "    - link " +:+ quoted "Docs" +:+ " [ref=e2]";
            "      - /url: https://x.test"].

(** The scenario of the specification, run: one section with landmark
    [main] and heading path [Profile], one item, and the two actions, the
    link with its url. *)
Example build_context_model_profile :
  build_context_model 10 profile_text
  = Ok [ mkSection "s_main_Profile" "main" ["Profile"]
           [ mkItem "s_main_Profile/i0" "Docs" "main"
               [ mkAction "s_main_Profile/i0/a0" "button" "Submit" "e1"
                          false None;
                 mkAction "s_main_Profile/i0/a1" "link" "Docs" "e2"
                          false (Some "https://x.test") ] ] ].
Proof. vm_compute. reflexivity. Qed.

Lemma root_not_eligible (h : heap) :
  role (h !!! ROOT) = "root" → ¬ eligible h ROOT.
Proof. unfold eligible. intros ->. simpl. tauto. Qed.

Lemma role_in_false (roles : list string) (r : string) :
  role_in roles r = false ↔ ¬ role_in roles r.
Proof. destruct (role_in roles r); simpl; naive_solver. Qed.

(** C1. For every text (and enough fuel for the walks), the nodes of the
    parsed tree are the references of the store, each listed once by
    [iter_nodes]; the actions found in the sections and items of the model
    of [build_context_model] are, counted with multiplicity, the nodes
    that have an interactive role and a non-empty ref, so each such node
    has one action in one item of one section and no other node has any;
    the sections have distinct ids and no item is listed twice. *)
Theorem every_eligible_node_one_action (text : string) (fuel : nat) :
  String.length text + 2 ≤ fuel →
  ∃ h nodes st model,
    parse_snapshot text = Ok h
    ∧ iter_nodes fuel h ROOT = Ok nodes
    ∧ NoDup nodes ∧ (∀ n, n ∈ nodes ↔ n < length h)
    ∧ build_state fuel text = Ok (h, st)
    ∧ build_context_model fuel text = Ok model
    ∧ model = resolve st
    ∧ model_cores model ≡ₚ node_core h <$> filter (λ n, eligible h n) nodes
    ∧ NoDup (section_id <$> model)
    ∧ NoDup (concat (items <$> sections st)).
Proof.
  intros Hfuel.
  destruct (build_state_spec text fuel Hfuel)
    as (h & kids & chains & st & keys & Hp & _ & _ & _ & Hit & _ & _ & _ & Hb & Hinv).
  exists h, (seq 0 (length h)), st, (resolve st). split_and!; try done.
  - apply NoDup_seq.
  - intros n. rewrite elem_of_seq. lia.
  - unfold build_context_model. by rewrite Hb.
  - rewrite model_cores_resolve, (bi_secs_items _ _ _ _ _ Hinv), store_cores_seq.
    apply (bi_total _ _ _ _ _ Hinv).
  - unfold resolve. rewrite <-list_fmap_compose.
    apply (bi_secs_nodup _ _ _ _ _ Hinv).
  - rewrite (bi_secs_items _ _ _ _ _ Hinv). apply NoDup_seq.
Qed.

Lemma every_eligible_node_one_action_witness :
  String.length profile_text + 2 ≤ 200
  ∧ ∃ h nodes st model,
      parse_snapshot profile_text = Ok h
      ∧ iter_nodes 200 h ROOT = Ok nodes
      ∧ NoDup nodes ∧ (∀ n, n ∈ nodes ↔ n < length h)
      ∧ build_state 200 profile_text = Ok (h, st)
      ∧ build_context_model 200 profile_text = Ok model
      ∧ model = resolve st
      ∧ model_cores model ≡ₚ node_core h <$> filter (λ n, eligible h n) nodes
      ∧ NoDup (section_id <$> model)
      ∧ NoDup (concat (items <$> sections st)).
Proof.
  assert (H : String.length profile_text + 2 ≤ 200) by (vm_compute; lia).
  split; [exact H|]. exact (every_eligible_node_one_action profile_text 200 H).
Defined.

(** Where the action of an eligible node ends up: the item registered
    under the node's key, whose container role is that of the node's
    container. *)
Lemma placement (h : heap) (chains : gmap nat (list nat)) (st : bstate)
    (keys : list (string * nat)) (n : nat) :
  binv h chains (seq 0 (length h)) st keys → n < length h → eligible h n →
  ∃ r it, item_map st !! key_of h chains n = Some r
    ∧ (∀ k, item_map st !! k = Some r → k = key_of h chains n)
    ∧ item_store st !! r = Some it
    ∧ container_role it = role (h !!! container_of h chains n)
    ∧ node_core h n ∈ action_core <$> actions it.
Proof.
  intros Hinv Hn He.
  assert (Hin : n ∈ seq 0 (length h)) by (rewrite elem_of_seq; lia).
  destruct (bi_cover _ _ _ _ _ Hinv n Hin He) as [r Hr].
  pose proof Hr as Hk. apply (bi_map _ _ _ _ _ Hinv) in Hk.
  destruct (bi_item _ _ _ _ _ Hinv r _ Hk) as [Hrole Hacts].
  exists r, (item_store st !!! r). split_and!; [done| | |done|].
  - intros k Hkr. apply (bi_map _ _ _ _ _ Hinv) in Hkr. congruence.
  - apply list_lookup_lookup_total_lt.
    rewrite <-(bi_len _ _ _ _ _ Hinv). by eapply lookup_lt_Some.
  - rewrite Hacts. apply list_elem_of_fmap_2, list_elem_of_filter. done.
Qed.

(** C2, as stated, fails: the button of [nested_text] has the chain
    root, [list], [banner]; the code takes [banner] (reference 2), its
    parent, not the top-level [list] (reference 1) and not the root. *)
Lemma item_container_counterexample : ¬ container_as_claimed 10 nested_text.
Proof.
  intros Hc.
  eassert (Hp : parse_snapshot nested_text = Ok _) by (vm_compute; reflexivity).
  match type of Hp with _ = Ok ?h =>
    eassert (Ha : ancestors_with_context 10 h ROOT = Ok _)
      by (vm_compute; reflexivity)
  end.
  pose proof (Hc _ _ 3 [0; 1; 2] Hp Ha) as Hd.
  assert (H : 2 = 1); [|discriminate H].
  apply Hd; vm_compute; [exact I|reflexivity].
Qed.

(** C2, amended. For every text and every node with an interactive role
    and a non-empty ref, the ancestor chain runs from the root to the
    parent of the node, and the item container is the nearest ancestor
    with role row, listitem or group; else the nearest ancestor with role
    main, navigation or contentinfo; else the parent of the node. The
    action of the node is in the item registered for that container, which
    records the container's role. *)
Theorem item_container_priority (text : string) (fuel : nat) :
  String.length text + 2 ≤ fuel →
  ∃ h chains st,
    parse_snapshot text = Ok h
    ∧ ancestors_with_context fuel h ROOT = Ok chains
    ∧ build_state fuel text = Ok (h, st)
    ∧ chains !! ROOT = Some []
    ∧ ∀ n, n < length h → eligible h n →
        ∃ ancs parent c r it,
          chains !! parent = Some ancs
          ∧ n ∈ children (h !!! parent)
          ∧ chains !! n = Some (ancs ++ [parent])
          ∧ c = item_container_for h (ancs ++ [parent]) ROOT
          ∧ (nearest_with REPEATER_ITEM_ROLES h (ancs ++ [parent]) c
             ∨ (none_with REPEATER_ITEM_ROLES h (ancs ++ [parent])
                ∧ nearest_with LANDMARK_ROLES h (ancs ++ [parent]) c)
             ∨ (none_with REPEATER_ITEM_ROLES h (ancs ++ [parent])
                ∧ none_with LANDMARK_ROLES h (ancs ++ [parent])
                ∧ c = parent))
          ∧ item_map st !! (sid_of h chains n, c) = Some r
          ∧ item_store st !! r = Some it
          ∧ container_role it = role (h !!! c)
          ∧ node_core h n ∈ action_core <$> actions it.
Proof.
  intros Hfuel.
  destruct (build_state_spec text fuel Hfuel)
    as (h & kids & chains & st & keys & Hp & Hroot & Hr & Hpre & _ & Hanc & Hc0
        & Hedge & Hb & Hinv).
  exists h, chains, st. split_and!; try done.
  intros n Hn He.
  destruct (parent_exists h (FCons 0 kids FNil) n Hr) as [Hn0|(p & _ & Hnp)].
  { rewrite Hpre, elem_of_seq. lia. }
  { simpl in Hn0. apply list_elem_of_singleton in Hn0 as ->.
    by apply root_not_eligible in He. }
  destruct (Hedge p n Hnp) as (ancs & Hpa & Hna).
  destruct (placement h chains st keys n Hinv Hn He)
    as (r & it & Hmap & _ & Hit & Hrole & Hcore).
  assert (Hcont : container_of h chains n = item_container_for h (ancs ++ [p]) ROOT).
  { unfold container_of, ancs_of. by rewrite Hna. }
  exists ancs, p, (item_container_for h (ancs ++ [p]) ROOT), r, it.
  rewrite <-Hcont. split_and!; try done.
  rewrite Hcont. unfold item_container_for.
  destruct (nearest_item_container h (ancs ++ [p])) as [c|] eqn:Hrep.
  { left. apply find_rev_Some in Hrep as (pre & post & Heq & Hc & Hpost).
    exists pre, post. split_and!; [done|by rewrite Hc|].
    eapply Forall_impl; [exact Hpost|]. intros a Ha. by apply role_in_false. }
  apply find_rev_None in Hrep.
  assert (Hnone : none_with REPEATER_ITEM_ROLES h (ancs ++ [p])).
  { eapply Forall_impl; [exact Hrep|]. intros a Ha. by apply role_in_false. }
  destruct (nearest_landmark h (ancs ++ [p])) as [c|] eqn:Hlm.
  { right. left. split; [done|].
    apply find_rev_Some in Hlm as (pre & post & Heq & Hc & Hpost).
    exists pre, post. split_and!; [done|by rewrite Hc|].
    eapply Forall_impl; [exact Hpost|]. intros a Ha. by apply role_in_false. }
  apply find_rev_None in Hlm.
  right. right. split_and!; [done| |by rewrite last_snoc].
  eapply Forall_impl; [exact Hlm|]. intros a Ha. by apply role_in_false.
Qed.

Lemma item_container_priority_witness :
  String.length nested_text + 2 ≤ 200
  ∧ ∃ h chains st,
      parse_snapshot nested_text = Ok h
      ∧ ancestors_with_context 200 h ROOT = Ok chains
      ∧ build_state 200 nested_text = Ok (h, st)
      ∧ chains !! ROOT = Some []
      ∧ ∀ n, n < length h → eligible h n →
          ∃ ancs parent c r it,
            chains !! parent = Some ancs
            ∧ n ∈ children (h !!! parent)
            ∧ chains !! n = Some (ancs ++ [parent])
            ∧ c = item_container_for h (ancs ++ [parent]) ROOT
            ∧ (nearest_with REPEATER_ITEM_ROLES h (ancs ++ [parent]) c
               ∨ (none_with REPEATER_ITEM_ROLES h (ancs ++ [parent])
                  ∧ nearest_with LANDMARK_ROLES h (ancs ++ [parent]) c)
               ∨ (none_with REPEATER_ITEM_ROLES h (ancs ++ [parent])
                  ∧ none_with LANDMARK_ROLES h (ancs ++ [parent])
                  ∧ c = parent))
            ∧ item_map st !! (sid_of h chains n, c) = Some r
            ∧ item_store st !! r = Some it
            ∧ container_role it = role (h !!! c)
            ∧ node_core h n ∈ action_core <$> actions it.
Proof.
  assert (H : String.length nested_text + 2 ≤ 200) by (vm_compute; lia).
  split; [exact H|]. exact (item_container_priority nested_text 200 H).
Defined.

(** C3, as stated, fails: both buttons of [split_text] resolve to the
    [listitem] (reference 1), but the second one lies under a heading, so
    its section differs and its action goes to a second item. *)
Lemma same_container_counterexample : ¬ same_container_same_item 10 split_text.
Proof.
  intros Hc.
  eassert (Hb : build_state 10 split_text = Ok (_, _))
    by (vm_compute; reflexivity).
  match type of Hb with _ = Ok (?h, _) =>
    eassert (Ha : ancestors_with_context 10 h ROOT = Ok _)
      by (vm_compute; reflexivity)
  end.
  destruct (Hc _ _ _ 2 4 Ha Hb) as (r & it & Hit & H1 & H2).
  - vm_compute. lia.
  - vm_compute. lia.
  - vm_compute. exact I.
  - vm_compute. exact I.
  - vm_compute. reflexivity.
  - cbn [item_store] in Hit.
    destruct r as [|[|r]]; simpl in Hit; [| |done]; injection Hit as <-.
    + vm_compute in H2. apply list_elem_of_singleton in H2. discriminate H2.
    + vm_compute in H1. apply list_elem_of_singleton in H1. discriminate H1.
Qed.

(** C3, amended. For every text and any two nodes with an interactive
    role and a non-empty ref that have the same section id and the same
    item container, their actions are in one and the same item: the one
    registered under that pair, which no other pair maps to and which is
    listed by exactly the section with that id. *)
Theorem same_key_same_item (text : string) (fuel : nat) :
  String.length text + 2 ≤ fuel →
  ∃ h chains st,
    parse_snapshot text = Ok h
    ∧ ancestors_with_context fuel h ROOT = Ok chains
    ∧ build_state fuel text = Ok (h, st)
    ∧ NoDup (concat (items <$> sections st))
    ∧ ∀ n1 n2, n1 < length h → n2 < length h →
        eligible h n1 → eligible h n2 →
        sid_of h chains n1 = sid_of h chains n2 →
        container_of h chains n1 = container_of h chains n2 →
        ∃ r it s,
          item_map st !! (sid_of h chains n1, container_of h chains n1) = Some r
          ∧ (∀ k, item_map st !! k = Some r →
                k = (sid_of h chains n1, container_of h chains n1))
          ∧ item_store st !! r = Some it
          ∧ node_core h n1 ∈ action_core <$> actions it
          ∧ node_core h n2 ∈ action_core <$> actions it
          ∧ s ∈ sections st ∧ section_id s = sid_of h chains n1
          ∧ r ∈ items s
          ∧ (∀ s', s' ∈ sections st → r ∈ items s' → s' = s).
Proof.
  intros Hfuel.
  destruct (build_state_spec text fuel Hfuel)
    as (h & kids & chains & st & keys & Hp & _ & _ & _ & _ & Hanc & _ & _ & Hb & Hinv).
  exists h, chains, st. split_and!; try done.
  { rewrite (bi_secs_items _ _ _ _ _ Hinv). apply NoDup_seq. }
  intros n1 n2 Hn1 Hn2 He1 He2 Hsid Hcont.
  destruct (placement h chains st keys n1 Hinv Hn1 He1)
    as (r & it & Hmap & Huniq & Hit & _ & Hcore1).
  destruct (placement h chains st keys n2 Hinv Hn2 He2)
    as (r2 & it2 & Hmap2 & _ & Hit2 & _ & Hcore2).
  assert (Hkey : key_of h chains n2 = key_of h chains n1).
  { unfold key_of. by rewrite Hsid, Hcont. }
  rewrite Hkey, Hmap in Hmap2. injection Hmap2 as <-.
  rewrite Hit in Hit2. injection Hit2 as <-.
  assert (Hr : r ∈ concat (items <$> sections st)).
  { rewrite (bi_secs_items _ _ _ _ _ Hinv), elem_of_seq.
    apply lookup_lt_Some in Hit. lia. }
  apply list_elem_of_In, in_concat in Hr as (l & Hl & Hrl).
  apply list_elem_of_In, list_elem_of_fmap in Hl as (s & -> & Hs).
  apply list_elem_of_In in Hrl.
  pose proof Hmap as Hk. apply (bi_map _ _ _ _ _ Hinv) in Hk.
  exists r, it, s. split_and!; try done.
  - symmetry. apply (bi_secs_key _ _ _ _ _ Hinv s r _ Hs Hrl Hk).
  - intros s' Hs' Hrs'.
    apply (NoDup_fmap_eq section_id (sections st));
      [apply (bi_secs_nodup _ _ _ _ _ Hinv)|done|done|].
    rewrite <-(bi_secs_key _ _ _ _ _ Hinv s r _ Hs Hrl Hk).
    by rewrite <-(bi_secs_key _ _ _ _ _ Hinv s' r _ Hs' Hrs' Hk).
Qed.

Lemma same_key_same_item_witness :
  String.length profile_text + 2 ≤ 200
  ∧ ∃ h chains st,
      parse_snapshot profile_text = Ok h
      ∧ ancestors_with_context 200 h ROOT = Ok chains
      ∧ build_state 200 profile_text = Ok (h, st)
      ∧ NoDup (concat (items <$> sections st))
      ∧ ∀ n1 n2, n1 < length h → n2 < length h →
          eligible h n1 → eligible h n2 →
          sid_of h chains n1 = sid_of h chains n2 →
          container_of h chains n1 = container_of h chains n2 →
          ∃ r it s,
            item_map st !! (sid_of h chains n1, container_of h chains n1) = Some r
            ∧ (∀ k, item_map st !! k = Some r →
                  k = (sid_of h chains n1, container_of h chains n1))
            ∧ item_store st !! r = Some it
            ∧ node_core h n1 ∈ action_core <$> actions it
            ∧ node_core h n2 ∈ action_core <$> actions it
            ∧ s ∈ sections st ∧ section_id s = sid_of h chains n1
            ∧ r ∈ items s
            ∧ (∀ s', s' ∈ sections st → r ∈ items s' → s' = s).
Proof.
  assert (H : String.length profile_text + 2 ≤ 200) by (vm_compute; lia).
  split; [exact H|]. exact (same_key_same_item profile_text 200 H).
Defined.

End ContextClaims.

(** * Properties of the salient text and of the chunker *)

Module ChunkerClaims.
Import Text Parser ParserFacts Shape Walk WalkFacts Chunker Builtins.
Import Samples.

(** A [listitem] whose first child carries a text and whose second child
    is a named link. *)
Definition text_before_link : string :=
  snapshot ["- listitem";
            "  - paragraph";
            "    - text: hello";
            "  - link " +:+ quoted "Docs" +:+ " [ref=e1]"].

(** A [main] with two children, eighty characters when serialised. *)
Definition small_page : string :=
  snapshot ["- main";
            "  - button " +:+ quoted "Save changes now" +:+ " [ref=e1]";
            "  - link " +:+ quoted "Documentation" +:+ " [ref=e2]"].

(** A landmark without children whose own line is longer than the budget
    of five tokens. *)
Definition lone_landmark : string :=
  snapshot ["- main " +:+ quoted "Account settings overview"].

(** C5. On [text_before_link] the subtree of the [listitem] (reference
    1) holds the link [Docs] (reference 3), a link with a non-empty name,
    yet [first_salient_text] returns the text of the paragraph that comes
    before it in the walk. *)
Theorem first_salient_text_prefers_earlier_texts :
  ∃ h,
    parse_snapshot text_before_link = Ok h
    ∧ iter_nodes 10 h 1 = Ok [1; 2; 3]
    ∧ role (h !!! 3) = "link" ∧ name (h !!! 3) = Some "Docs"
    ∧ attrs_texts (h !!! 2) = ["hello"]
    ∧ first_salient_text 10 h 1 = Ok "hello".
Proof.
  eexists. split; [vm_compute; reflexivity|].
  split_and!; vm_compute; reflexivity.
Qed.

(** C4. On [lone_landmark] with a budget of five tokens the only chunk
    root is the [main] node (reference 1); its text is over the budget,
    it has no children, and [make_chunks] returns no chunk at all. *)
Theorem childless_root_yields_no_chunk :
  ∃ h,
    parse_snapshot lone_landmark = Ok h
    ∧ find_chunk_roots 10 h ROOT = Ok [1]
    ∧ estimate_tokens (serialize_subtree h 1) = 8%Z
    ∧ children (h !!! 1) = []
    ∧ make_chunks 10 lone_landmark 5 = Ok [].
Proof.
  eexists. split; [vm_compute; reflexivity|].
  split_and!; vm_compute; reflexivity.
Qed.

(** A budget of ten tokens splits the [main] of [small_page] into one
    chunk per child. *)
Example make_chunks_per_child :
  make_chunks 10 small_page 10
  = Ok [ mkChunk "ch0_0" "main:button"
           ("- button " +:+ quoted "Save changes now" +:+ " [ref=e1]");
         mkChunk "ch0_1" "main:link"
           ("- link " +:+ quoted "Documentation" +:+ " [ref=e2]") ].
Proof. vm_compute. reflexivity. Qed.

Lemma str_take_length (n : nat) (s : string) :
  String.length (str_take n s) ≤ n.
Proof.
  revert s. induction n as [|n IH]; intros [|c s]; simpl; try lia.
  specialize (IH s). lia.
Qed.

Lemma Forall_imap {A B} (Q : B → Prop) (f : nat → A → B) (l : list A) :
  (∀ i x, Q (f i x)) → Forall Q (imap f l).
Proof.
  revert f. induction l as [|x l IH]; intros f Hf; simpl; constructor; [done|].
  apply IH. intros i y. apply Hf.
Qed.

(** The serialisation is only compared with the budget below; it is
    never unfolded. *)
#[local] Opaque serialize_subtree.

Definition within (budget : Z) (c : Chunk) : Prop :=
  (estimate_tokens (text c) ≤ budget)%Z.

Lemma child_chunk_within (h : heap) (budget : Z) (idx cr j child : nat) :
  (1 ≤ budget)%Z → within budget (child_chunk h budget idx cr j child).
Proof.
  intros Hb. unfold child_chunk, within.
  destruct (Z.leb_spec (estimate_tokens (serialize_subtree h child)) budget)
    as [Hle|Hgt]; cbn [text]; [done|].
  unfold slice_to, estimate_tokens.
  rewrite (proj2 (Z.leb_le 0 (budget * 4))) by lia.
  pose proof (str_take_length (Z.to_nat (budget * 4)) (serialize_subtree h child)).
  apply Z.max_lub; [done|]. apply Z.div_le_upper_bound; lia.
Qed.

Lemma root_chunks_within (h : heap) (budget : Z) (idx cr : nat) :
  (1 ≤ budget)%Z → Forall (within budget) (root_chunks h budget idx cr).
Proof.
  intros Hb. unfold root_chunks.
  destruct (Z.leb_spec (estimate_tokens (serialize_subtree h cr)) budget)
    as [Hle|Hgt].
  - constructor; [exact Hle|constructor].
  - apply Forall_imap. intros j child. by apply child_chunk_within.
Qed.

(** C10. For every text, every budget of at least one token (and enough
    fuel for the walk), [make_chunks] returns, and every chunk it returns
    has an estimate within the budget. *)
Theorem chunks_within_budget (snapshot_text : string) (fuel : nat)
    (max_tokens_per_chunk : Z) :
  String.length snapshot_text + 2 ≤ fuel → (1 ≤ max_tokens_per_chunk)%Z →
  ∃ chunks,
    make_chunks fuel snapshot_text max_tokens_per_chunk = Ok chunks
    ∧ Forall (λ c, (estimate_tokens (text c) ≤ max_tokens_per_chunk)%Z) chunks.
Proof.
  intros Hfuel Hb.
  destruct (parse_snapshot_shape snapshot_text) as (h & kids & Hp & Hr & Hpre & Hlen).
  unfold make_chunks, find_chunk_roots. rewrite Hp. cbn [mbind result_bind].
  rewrite (iter_nodes_root h kids fuel Hr Hpre) by lia.
  cbn [mbind result_bind]. eexists. split; [done|].
  apply Forall_concat, Forall_imap. intros idx cr.
  by apply root_chunks_within.
Qed.

Lemma chunks_within_budget_witness :
  String.length small_page + 2 ≤ 200 ∧ (1 ≤ 8)%Z
  ∧ ∃ chunks,
      make_chunks 200 small_page 8 = Ok chunks
      ∧ Forall (λ c, (estimate_tokens (text c) ≤ 8)%Z) chunks
      ∧ (λ c, (chunk_id c, String.length (text c), estimate_tokens (text c)))
          <$> chunks
        = [("ch0_0_slice", 32, 8%Z); ("ch0_1", 31, 7%Z)].
Proof.
  assert (H1 : String.length small_page + 2 ≤ 200) by (vm_compute; lia).
  assert (H2 : (1 ≤ 8)%Z) by lia.
  split; [exact H1|]. split; [exact H2|].
  destruct (chunks_within_budget small_page 200 8 H1 H2)
    as (chunks & Hm & Hall).
  exists chunks. split; [exact Hm|]. split; [exact Hall|].
  vm_compute in Hm. injection Hm as <-. vm_compute. reflexivity.
Defined.

End ChunkerClaims.

(** * Properties of the relevance trimmer *)

Module TrimmerFacts.
Import Text Context Builtins Trimmer.

(** *** The stable descending sort *)

Section Sorting.
Context {A : Type} (key : A → Z).

(** Descending by key: every element is at least as large as all the
    elements after it. *)
Definition desc (l : list A) : Prop :=
  StronglySorted (λ x y, (key y ≤ key x)%Z) l.

Lemma insert_desc_perm (x : A) (l : list A) : insert_desc key x l ≡ₚ x :: l.
Proof.
  induction l as [|y l IH]; simpl; [done|].
  destruct (key y <=? key x)%Z; [done|].
  by rewrite IH, Permutation_swap.
Qed.

Lemma sorted_desc_perm (l : list A) : sorted_desc key l ≡ₚ l.
Proof.
  induction l as [|x l IH]; simpl; [done|].
  change (foldr (insert_desc key) [] l) with (sorted_desc key l).
  by rewrite insert_desc_perm, IH.
Qed.

Lemma insert_desc_sorted (x : A) (l : list A) :
  desc l → desc (insert_desc key x l).
Proof.
  unfold desc. induction l as [|y l IH]; simpl; intros Hl.
  { repeat constructor. }
  apply StronglySorted_cons in Hl as [Hy Hl].
  destruct (Z.leb_spec (key y) (key x)) as [Hle|Hgt].
  - apply StronglySorted_cons. split; [|by apply StronglySorted_cons].
    constructor; [done|]. eapply Forall_impl; [exact Hy|]. simpl. lia.
  - apply StronglySorted_cons. split; [|by apply IH].
    rewrite insert_desc_perm. constructor; [lia|done].
Qed.

Lemma sorted_desc_sorted (l : list A) : desc (sorted_desc key l).
Proof.
  induction l as [|x l IH]; simpl; [constructor|].
  by apply insert_desc_sorted.
Qed.

(** Stability: an element only moves past elements with a strictly
    larger key, so the elements with any given key keep their order. *)
Lemma insert_desc_stable (v : Z) (x : A) (l : list A) :
  filter (λ y, key y = v) (insert_desc key x l)
    = filter (λ y, key y = v) (x :: l).
Proof.
  induction l as [|y l IH]; simpl; [done|].
  destruct (Z.leb_spec (key y) (key x)) as [Hle|Hgt]; [done|].
  rewrite (filter_cons _ y), IH, !(filter_cons _ x), (filter_cons _ y).
  repeat case_decide; try done. lia.
Qed.

Lemma sorted_desc_stable (v : Z) (l : list A) :
  filter (λ y, key y = v) (sorted_desc key l) = filter (λ y, key y = v) l.
Proof.
  induction l as [|x l IH]; simpl; [done|].
  change (foldr (insert_desc key) [] l) with (sorted_desc key l).
  by rewrite insert_desc_stable, !(filter_cons _ x), IH.
Qed.

(** Sorting a list that is already in descending order changes
    nothing. *)
Lemma sorted_desc_id (l : list A) : desc l → sorted_desc key l = l.
Proof.
  unfold desc. induction l as [|x l IH]; simpl; [done|].
  intros [Hx Hl]%StronglySorted_cons.
  change (foldr (insert_desc key) [] l) with (sorted_desc key l).
  rewrite IH by done. destruct l as [|y l]; simpl; [done|].
  apply Forall_cons in Hx as [Hy _].
  by rewrite (proj2 (Z.leb_le _ _) Hy).
Qed.

Lemma desc_take (n : nat) (l : list A) : desc l → desc (take n l).
Proof.
  unfold desc. revert n. induction l as [|x l IH]; intros [|n]; simpl;
    intros Hl; try constructor.
  - apply IH. by apply StronglySorted_cons in Hl as [_ ?].
  - apply Forall_take. by apply StronglySorted_cons in Hl as [? _].
Qed.

(** A slice that starts at the head is a prefix. *)
Lemma list_slice_to_take (k : Z) (l : list A) :
  ∃ n, list_slice_to k l = take n l.
Proof. unfold list_slice_to. destruct (0 <=? k)%Z; by eexists. Qed.

Lemma list_slice_to_ge (k : Z) (l : list A) :
  (Z.of_nat (length l) ≤ k)%Z → list_slice_to k l = l.
Proof.
  intros Hk. unfold list_slice_to.
  rewrite (proj2 (Z.leb_le 0 k)) by lia. apply take_ge. lia.
Qed.

(** [out] is what one sort-and-truncate pass keeps of [l] under the
    limit [k]: the first [k] entries (all of them if there are fewer) of
    the rearrangement of [l] that is in descending key order and keeps
    entries with equal keys in their original order. *)
Definition stable_top (k : Z) (l out : list A) : Prop :=
  ∃ s, s ≡ₚ l ∧ desc s
    ∧ (∀ v, filter (λ y, key y = v) s = filter (λ y, key y = v) l)
    ∧ out = take (Z.to_nat k) s
    ∧ length out = Nat.min (Z.to_nat k) (length l).

Lemma sort_and_truncate (k : Z) (l : list A) :
  (0 ≤ k)%Z → stable_top k l (list_slice_to k (sorted_desc key l)).
Proof.
  intros Hk. exists (sorted_desc key l). split_and!.
  - apply sorted_desc_perm.
  - apply sorted_desc_sorted.
  - intros v. apply sorted_desc_stable.
  - unfold list_slice_to. by rewrite (proj2 (Z.leb_le 0 k)) by lia.
  - unfold list_slice_to. rewrite (proj2 (Z.leb_le 0 k)) by lia.
    by rewrite length_take, sorted_desc_perm.
Qed.
End Sorting.

Lemma desc_fmap {A B} (key : A → Z) (key' : B → Z) (f : A → B) (l : list A) :
  (∀ x, key' (f x) = key x) → desc key l → desc key' (f <$> l).
Proof.
  intros Hf. unfold desc. induction 1 as [|x l Hl IH Hx]; simpl; constructor.
  - done.
  - apply Forall_fmap. eapply Forall_impl; [exact Hx|].
    intros y Hy. simpl. by rewrite !Hf.
Qed.

(** *** The three passes of [trim_for_llm] *)

(** [oi] is item [it] with its actions trimmed. *)
Definition trimmed_item (kw : list string) (max_actions : Z) (it oi : Item)
    : Prop :=
  item_id oi = item_id it ∧ item_key oi = item_key it
  ∧ container_role oi = container_role it
  ∧ stable_top (action_score kw) max_actions (actions it) (actions oi).

(** [o] is section [sec] with its items selected and trimmed. *)
Definition trimmed_section (kw : list string) (max_items max_actions : Z)
    (sec o : Section Item) : Prop :=
  section_id o = section_id sec ∧ landmark o = landmark sec
  ∧ heading_path o = heading_path sec
  ∧ ∃ its, stable_top (item_score kw) max_items (items sec) its
      ∧ Forall2 (trimmed_item kw max_actions) its (items o).

(** [out] is the model with its sections selected and trimmed. *)
Definition trimmed_model (kw : list string)
    (max_sections max_items max_actions : Z)
    (model out : list (Section Item)) : Prop :=
  ∃ secs, stable_top (section_score kw) max_sections model secs
    ∧ Forall2 (trimmed_section kw max_items max_actions) secs out.

(** The three size limits, as a test on a list of sections. *)
Definition within_limits (max_sections max_items max_actions : Z)
    (secs : list (Section Item)) : bool :=
  (Z.of_nat (length secs) <=? max_sections)%Z
  && forallb (λ s,
       (Z.of_nat (length (items s)) <=? max_items)%Z
       && forallb (λ it, (Z.of_nat (length (actions it)) <=? max_actions)%Z)
                  (items s))
     secs.

(** The [sections] entry of the result of [trim_for_llm]. *)
Definition trim_sections (model : list (Section Item)) (task : string)
    (max_sections max_items max_actions : Z) : list (Section Item) :=
  (trim_for_llm model task max_sections max_items max_actions).2.

(** A model with two sections; the second one matches the task [panel]. *)
Definition sample_model : list (Section Item) :=
  [ mkSection "s_main_Help" "main" ["Help"]
      [ mkItem "s_main_Help/i0" "Help centre" "main"
          [ mkAction "s_main_Help/i0/a0" "link" "Contact" "e1" false None;
            mkAction "s_main_Help/i0/a1" "link" "Panel help" "e2" false
                     (Some "https://x.test/panel") ] ];
    mkSection "s_main_Panel Settings" "main" ["Panel Settings"]
      [ mkItem "s_main_Panel Settings/i1" "Colours" "group"
          [ mkAction "s_main_Panel Settings/i1/a0" "button" "Reset" "e3" true None ];
        mkItem "s_main_Panel Settings/i2" "Panel size" "group"
          [ mkAction "s_main_Panel Settings/i2/a0" "textbox" "Width" "e4" false None ] ] ].

Lemma trim_item_spec (kw : list string) (max_actions : Z) (it : Item) :
  (0 ≤ max_actions)%Z →
  trimmed_item kw max_actions it (trim_item kw max_actions it).
Proof. intros Ha. split_and!; [done..|]. by apply sort_and_truncate. Qed.

Lemma trim_section_spec (kw : list string) (max_items max_actions : Z)
    (sec : Section Item) :
  (0 ≤ max_items)%Z → (0 ≤ max_actions)%Z →
  trimmed_section kw max_items max_actions sec
    (trim_section kw max_items max_actions sec).
Proof.
  intros Hi Ha. split_and!; [done..|].
  eexists. split; [by apply sort_and_truncate|].
  cbn [trim_section items]. apply Forall2_fmap_r, Forall_Forall2_diag.
  apply Forall_forall. intros it _. by apply trim_item_spec.
Qed.

Lemma stable_top_length {A} (key : A → Z) (k : Z) (l out : list A) :
  (0 ≤ k)%Z → stable_top key k l out → (Z.of_nat (length out) ≤ k)%Z.
Proof. intros Hk (s & _ & _ & _ & _ & Hlen). lia. Qed.

(** What a pass leaves is in descending order of the same scores. *)
Lemma trim_item_desc (kw : list string) (max_actions : Z) (it : Item) :
  desc (action_score kw) (actions (trim_item kw max_actions it)).
Proof.
  cbn [trim_item actions].
  destruct (list_slice_to_take max_actions
              (sorted_desc (action_score kw) (actions it))) as [n ->].
  apply desc_take, sorted_desc_sorted.
Qed.

Lemma trim_section_desc (kw : list string) (max_items max_actions : Z)
    (sec : Section Item) :
  desc (item_score kw) (items (trim_section kw max_items max_actions sec)).
Proof.
  cbn [trim_section items].
  destruct (list_slice_to_take max_items
              (sorted_desc (item_score kw) (items sec))) as [n ->].
  apply (desc_fmap (item_score kw)); [done|].
  apply desc_take, sorted_desc_sorted.
Qed.

(** Trimming again an item, a section, that a pass has left and that
    fits the limits gives it back. *)
Lemma trim_item_fix (kw : list string) (max_actions : Z) (it : Item) :
  desc (action_score kw) (actions it) →
  (Z.of_nat (length (actions it)) ≤ max_actions)%Z →
  trim_item kw max_actions it = it.
Proof.
  intros Hd Hlen. unfold trim_item.
  rewrite sorted_desc_id, list_slice_to_ge by done. by destruct it.
Qed.

Lemma fmap_fix {A} (f : A → A) (l : list A) :
  Forall (λ x, f x = x) l → f <$> l = l.
Proof. induction 1 as [|x l Hx _ IH]; [done|]. by rewrite fmap_cons, Hx, IH. Qed.

Lemma trim_items_fix (kw : list string) (max_actions : Z) (its : list Item) :
  Forall (λ it, desc (action_score kw) (actions it)
                ∧ (Z.of_nat (length (actions it)) ≤ max_actions)%Z) its →
  trim_item kw max_actions <$> its = its.
Proof.
  induction 1 as [|it its [Hit1 Hit2] _ IH]; [done|].
  by rewrite fmap_cons, IH, trim_item_fix.
Qed.

Lemma trim_section_fix (kw : list string) (max_items max_actions : Z)
    (sec : Section Item) :
  desc (item_score kw) (items sec) →
  (Z.of_nat (length (items sec)) ≤ max_items)%Z →
  Forall (λ it, desc (action_score kw) (actions it)
                ∧ (Z.of_nat (length (actions it)) ≤ max_actions)%Z)
         (items sec) →
  trim_section kw max_items max_actions sec = sec.
Proof.
  intros Hd Hlen Hall. unfold trim_section.
  rewrite sorted_desc_id, list_slice_to_ge, trim_items_fix by done.
  by destruct sec.
Qed.

End TrimmerFacts.

Module TrimmerClaims.
Import Text Context Builtins Trimmer TrimmerFacts.

(** C6. For every model, task and non-negative limits, the sections of
    [trim_for_llm] are at most [max_sections], each with at most
    [max_items] items, each with at most [max_actions] actions; at each
    level the kept entries are the first ones, up to the limit, of the
    entries put in descending score order with equal scores left in
    their original order, and as many are kept as the limit and the
    number of entries allow, whatever their score. *)
Theorem trim_for_llm_limits (model : list (Section Item)) (task : string)
    (max_sections max_items max_actions : Z) :
  (0 ≤ max_sections)%Z → (0 ≤ max_items)%Z → (0 ≤ max_actions)%Z →
  within_limits max_sections max_items max_actions
    (trim_sections model task max_sections max_items max_actions) = true
  ∧ trimmed_model (keywords task) max_sections max_items max_actions model
      (trim_sections model task max_sections max_items max_actions).
Proof.
  intros Hs Hi Ha.
  set (out := trim_sections model task max_sections max_items max_actions).
  assert (Hm : trimmed_model (keywords task) max_sections max_items max_actions
                 model out).
  { eexists. split; [by apply sort_and_truncate|].
    unfold out, trim_sections, trim_for_llm. cbn [snd].
    apply Forall2_fmap_r, Forall_Forall2_diag, Forall_forall.
    intros sec _. by apply trim_section_spec. }
  split; [|done].
  destruct Hm as (secs & Htop & Hall).
  unfold within_limits. apply andb_true_iff. split.
  - apply Z.leb_le. rewrite <-(Forall2_length _ _ _ Hall).
    by eapply stable_top_length.
  - apply Is_true_true, forallb_True. eapply Forall2_Forall_r; [exact Hall|].
    apply Forall_forall. intros sec _ o (_ & _ & _ & its & Hits & Hitems).
    apply Is_true_true, andb_true_iff. split.
    + apply Z.leb_le. rewrite <-(Forall2_length _ _ _ Hitems).
      by eapply stable_top_length.
    + apply Is_true_true, forallb_True. eapply Forall2_Forall_r; [exact Hitems|].
      apply Forall_forall. intros it _ oi (_ & _ & _ & Hacts).
      apply Is_true_true, Z.leb_le. by eapply stable_top_length.
Qed.

Lemma trim_for_llm_limits_witness :
  (0 ≤ 1)%Z ∧ (0 ≤ 1)%Z ∧ (0 ≤ 0)%Z
  ∧ within_limits 1 1 0 (trim_sections sample_model "open the panel" 1 1 0)
    = true
  ∧ trimmed_model (keywords "open the panel") 1 1 0 sample_model
      (trim_sections sample_model "open the panel" 1 1 0).
Proof.
  assert (H1 : (0 ≤ 1)%Z) by lia. assert (H0 : (0 ≤ 0)%Z) by lia.
  split; [exact H1|]. split; [exact H1|]. split; [exact H0|].
  exact (trim_for_llm_limits sample_model "open the panel" 1 1 0 H1 H1 H0).
Defined.

(** The scenario of the specification: the task [panel] puts the section
    headed [Panel Settings] before the section headed [Help], and within
    it the item [Panel size] before [Colours]. *)
Example trim_for_llm_panel :
  (λ s, (section_id s, item_key <$> items s))
    <$> (trim_for_llm sample_model "panel" 3 8 8).2
  = [("s_main_Panel Settings", ["Panel size"; "Colours"]);
     ("s_main_Help", ["Help centre"])].
Proof. vm_compute. reflexivity. Qed.

(** C7. For every model, task and limits, trimming the sections that
    [trim_for_llm] returned, with the same task and limits that the
    returned sections fit, returns the same sections. *)
Theorem trim_for_llm_idempotent (model : list (Section Item)) (task : string)
    (max_sections max_items max_actions : Z)
    (max_sections' max_items' max_actions' : Z) :
  within_limits max_sections' max_items' max_actions'
    (trim_sections model task max_sections max_items max_actions) = true →
  trim_sections (trim_sections model task max_sections max_items max_actions)
    task max_sections' max_items' max_actions'
  = trim_sections model task max_sections max_items max_actions.
Proof.
  set (out := trim_sections model task max_sections max_items max_actions).
  intros [Hlen Hall]%andb_true_iff.
  apply Z.leb_le in Hlen.
  apply Is_true_true, forallb_True in Hall.
  assert (Hout : out = trim_section (keywords task) max_items max_actions
                   <$> list_slice_to max_sections
                         (sorted_desc (section_score (keywords task)) model))
    by done.
  assert (Hdesc : desc (section_score (keywords task)) out).
  { rewrite Hout.
    destruct (list_slice_to_take max_sections
                (sorted_desc (section_score (keywords task)) model)) as [n ->].
    apply (desc_fmap (section_score (keywords task))); [done|].
    apply desc_take, sorted_desc_sorted. }
  assert (Hfix : Forall (λ o, trim_section (keywords task) max_items'
                               max_actions' o = o) out).
  { rewrite Hout in Hall |- *. rewrite Forall_fmap in Hall. apply Forall_fmap.
    eapply Forall_impl; [exact Hall|]. intros sec Hsec.
    cbn [compose] in Hsec |- *.
    apply Is_true_true, andb_true_iff in Hsec as [Hi Ha].
    apply Z.leb_le in Hi. apply Is_true_true, forallb_True in Ha.
    apply trim_section_fix; [apply trim_section_desc|done|].
    cbn [trim_section items] in Ha |- *.
    rewrite Forall_fmap in Ha. apply Forall_fmap.
    eapply Forall_impl; [exact Ha|]. intros it Hit. cbn [compose] in Hit |- *.
    split; [apply trim_item_desc|]. by apply Z.leb_le, Is_true_true. }
  unfold trim_sections at 1, trim_for_llm. cbn [snd].
  rewrite sorted_desc_id, list_slice_to_ge by done.
  by apply fmap_fix.
Qed.

Lemma trim_for_llm_idempotent_witness :
  within_limits 2 1 5 (trim_sections sample_model "open the panel" 2 1 5)
  = true
  ∧ trim_sections (trim_sections sample_model "open the panel" 2 1 5)
      "open the panel" 2 1 5
    = trim_sections sample_model "open the panel" 2 1 5.
Proof.
  assert (H : within_limits 2 1 5
                (trim_sections sample_model "open the panel" 2 1 5) = true)
    by (vm_compute; reflexivity).
  split; [exact H|].
  exact (trim_for_llm_idempotent sample_model "open the panel" 2 1 5 2 1 5 H).
Defined.

End TrimmerClaims.

(** * Further properties of the parser and of the walks *)

Module ParserProps.
Import Text Parser ParserFacts Shape Walk WalkFacts ContextFacts.
Import Samples.

(** *** The store lists the node lines in their order *)

(** The node that a line creates, if it creates one: the line has the
    bullet form and its body is neither a url nor a text attribute. *)
Definition line_node (line : string) : option Node :=
  match LINE_RE line with
  | None => None
  | Some (ind_text, body0) =>
      let body := strip body0 in
      match URL_RE body with
      | Some _ => None
      | None =>
          match TEXT_KV_RE body with
          | Some _ => None
          | None =>
              Some (new_node body (Z.of_nat (String.length ind_text))
                      (default "unknown" (ROLE_RE body)) (NAME_RE body)
                      (REF_RE body) (DISABLED_RE body))
          end
      end
  end.

(** The fields of a node that are set when it is created. *)
Definition header (nd : Node)
    : string * Z * string * option string * option string * bool :=
  (raw nd, indent nd, role nd, name nd, ref nd, disabled nd).

Lemma header_alter (f : Node → Node) (i : nat) (h : heap) :
  (∀ x, header (f x) = header x) → header <$> alter f i h = header <$> h.
Proof.
  intros Hf. revert i. induction h as [|x h IH]; intros [|i]; simpl; [done..| |].
  - by rewrite Hf.
  - f_equal. apply IH.
Qed.

Lemma parse_line_header (h : heap) (stack : list nat) (line : string)
    (st' : pstate) :
  parse_line (h, stack) line = Ok st' →
  header <$> st'.1 = (header <$> h) ++ (header <$> option_list (line_node line)).
Proof.
  unfold parse_line, line_node.
  destruct (LINE_RE line) as [[ind_text body0]|].
  2:{ intros [= <-]. simpl. by rewrite app_nil_r. }
  cbn zeta.
  destruct (URL_RE (strip body0)) as [u|].
  { destruct stack as [|top below]; [done|]. intros [= <-]. simpl.
    by rewrite app_nil_r, header_alter. }
  destruct (TEXT_KV_RE (strip body0)) as [t|].
  { destruct stack as [|top below]; [done|]. intros [= <-]. simpl.
    by rewrite app_nil_r, header_alter. }
  destruct (pop_closed _ _ stack) as [|top below]; [done|].
  intros [= <-]. cbn [fst]. rewrite fmap_app. by rewrite header_alter.
Qed.

Lemma parse_lines_header (lines : list string) (st st' : pstate) :
  parse_lines st lines = Ok st' →
  header <$> st'.1 = (header <$> st.1) ++ (header <$> omap line_node lines).
Proof.
  revert st. induction lines as [|l ls IH]; intros [h stack]; cbn [parse_lines].
  { intros [= <-]. simpl. by rewrite app_nil_r. }
  destruct (parse_line (h, stack) l) as [st1|] eqn:Hl; [|done].
  cbn [mbind result_bind]. intros Hrun%IH.
  rewrite Hrun, (parse_line_header _ _ _ _ Hl). cbn [fst].
  rewrite <-app_assoc. f_equal. cbn [omap list_omap].
  destruct (line_node l); [done|]. done.
Qed.

(** What [parse_snapshot] returned, with the loop's final state. *)
Lemma parse_snapshot_run (text : string) (h : heap) :
  parse_snapshot text = Ok h →
  ∃ stack, parse_lines ([root_node], [ROOT]) (splitlines text) = Ok (h, stack).
Proof.
  unfold parse_snapshot.
  destruct (parse_lines _ _) as [[h' stack]|]; [|done].
  intros [= <-]. by exists stack.
Qed.

(** *** Attribute lines go to the latest node *)

(** What a line is for the parser. *)
Inductive line_kind :=
  | Skipped
  | UrlLine (u : string)
  | TextLine (t : string)
  | NodeLine.

Definition classify (line : string) : line_kind :=
  match LINE_RE line with
  | None => Skipped
  | Some (_, body0) =>
      match URL_RE (strip body0) with
      | Some u => UrlLine u
      | None =>
          match TEXT_KV_RE (strip body0) with
          | Some t => TextLine t
          | None => NodeLine
          end
      end
  end.

(** The attributes of a node: its url and its texts. *)
Definition attrs_of (nd : Node) : option string * list string :=
  (attrs_url nd, attrs_texts nd).

Definition on_last {A} (f : A → A) (l : list A) : list A :=
  alter f (length l - 1) l.

(** The attributes of the nodes read so far, after one more line: a node
    line opens a node without attributes, an attribute line changes the
    attributes of the node opened last. *)
Definition scan_attrs (acc : list (option string * list string))
    (line : string) : list (option string * list string) :=
  match classify line with
  | Skipped => acc
  | UrlLine u => on_last (λ a, (Some u, a.2)) acc
  | TextLine t => on_last (λ a, (a.1, a.2 ++ [t])) acc
  | NodeLine => acc ++ [(None, [])]
  end.

Lemma attrs_alter (f : Node → Node)
    (g : option string * list string → option string * list string)
    (i : nat) (h : heap) :
  (∀ x, attrs_of (f x) = g (attrs_of x)) →
  attrs_of <$> alter f i h = alter g i (attrs_of <$> h).
Proof.
  intros Hf. revert i. induction h as [|x h IH]; intros [|i]; simpl; [done..| |].
  - by rewrite Hf.
  - f_equal. apply IH.
Qed.

Lemma attrs_keep (f : Node → Node) (i : nat) (h : heap) :
  (∀ x, attrs_of (f x) = attrs_of x) → attrs_of <$> alter f i h = attrs_of <$> h.
Proof.
  intros Hf. revert i. induction h as [|x h IH]; intros [|i]; simpl; [done..| |].
  - by rewrite Hf.
  - f_equal. apply IH.
Qed.

(** The top of the stack is the node created last. *)
Definition latest_on_top (st : pstate) : Prop :=
  head st.2 = Some (length st.1 - 1).

Lemma parse_line_attrs (h : heap) (stack : list nat) (line : string)
    (st' : pstate) :
  latest_on_top (h, stack) → parse_line (h, stack) line = Ok st' →
  latest_on_top st' ∧ attrs_of <$> st'.1 = scan_attrs (attrs_of <$> h) line.
Proof.
  unfold latest_on_top, parse_line, scan_attrs, classify, on_last. cbn [fst snd].
  intros Htop. rewrite length_fmap.
  destruct (LINE_RE line) as [[ind_text body0]|]; [|by intros [= <-]].
  destruct (URL_RE (strip body0)) as [u|].
  { destruct stack as [|top below]; [done|]. injection Htop as ->.
    intros [= <-]. cbn [fst snd]. rewrite length_alter. split; [done|].
    by apply attrs_alter. }
  destruct (TEXT_KV_RE (strip body0)) as [t|].
  { destruct stack as [|top below]; [done|]. injection Htop as ->.
    intros [= <-]. cbn [fst snd]. rewrite length_alter. split; [done|].
    by apply attrs_alter. }
  destruct (pop_closed _ _ stack) as [|top below]; [done|].
  intros [= <-]. cbn [fst snd head]. split.
  - rewrite length_app, length_alter. simpl. f_equal. lia.
  - rewrite fmap_app. by rewrite attrs_keep.
Qed.

Lemma parse_lines_attrs (lines : list string) (st st' : pstate) :
  latest_on_top st → parse_lines st lines = Ok st' →
  attrs_of <$> st'.1 = foldl scan_attrs (attrs_of <$> st.1) lines.
Proof.
  revert st. induction lines as [|l ls IH]; intros [h stack] Htop;
    cbn [parse_lines foldl].
  { by intros [= <-]. }
  destruct (parse_line (h, stack) l) as [st1|] eqn:Hl; [|done].
  cbn [mbind result_bind]. intros Hrun.
  destruct (parse_line_attrs h stack l st1 Htop Hl) as [Htop1 Hattrs].
  rewrite (IH st1 Htop1 Hrun). cbn [fst]. by rewrite Hattrs.
Qed.

(** *** The format of the fields *)

Lemma take_while_all (p : ascii → bool) (s : string) :
  all_chars p (take_while p s) = true.
Proof.
  induction s as [|c s IH]; simpl; [done|].
  destruct (p c) eqn:Hc; simpl; [by rewrite Hc|done].
Qed.

Lemma ROLE_RE_chars (body r : string) :
  ROLE_RE body = Some r → nonempty r = true ∧ all_chars is_role_char r = true.
Proof.
  unfold ROLE_RE. destruct (nonempty (take_while is_role_char body)) eqn:Hne;
    [|done].
  destruct (match drop_while is_role_char body with
            | EmptyString => true | String c _ => negb (is_word c) end);
    [|done].
  intros [= <-]. split; [done|apply take_while_all].
Qed.

Lemma ref_here_format (s r : string) :
  ref_here s = Some r →
  ∃ ds, r = "e" +:+ ds ∧ nonempty ds = true ∧ all_chars is_digit ds = true.
Proof.
  unfold ref_here. destruct (strip_prefix "[ref=e" s) as [r0|]; [|done].
  cbn [mbind option_bind].
  destruct (drop_while is_digit r0) as [|c rest]; [done|].
  destruct (nonempty (take_while is_digit r0)) eqn:Hne; [|done].
  destruct (is_char "]" c); [|done]. intros [= <-].
  eexists. split_and!; [done|done|apply take_while_all].
Qed.

Lemma REF_RE_format (body r : string) :
  REF_RE body = Some r →
  ∃ ds, r = "e" +:+ ds ∧ nonempty ds = true ∧ all_chars is_digit ds = true.
Proof.
  induction body as [|c body IH]; cbn [REF_RE].
  - destruct (ref_here EmptyString) eqn:Hh; [|done]. intros [= <-].
    by apply ref_here_format in Hh.
  - destruct (ref_here (String c body)) eqn:Hh.
    + intros [= <-]. by apply ref_here_format in Hh.
    + apply IH.
Qed.

(** The characters a name can hold. *)
Definition is_name_char (c : ascii) : bool :=
  negb (is_char DQUOTE c) && negb (is_char LF c).

Lemma until_quote_chars (s n : string) :
  until_quote s = Some n → all_chars is_name_char n = true.
Proof.
  revert n. induction s as [|c s IH]; intros n; simpl; [done|].
  unfold is_name_char.
  destruct (is_char DQUOTE c) eqn:Hq; [by intros [= <-]|].
  destruct (is_char LF c) eqn:Hl; [done|].
  destruct (until_quote s) as [n'|]; [|done].
  intros [= <-]. simpl. rewrite Hq, Hl. simpl. by apply IH.
Qed.

Lemma NAME_RE_chars (body n : string) :
  NAME_RE body = Some n → all_chars is_name_char n = true.
Proof.
  induction body as [|c body IH]; simpl; [done|].
  destruct (is_char DQUOTE c); [|done].
  destruct (until_quote body) as [n'|] eqn:Hu; [|done].
  intros [= <-]. by eapply until_quote_chars.
Qed.

Lemma URL_RE_format (body u : string) :
  URL_RE body = Some u →
  nonempty u = true ∧ all_chars (λ c, negb (is_space c)) u = true.
Proof.
  unfold URL_RE. destruct (strip_prefix "/url:" body) as [r|]; [|done].
  cbn [mbind option_bind].
  destruct (nonempty _) eqn:Hne; [|done].
  destruct (all_chars is_space _); [|done].
  intros [= <-]. split; [done|apply take_while_all].
Qed.

(** The formats that the regular expressions give the fields: a role is
    a non-empty run of letters and underscores, a ref is the letter e and
    at least one digit, a name holds no double quote and no line feed, a
    url is non-empty and holds no whitespace. *)
Definition well_formed (nd : Node) : Prop :=
  nonempty (role nd) ∧ all_chars is_role_char (role nd)
  ∧ (∀ r, ref nd = Some r →
       ∃ ds, r = "e" +:+ ds ∧ nonempty ds ∧ all_chars is_digit ds)
  ∧ (∀ n, name nd = Some n → all_chars is_name_char n)
  ∧ (∀ u, attrs_url nd = Some u →
       nonempty u ∧ all_chars (λ c, negb (is_space c)) u).

Lemma well_formed_new (body : string) (ind : Z) :
  well_formed (new_node body ind (default "unknown" (ROLE_RE body))
                 (NAME_RE body) (REF_RE body) (DISABLED_RE body)).
Proof.
  unfold well_formed. cbn [new_node role ref name attrs_url]. split_and!.
  - destruct (ROLE_RE body) as [r|] eqn:Hr; [|done].
    apply ROLE_RE_chars in Hr as [Hr _]. simpl. by rewrite Hr.
  - destruct (ROLE_RE body) as [r|] eqn:Hr; [|done].
    apply ROLE_RE_chars in Hr as [_ Hr]. simpl. by rewrite Hr.
  - intros r (ds & -> & Hne & Hds)%REF_RE_format. exists ds.
    by rewrite Hne, Hds.
  - intros n Hn%NAME_RE_chars. by rewrite Hn.
  - done.
Qed.

Lemma well_formed_alter (f : Node → Node) (i : nat) (h : heap) :
  (∀ x, well_formed x → well_formed (f x)) →
  Forall well_formed h → Forall well_formed (alter f i h).
Proof.
  intros Hf Hh. revert i.
  induction Hh as [|x h Hx Hh IH]; intros [|i]; simpl.
  - constructor.
  - constructor.
  - constructor; [by apply Hf|done].
  - constructor; [done|apply IH].
Qed.

Lemma parse_line_well_formed (h : heap) (stack : list nat) (line : string)
    (st' : pstate) :
  parse_line (h, stack) line = Ok st' →
  Forall well_formed h → Forall well_formed st'.1.
Proof.
  unfold parse_line.
  destruct (LINE_RE line) as [[ind_text body0]|]; [|by intros [= <-]].
  destruct (URL_RE (strip body0)) as [u|] eqn:Hu.
  { destruct stack as [|top below]; [done|]. intros [= <-]. cbn [fst].
    apply well_formed_alter. intros x (H1 & H2 & H3 & H4 & _).
    split_and!; [done..|]. cbn [set_url attrs_url]. intros ? [= <-].
    apply URL_RE_format in Hu as [Hu1 Hu2]. by rewrite Hu1, Hu2. }
  destruct (TEXT_KV_RE (strip body0)) as [t|].
  { destruct stack as [|top below]; [done|]. intros [= <-]. cbn [fst].
    apply well_formed_alter. by intros x (H1 & H2 & H3 & H4 & H5). }
  destruct (pop_closed _ _ stack) as [|top below]; [done|].
  intros [= <-] Hh. cbn [fst]. apply Forall_app. split.
  - revert Hh. apply well_formed_alter. by intros x (H1 & H2 & H3 & H4 & H5).
  - constructor; [apply well_formed_new|constructor].
Qed.

Lemma parse_lines_well_formed (lines : list string) (st st' : pstate) :
  parse_lines st lines = Ok st' →
  Forall well_formed st.1 → Forall well_formed st'.1.
Proof.
  revert st. induction lines as [|l ls IH]; intros [h stack]; cbn [parse_lines].
  { by intros [= <-]. }
  destruct (parse_line (h, stack) l) as [st1|] eqn:Hl; [|done].
  cbn [mbind result_bind]. intros Hrun Hh. apply (IH _ Hrun).
  by eapply parse_line_well_formed.
Qed.

(** *** Every node but the root has one parent, created before it *)

Definition parents_first (st : pstate) : Prop :=
  ∀ p c, c ∈ children (st.1 !!! p) → p < c.

Lemma parents_first_step (st st' : pstate) :
  parse_inv st.1 st.2 → parents_first st → pstep st st' → parents_first st'.
Proof.
  intros Hinv Hpf Hstep.
  inversion Hstep as [|f h stack top Hfi Hfc Hfr|h stack nd p below Hind Hleaf Hpop];
    subst; unfold parents_first in *; cbn [fst snd] in *.
  - done.
  - intros q c. rewrite (alter_keeps children) by done. apply Hpf.
  - intros q c. rewrite attach_children.
    destruct (decide (q = p ∧ p < length h)) as [[-> Hp]|Hn1];
      [|destruct (decide (q = length h)) as [->|Hn2]].
    + intros [Hin| ->%list_elem_of_singleton]%elem_of_app; [by apply Hpf|done].
    + rewrite Hleaf. by intros ?%elem_of_nil.
    + apply Hpf.
Qed.

Lemma preorder_roots_below (f : forest) :
  preorder f ≡ₚ roots f ++ stack_below (trees f).
Proof.
  induction f as [|n kids _ sibs IH]; [done|]. simpl.
  constructor. rewrite IH, !app_assoc. f_equiv. apply Permutation_app_comm.
Qed.

(** The child lists of the nodes of a forest hold, together, the nodes
    of the forest that are not among its roots. *)
Lemma children_below (h : heap) (f : forest) :
  repr h f →
  preorder f ≫= (λ n, children (h !!! n)) ≡ₚ stack_below (trees f).
Proof.
  induction f as [|n kids IHk sibs IHs]; [done|].
  intros (Hc & Hk & Hs). cbn [preorder trees stack_below].
  rewrite bind_cons, bind_app, Hc.
  rewrite (IHk Hk), (IHs Hs), app_assoc. f_equiv.
  by rewrite <-preorder_roots_below.
Qed.

(** The shape of a parsed store together with the order of creation. *)
Lemma parse_snapshot_tree (text : string) :
  ∃ h stack kids, parse_snapshot text = Ok h
    ∧ parse_inv h stack
    ∧ repr h (FCons 0 kids FNil)
    ∧ preorder (FCons 0 kids FNil) = seq 0 (length h)
    ∧ (∀ p c, c ∈ children (h !!! p) → p < c)
    ∧ length h ≤ S (String.length text).
Proof.
  destruct (parse_snapshot_inv (λ st, shape st ∧ parents_first st) text)
    as (h & stack & Hp & Hinv & [(kids & Hr & Hpre & _) Hpf] & Hlen).
  - intros st st' Hinv [Hs Hpf] Hstep. split.
    + by eapply shape_step.
    + by eapply parents_first_step.
  - split; [apply shape_init|]. intros p c. cbn [fst].
    rewrite root_only_children. by intros ?%elem_of_nil.
  - by exists h, stack, kids.
Qed.

Lemma kids_seq (kids : forest) (n : nat) :
  preorder (FCons 0 kids FNil) = seq 0 n → preorder kids = seq 1 (n - 1).
Proof.
  destruct n as [|m]; [done|]. simpl. intros [= Hpre].
  rewrite app_nil_r in Hpre. by rewrite Hpre, Nat.sub_0_r.
Qed.

(** *** A subtree is a block of consecutive nodes *)

Lemma subtree_block (h : heap) (f : forest) (c : nat) :
  repr h f → c ∈ preorder f →
  ∃ k pre post, tree_ok h (c, k) ∧ preorder f = pre ++ c :: preorder k ++ post.
Proof.
  induction f as [|m kids IHk sibs IHs]; simpl; [by intros _ ?%elem_of_nil|].
  intros (Hc & Hk & Hs) Hin.
  apply elem_of_cons in Hin as [->|Hin].
  { by exists kids, [], (preorder sibs). }
  apply elem_of_app in Hin as [Hin|Hin].
  - destruct (IHk Hk Hin) as (k & pre & post & Hok & Heq).
    exists k, (m :: pre), (post ++ preorder sibs). split; [done|].
    rewrite Heq. simpl. f_equal. rewrite <-app_assoc. simpl.
    by rewrite <-app_assoc.
  - destruct (IHs Hs Hin) as (k & pre & post & Hok & Heq).
    exists k, (m :: preorder kids ++ pre), post. split; [done|].
    rewrite Heq. simpl. by rewrite <-!app_assoc.
Qed.

Lemma seq_block (a n : nat) (pre mid post : list nat) :
  seq a n = pre ++ mid ++ post → mid = seq (a + length pre) (length mid).
Proof.
  revert a n. induction pre as [|x pre IH]; intros a n; simpl.
  - rewrite Nat.add_0_r. revert a n.
    induction mid as [|y mid IHm]; intros a n Heq; [done|].
    destruct n as [|n]; [done|]. simpl in Heq. injection Heq as <- Heq.
    simpl. f_equal. by eapply IHm.
  - destruct n as [|n]; [done|]. simpl. intros [= <- Heq].
    apply IH in Heq. by rewrite Nat.add_succ_r.
Qed.

(** Everything below a root is more indented than what the roots are
    more indented than. *)
Lemma deeper_below (h : heap) (f : forest) (x : Z) :
  (∀ p c, c ∈ children (h !!! p) → (indent (h !!! p) < indent (h !!! c))%Z) →
  repr h f → Forall (λ r, (x < indent (h !!! r))%Z) (roots f) →
  Forall (λ n, (x < indent (h !!! n))%Z) (preorder f).
Proof.
  intros Hedge. revert x.
  induction f as [|n kids IHk sibs IHs]; intros x; simpl; [constructor|].
  intros (Hc & Hk & Hs) [Hn Hsibs]%Forall_cons.
  constructor; [done|]. apply Forall_app. split.
  - apply IHk; [done|]. rewrite <-Hc. apply Forall_forall. intros c Hcn.
    apply Hedge in Hcn. lia.
  - by apply IHs.
Qed.

Lemma subtree_walk (h : heap) (kids : forest) (fuel c : nat) :
  repr h (FCons 0 kids FNil) →
  preorder (FCons 0 kids FNil) = seq 0 (length h) →
  (∀ p c, c ∈ children (h !!! p) → (indent (h !!! p) < indent (h !!! c))%Z) →
  length h < fuel → c < length h →
  ∃ k, iter_nodes fuel h c = Ok (seq c (S k)) ∧ c + k < length h
    ∧ ∀ n, c < n ≤ c + k → (indent (h !!! c) < indent (h !!! n))%Z.
Proof.
  intros Hr Hpre Hedge Hfuel Hc.
  destruct (subtree_block h (FCons 0 kids FNil) c Hr)
    as (k & pre & post & Hok & Heq).
  { rewrite Hpre, elem_of_seq. lia. }
  rewrite Hpre in Heq.
  assert (Hlen : length (seq 0 (length h))
                 = length pre + S (length (preorder k)) + length post).
  { rewrite Heq, !length_app. simpl. rewrite length_app. lia. }
  rewrite length_seq in Hlen.
  change (c :: preorder k ++ post) with ((c :: preorder k) ++ post) in Heq.
  apply seq_block in Heq. simpl in Heq. injection Heq as Hcp Hk.
  exists (length (preorder k)). split_and!.
  - rewrite (iter_nodes_tree h fuel c k) by (done || lia).
    simpl. rewrite Hk at 1. by rewrite <-Hcp.
  - lia.
  - intros n Hn. destruct Hok as [Hck Hrk]. simpl in Hck, Hrk.
    assert (Hin : n ∈ preorder k).
    { rewrite Hk, elem_of_seq. lia. }
    clear Hn. revert n Hin. apply Forall_forall, deeper_below; [done|done|].
    rewrite <-Hck. apply Forall_forall. intros d Hd. by apply Hedge.
Qed.

(** *** The chain of a node is the path from the root to its parent *)

(** [l] starts at the root and every element is the parent of the next. *)
Definition is_path (h : heap) (l : list nat) : Prop :=
  head l = Some ROOT
  ∧ ∀ i p c, l !! i = Some p → l !! S i = Some c → c ∈ children (h !!! p).

Lemma is_path_root (h : heap) : is_path h [ROOT].
Proof. split; [done|]. by intros [|i] p c. Qed.

Lemma is_path_snoc (h : heap) (a : list nat) (p c : nat) :
  is_path h (a ++ [p]) → c ∈ children (h !!! p) → is_path h ((a ++ [p]) ++ [c]).
Proof.
  intros [Hhd Hstep] Hc. split.
  - destruct a; simpl in *; done.
  - intros i x y Hx Hy.
    destruct (decide (S i < length (a ++ [p]))) as [Hlt|Hge].
    + rewrite lookup_app_l in Hx, Hy by lia. by eapply Hstep.
    + rewrite length_app in Hge. simpl in Hge.
      pose proof (lookup_lt_Some _ _ _ Hy) as Hyl.
      rewrite !length_app in Hyl. simpl in Hyl.
      assert (i = length a) as -> by lia.
      rewrite lookup_app_l in Hx by (rewrite length_app; simpl; lia).
      rewrite list_lookup_middle in Hx by done. injection Hx as <-.
      rewrite lookup_app_r in Hy by (rewrite length_app; simpl; lia).
      rewrite length_app in Hy. simpl in Hy.
      replace (S (length a) - (length a + 1)) with 0 in Hy by lia.
      injection Hy as <-. done.
Qed.

(** *** The salient text is never empty *)

Lemma str_take_nonempty (n : nat) (s : string) :
  0 < n → nonempty s = true → str_take n s ≠ EmptyString.
Proof. destruct n as [|n]; [lia|]. by destruct s. Qed.

Lemma str_take_bound (n : nat) (s : string) : String.length (str_take n s) ≤ n.
Proof.
  revert s. induction n as [|n IH]; intros [|c s]; simpl; try lia.
  specialize (IH s). lia.
Qed.

Lemma salient_scan_found (max_len : nat) (h : heap) (nodes : list nat)
    (s : string) :
  0 < max_len → salient_scan max_len h nodes = Some s →
  s ≠ EmptyString ∧ String.length s ≤ max_len.
Proof.
  intros Hm. induction nodes as [|n rest IH]; simpl; [done|].
  destruct ((String.eqb (role (h !!! n)) "heading"
             || String.eqb (role (h !!! n)) "link")
            && truthy (name (h !!! n))) eqn:Hname.
  { intros [= <-]. apply andb_true_iff in Hname as [_ Ht].
    destruct (name (h !!! n)) as [nm|]; [|done]. simpl in *.
    split; [by apply str_take_nonempty|apply str_take_bound]. }
  destruct (negb (bool_decide (attrs_texts (h !!! n) = []))
            && nonempty (strip (join " " (attrs_texts (h !!! n))))) eqn:Htext.
  { intros [= <-]. apply andb_true_iff in Htext as [_ Ht].
    split; [by apply str_take_nonempty|apply str_take_bound]. }
  destruct (String.eqb (role (h !!! n)) "emphasis"
            && negb (bool_decide (attrs_texts (h !!! n) = []))
            && nonempty (strip (join " " (attrs_texts (h !!! n))))) eqn:Hem.
  { intros [= <-]. apply andb_true_iff in Hem as [_ Ht].
    split; [by apply str_take_nonempty|apply str_take_bound]. }
  apply IH.
Qed.

Lemma append_nonempty_r (a b : string) : b ≠ EmptyString → a +:+ b ≠ EmptyString.
Proof. intros Hb. destruct a; [done|]. done. Qed.

Lemma salient_fallback_nonempty (h : heap) (c : nat) : salient_fallback h c ≠ EmptyString.
Proof. unfold salient_fallback. apply append_nonempty_r. done. Qed.

(** A snapshot with an attribute line before any node, a line that is
    not a bullet, and a node without a role. *)
Definition odd_lines : string :=
  snapshot ["  - /url: https://x.test/root";
            "- list " +:+ quoted "Results";
            "  plain words";
            "  - listitem";
            "    - text: first";
            "    - link " +:+ quoted "Open" +:+ " [ref=e12] [disabled]";
            "    - 3 items";
            "- button " +:+ quoted "More" +:+ " [ref=e13]"].

(** X1. For every text, [parse_snapshot] returns, and the store holds the
    root followed by one node for each line that has the bullet form and
    is not an attribute line, in the order of the lines; raw text,
    indentation, role, name, ref and disabled flag of every node are those
    read off its own line, whatever lines follow. *)
Theorem parse_snapshot_line_order (text : string) :
  ∃ h, parse_snapshot text = Ok h
    ∧ header <$> h
      = header root_node :: (header <$> omap line_node (splitlines text)).
Proof.
  destruct (parse_snapshot_shape text) as (h & _ & Hp & _).
  exists h. split; [done|].
  apply parse_snapshot_run in Hp as [stack Hrun].
  by apply parse_lines_header in Hrun.
Qed.

(** X2. For every text, every node of the parsed store, the root
    included, has a well-formed role, ref, name and url: the role is a
    non-empty run of letters and underscores, a ref is the letter e and at
    least one digit, a name holds no double quote and no line feed, a url
    is non-empty and without whitespace. *)
Theorem parse_snapshot_well_formed (text : string) :
  ∃ h, parse_snapshot text = Ok h ∧ Forall well_formed h.
Proof.
  destruct (parse_snapshot_shape text) as (h & _ & Hp & _).
  exists h. split; [done|].
  apply parse_snapshot_run in Hp as [stack Hrun].
  apply parse_lines_well_formed in Hrun; [done|].
  constructor; [|constructor]. unfold well_formed. simpl. split_and!; done.
Qed.

(** X3. For every text, the child lists of the parsed store hold every
    node but the root exactly once, so every node but the root has one
    parent and is listed once by it; a node is created after its
    parent. *)
Theorem parse_snapshot_single_parent (text : string) :
  ∃ h, parse_snapshot text = Ok h
    ∧ h ≫= children ≡ₚ seq 1 (length h - 1)
    ∧ ∀ p c, c ∈ children (h !!! p) → p < c.
Proof.
  destruct (parse_snapshot_tree text)
    as (h & stack & kids & Hp & Hinv & Hr & Hpre & Hpf & _).
  exists h. split_and!; [done| |done].
  rewrite <-(bind_seq_lookup children [] h). cbn [length app].
  rewrite <-Hpre, (children_below h _ Hr). cbn [trees stack_below].
  by rewrite !app_nil_r, (kids_seq kids (length h)).
Qed.

(** X4. For every text (and enough fuel), [iter_nodes] from the root
    lists all the nodes of the parsed store in the order of their lines,
    and from any node [c] it lists [c] and the nodes created right after
    it, a block of consecutive references inside the store; every node of
    the block but [c] is strictly more indented than [c]. *)
Theorem iter_nodes_block (text : string) (fuel : nat) :
  String.length text + 2 ≤ fuel →
  ∃ h, parse_snapshot text = Ok h
    ∧ iter_nodes fuel h ROOT = Ok (seq 0 (length h))
    ∧ ∀ c, c < length h →
        ∃ k, iter_nodes fuel h c = Ok (seq c (S k)) ∧ c + k < length h
          ∧ ∀ n, c < n ≤ c + k → (indent (h !!! c) < indent (h !!! n))%Z.
Proof.
  intros Hfuel.
  destruct (parse_snapshot_tree text)
    as (h & stack & kids & Hp & Hinv & Hr & Hpre & _ & Hlen).
  exists h. split_and!; [done| |].
  - apply (iter_nodes_root h kids); [done|done|lia].
  - intros c Hc.
    apply (subtree_walk h kids); [done|done|exact (pi_edges _ _ Hinv)|lia|done].
Qed.

Lemma iter_nodes_block_witness :
  String.length odd_lines + 2 ≤ 200
  ∧ ∃ h, parse_snapshot odd_lines = Ok h
      ∧ iter_nodes 200 h ROOT = Ok (seq 0 (length h))
      ∧ ∀ c, c < length h →
          ∃ k, iter_nodes 200 h c = Ok (seq c (S k)) ∧ c + k < length h
            ∧ ∀ n, c < n ≤ c + k → (indent (h !!! c) < indent (h !!! n))%Z.
Proof.
  assert (H : String.length odd_lines + 2 ≤ 200) by (vm_compute; lia).
  split; [exact H|]. exact (iter_nodes_block odd_lines 200 H).
Defined.

(** X5. For every text (and enough fuel), [ancestors_with_context]
    returns a chain for exactly the nodes of the parsed store, and the
    chain of a node followed by the node itself is the path that leads
    from the root to the node through the child lists; the chain of the
    root is empty. *)
Theorem ancestors_are_paths (text : string) (fuel : nat) :
  String.length text + 2 ≤ fuel →
  ∃ h chains, parse_snapshot text = Ok h
    ∧ ancestors_with_context fuel h ROOT = Ok chains
    ∧ chains !! ROOT = Some []
    ∧ (∀ n, is_Some (chains !! n) ↔ n < length h)
    ∧ ∀ n a, chains !! n = Some a → is_path h (a ++ [n]).
Proof.
  intros Hfuel.
  destruct (parse_snapshot_tree text)
    as (h & stack & kids & Hp & Hinv & Hr & Hpre & Hpf & Hlen).
  destruct (pi_root _ _ Hinv) as [Hpos _].
  pose proof Hr as (Hc & Hk & _).
  assert (Hkids : preorder kids = seq 1 (length h - 1)) by by apply kids_seq.
  destruct (anc_loop_spec h fuel [(0, kids)] {[ 0 := [] ]})
    as (chains & Hrun & Hframe & Hall & Hedge).
  { by constructor. }
  { simpl. rewrite app_nil_r, Hkids. apply (NoDup_seq 0 (S (length h - 1))). }
  { constructor; [|done]. simpl. by rewrite lookup_singleton_eq. }
  { simpl. rewrite app_nil_r, Hkids, length_seq. lia. }
  simpl in Hframe, Hall, Hedge. rewrite app_nil_r, Hkids in Hframe, Hall, Hedge.
  assert (Hroot : chains !! 0 = Some []).
  { rewrite Hframe; [by rewrite lookup_singleton_eq|]. rewrite elem_of_seq. lia. }
  assert (Hdom : ∀ n, is_Some (chains !! n) ↔ n < length h).
  { intros n. split.
    - intros Hn. destruct (decide (n < length h)) as [|Hge]; [done|].
      rewrite Hframe in Hn by (rewrite elem_of_seq; lia).
      rewrite lookup_singleton_ne in Hn by lia. by destruct Hn.
    - intros Hn. apply Hall. destruct n; [by left|].
      right. rewrite elem_of_seq. lia. }
  exists h, chains. split_and!; [done|exact Hrun|exact Hroot|exact Hdom|].
  intros n. induction (lt_wf n) as [n _ IH]. intros a Ha.
  assert (Hn : n < length h) by (apply Hdom; by eexists).
  destruct (parent_exists h (FCons 0 kids FNil) n Hr) as [Hroots|(p & Hp' & Hnp)].
  { rewrite Hpre, elem_of_seq. lia. }
  - simpl in Hroots. apply list_elem_of_singleton in Hroots as ->.
    rewrite Hroot in Ha. injection Ha as <-. apply is_path_root.
  - destruct (Hedge p n) as (b & Hb & Hbn); [|done|].
    { rewrite Hpre, elem_of_seq in Hp'. destruct p; [by left|].
      right. rewrite elem_of_seq. lia. }
    rewrite Ha in Hbn. injection Hbn as ->.
    apply is_path_snoc; [|done]. apply (IH p); [by apply Hpf|done].
Qed.

Lemma ancestors_are_paths_witness :
  String.length odd_lines + 2 ≤ 200
  ∧ ∃ h chains, parse_snapshot odd_lines = Ok h
      ∧ ancestors_with_context 200 h ROOT = Ok chains
      ∧ chains !! ROOT = Some []
      ∧ (∀ n, is_Some (chains !! n) ↔ n < length h)
      ∧ ∀ n a, chains !! n = Some a → is_path h (a ++ [n]).
Proof.
  assert (H : String.length odd_lines + 2 ≤ 200) by (vm_compute; lia).
  split; [exact H|]. exact (ancestors_are_paths odd_lines 200 H).
Defined.

(** X6. For every text and every node of the parsed store (and enough
    fuel), [first_salient_text] returns a string that is not empty; it is
    at most 80 characters long or it is the fallback built from the role
    and the ref of the node, which is not cut. *)
Theorem first_salient_text_nonempty (text : string) (fuel : nat) :
  String.length text + 2 ≤ fuel →
  ∃ h, parse_snapshot text = Ok h
    ∧ ∀ c, c < length h →
        ∃ s, first_salient_text fuel h c = Ok s ∧ s ≠ EmptyString
          ∧ (String.length s ≤ 80 ∨ s = salient_fallback h c).
Proof.
  intros Hfuel.
  destruct (parse_snapshot_shape text) as (h & kids & Hp & Hr & Hpre & Hlen).
  exists h. split; [done|]. intros c Hc.
  destruct (subtree_at h (FCons 0 kids FNil) c Hr) as (k & Hok & _ & Hk).
  { rewrite Hpre, elem_of_seq. lia. }
  rewrite Hpre, length_seq in Hk.
  unfold first_salient_text. rewrite (iter_nodes_tree h fuel c k) by (done || lia).
  cbn [mbind result_bind]. eexists. split; [done|].
  destruct (salient_scan 80 h (c :: preorder k)) as [s|] eqn:Hs; cbn [default].
  - apply salient_scan_found in Hs as [Hne Hlen']; [|lia]. split; [done|by left].
  - split; [apply salient_fallback_nonempty|by right].
Qed.

Lemma first_salient_text_nonempty_witness :
  String.length odd_lines + 2 ≤ 200
  ∧ ∃ h, parse_snapshot odd_lines = Ok h
      ∧ ∀ c, c < length h →
          ∃ s, first_salient_text 200 h c = Ok s ∧ s ≠ EmptyString
            ∧ (String.length s ≤ 80 ∨ s = salient_fallback h c).
Proof.
  assert (H : String.length odd_lines + 2 ≤ 200) by (vm_compute; lia).
  split; [exact H|]. exact (first_salient_text_nonempty odd_lines 200 H).
Defined.

(** X7. For every text, an attribute line of the snapshot goes to the
    node of the nearest node line before it, whatever its own indentation,
    or to the root when no node line comes before it: the urls and texts
    of the parsed store are those that a scan of the lines without any
    stack gives, in which a url line replaces the url of the node opened
    last and a text line adds to its texts. *)
Theorem parse_snapshot_attributes (text : string) :
  ∃ h, parse_snapshot text = Ok h
    ∧ attrs_of <$> h = foldl scan_attrs [(None, [])] (splitlines text).
Proof.
  destruct (parse_snapshot_shape text) as (h & _ & Hp & _).
  exists h. split; [done|].
  apply parse_snapshot_run in Hp as [stack Hrun].
  by apply parse_lines_attrs in Hrun.
Qed.

(** On [odd_lines] the url of the first line goes to the root, and the
    text line under the [listitem] goes to the [listitem]. *)
Example parse_snapshot_attributes_odd_lines :
  foldl scan_attrs [(None, [])] (splitlines odd_lines)
  = [(Some "https://x.test/root", []); (None, []); (None, ["first"]);
     (None, []); (None, []); (None, [])].
Proof. vm_compute. reflexivity. Qed.

End ParserProps.

(** * Further properties of the context model *)

Module ContextProps.
Import Text Parser ParserFacts Shape Walk WalkFacts Context ContextFacts.
Import Samples.

(** *** Keys of a dictionary in insertion order *)

Section FirstSeen.
Context {A : Type} `{EqDecision A}.

(** [if x not in d: d[x] = ...], on the keys of [d]. *)
Definition note (acc : list A) (x : A) : list A :=
  if decide (x ∈ acc) then acc else acc ++ [x].

(** The distinct elements of [l], each where it occurs first. *)
Definition first_seen (l : list A) : list A := foldl note [] l.

Lemma first_seen_snoc (l : list A) (x : A) :
  first_seen (l ++ [x]) = note (first_seen l) x.
Proof. unfold first_seen. by rewrite foldl_snoc. Qed.

Lemma first_seen_nil (l : list A) : first_seen l = [] ↔ l = [].
Proof.
  split; [|by intros ->].
  destruct l as [|x l _] using rev_ind; [done|].
  rewrite first_seen_snoc. unfold note. case_decide as Hx.
  - intros E. rewrite E in Hx. by apply elem_of_nil in Hx.
  - intros E. by apply app_nil in E as [_ ?].
Qed.
End FirstSeen.

(** *** Appending to a section *)

(** [sections[sid]["items"].append(r)] on one section dictionary. *)
Definition with_item (sid : string) (r : nat) (s : Section nat) : Section nat :=
  if String.eqb (section_id s) sid
  then mkSection (section_id s) (landmark s) (heading_path s) (items s ++ [r])
  else s.

Lemma with_item_other (sid : string) (r : nat) (secs : list (Section nat)) :
  sid ∉ section_id <$> secs → with_item sid r <$> secs = secs.
Proof.
  induction secs as [|s secs IH]; [done|]. rewrite !fmap_cons, not_elem_of_cons.
  intros [Hs Hrest]. rewrite IH by done. unfold with_item.
  destruct (String.eqb_spec (section_id s) sid); [congruence|done].
Qed.

Lemma section_append_fmap (sid : string) (r : nat)
    (secs secs' : list (Section nat)) :
  NoDup (section_id <$> secs) → section_append sid r secs = Ok secs' →
  secs' = with_item sid r <$> secs.
Proof.
  revert secs'. induction secs as [|s secs IH]; intros secs'; simpl; [done|].
  intros [Hs Hnd]%NoDup_cons. unfold with_item at 1.
  destruct (String.eqb_spec (section_id s) sid) as [Heq|Hne].
  - intros [= <-]. rewrite with_item_other; [done|]. by rewrite <-Heq.
  - destruct (section_append sid r secs) as [rest|] eqn:Hrest; [|done].
    cbn [mbind result_bind]. intros [= <-]. f_equal. by apply IH.
Qed.

Lemma with_item_id (sid : string) (r : nat) (s : Section nat) :
  section_id (with_item sid r s) = section_id s
  ∧ landmark (with_item sid r s) = landmark s
  ∧ heading_path (with_item sid r s) = heading_path s.
Proof. unfold with_item. by destruct (String.eqb _ _). Qed.

Lemma with_item_items (sid : string) (r : nat) (s : Section nat) :
  items (with_item sid r s)
  = if String.eqb (section_id s) sid then items s ++ [r] else items s.
Proof. unfold with_item. by destruct (String.eqb _ _). Qed.

Lemma with_item_ids (sid : string) (r : nat) (secs : list (Section nat)) :
  section_id <$> (with_item sid r <$> secs) = section_id <$> secs.
Proof.
  rewrite <-list_fmap_compose. apply list_fmap_ext.
  intros i s _. apply with_item_id.
Qed.

(** *** One iteration of the loop, case by case *)

(** The section list after the test [if section_id not in sections]. *)
Definition with_section (h : heap) (ancs : list nat)
    (secs : list (Section nat)) : list (Section nat) :=
  let lm := section_landmark_for h ancs in
  let hp := heading_path_for h ancs in
  if has_section (section_id_for lm hp) secs then secs
  else secs ++ [mkSection (section_id_for lm hp) lm hp []].

(** The action made for node [n] in the item [it]. *)
Definition action_of (h : heap) (n : nat) (it : Item) : Action :=
  mkAction (item_id it +:+ "/a" +:+ pretty (length (actions it)))
           (role (h !!! n)) (default EmptyString (name (h !!! n)))
           (default EmptyString (ref (h !!! n))) (disabled (h !!! n))
           (attrs_url (h !!! n)).

(** The state after the visit of an eligible node [n] whose key is
    already in [item_map], under reference [r]. *)
Definition visit_known (h : heap) (n r : nat) (st : bstate) : bstate :=
  mkB (sections st) (item_map st)
      (alter (add_action (action_of h n (item_store st !!! r))) r
             (item_store st)).

(** The state after the visit of an eligible node [n] whose key is not
    yet in [item_map]; [key] is the salient text of its container. *)
Definition visit_new (h : heap) (chains : gmap nat (list nat)) (n : nat)
    (key : string) (st : bstate) : bstate :=
  let k := key_of h chains n in
  let r := length (item_store st) in
  let it := mkItem (k.1 +:+ "/i" +:+ pretty (size (item_map st))) key
                   (role (h !!! k.2)) [] in
  mkB (with_item k.1 r <$> with_section h (ancs_of chains n) (sections st))
      (<[k := r]> (item_map st))
      (item_store st ++ [add_action (action_of h n it) it]).

Lemma with_section_ids (h : heap) (chains : gmap nat (list nat)) (n : nat)
    (secs : list (Section nat)) :
  section_id <$> with_section h (ancs_of chains n) secs
  = note (section_id <$> secs) (sid_of h chains n).
Proof.
  unfold with_section, note. cbn zeta. fold (sid_of h chains n).
  destruct (has_section (sid_of h chains n) secs) eqn:Hhas.
  - apply has_section_spec in Hhas. by rewrite decide_True.
  - rewrite decide_False; [by rewrite fmap_app|].
    rewrite <-has_section_spec, Hhas. done.
Qed.

Lemma with_section_elem (h : heap) (chains : gmap nat (list nat)) (n : nat)
    (secs : list (Section nat)) (s : Section nat) :
  s ∈ with_section h (ancs_of chains n) secs →
  s ∈ secs
  ∨ ((sid_of h chains n ∉ section_id <$> secs)
     ∧ s = mkSection (sid_of h chains n)
             (section_landmark_for h (ancs_of chains n))
             (heading_path_for h (ancs_of chains n)) []).
Proof.
  unfold with_section. cbn zeta. fold (sid_of h chains n).
  destruct (has_section (sid_of h chains n) secs) eqn:Hhas; [by left|].
  intros [Hs| ->%list_elem_of_singleton]%elem_of_app; [by left|].
  right. split; [|done]. rewrite <-has_section_spec, Hhas. done.
Qed.

Lemma first_seen_keeps {A} `{EqDecision A} (l : list A) (x : A) :
  x ∈ l → x ∈ first_seen l.
Proof.
  induction l as [|y l IH] using rev_ind; [by intros ?%elem_of_nil|].
  rewrite first_seen_snoc. unfold note.
  intros [Hx| ->%list_elem_of_singleton]%elem_of_app.
  - case_decide; [by apply IH|]. apply elem_of_app. left. by apply IH.
  - case_decide; [done|]. apply elem_of_app. right. by left.
Qed.

Lemma section_of_item (h : heap) (chains : gmap nat (list nat))
    (L : list nat) (st : bstate) (keys : list (string * nat))
    (k : string * nat) (r : nat) :
  binv h chains L st keys → item_map st !! k = Some r →
  ∃ s, s ∈ sections st ∧ r ∈ items s ∧ section_id s = k.1.
Proof.
  intros Hinv Hk.
  assert (Hkr : keys !! r = Some k) by by apply (bi_map _ _ _ _ _ Hinv).
  assert (Hr : r ∈ concat (items <$> sections st)).
  { rewrite (bi_secs_items _ _ _ _ _ Hinv), elem_of_seq.
    rewrite <-(bi_len _ _ _ _ _ Hinv). apply lookup_lt_Some in Hkr. lia. }
  apply list_elem_of_In, in_concat in Hr as (l & Hl & Hr).
  apply list_elem_of_In, list_elem_of_fmap in Hl as (s & -> & Hs).
  apply list_elem_of_In in Hr.
  exists s. split_and!; [done|done|].
  symmetry. by apply (bi_secs_key _ _ _ _ _ Hinv s r k).
Qed.

Lemma visit_cases (h : heap) (chains : gmap nat (list nat)) (fuel : nat)
    (L : list nat) (st st' : bstate) (keys : list (string * nat)) (n : nat) :
  binv h chains L st keys →
  visit fuel h chains ROOT st n = Ok st' →
  if eligible h n then
    match item_map st !! key_of h chains n with
    | Some r => st' = visit_known h n r st
    | None => ∃ key, first_salient_text fuel h (key_of h chains n).2 = Ok key
                ∧ st' = visit_new h chains n key st
    end
  else st' = st.
Proof.
  intros Hinv. unfold visit, eligible.
  destruct (role_in INTERACTIVE_ROLES (role (h !!! n))); cbn [negb andb];
    [|by intros [= <-]].
  destruct (truthy (ref (h !!! n))); cbn [negb]; [|by intros [= <-]].
  unfold key_of, sid_of, container_of, ancs_of.
  destruct (chains !! n) as [ancs|] eqn:Hch; [|done]. cbn [from_option id].
  set (lm := section_landmark_for h ancs).
  set (hp := heading_path_for h ancs).
  set (sid := section_id_for lm hp).
  set (c := item_container_for h ancs ROOT).
  destruct (first_salient_text fuel h c) as [key|] eqn:Hkey; [|done].
  cbn [mbind result_bind].
  destruct (item_map st !! (sid, c)) as [r|] eqn:Hlook.
  - cbn [mbind result_bind item_map item_store sections]. rewrite Hlook.
    intros [= <-]. unfold visit_known. f_equal.
    destruct (section_of_item h chains L st keys (sid, c) r Hinv Hlook)
      as (s & Hs & _ & Hsid).
    assert (Hhas : has_section sid (sections st) = true).
    { apply has_section_spec. cbn [fst] in Hsid. rewrite <-Hsid.
      by apply list_elem_of_fmap_2. }
    by rewrite Hhas.
  - destruct (binv_section h chains L st keys sid lm hp Hinv) as [Hinv1 Hsid].
    cbn zeta in Hinv1, Hsid.
    destruct (section_append sid (length (item_store st)) _) as [secs2|] eqn:Hap;
      [|done].
    cbn [mbind result_bind item_map item_store sections].
    rewrite lookup_insert_eq. intros [= <-].
    exists key. split; [done|].
    unfold visit_new, key_of, sid_of, container_of, ancs_of, with_section.
    rewrite Hch. cbn [fst snd from_option id]. fold lm hp sid c.
    apply section_append_fmap in Hap; [|exact (bi_secs_nodup _ _ _ _ _ Hinv1)].
    rewrite Hap. f_equal.
    rewrite !list_lookup_total_middle by done.
    rewrite alter_app_r_alt by done. by rewrite Nat.sub_diag.
Qed.

(** *** A second invariant of the loop *)

Section Loop2.
Variables (h : heap) (chains : gmap nat (list nat)).

(** The section of node [n] as the loop body computes it. *)
Definition section_for (n : nat) (s : Section nat) : Prop :=
  section_id s = sid_of h chains n
  ∧ landmark s = section_landmark_for h (ancs_of chains n)
  ∧ heading_path s = heading_path_for h (ancs_of chains n).

(** [n] is the first eligible node of [L] whose section id is [sid]. *)
Definition first_with (L : list nat) (sid : string) (n : nat) : Prop :=
  ∃ pre post, L = pre ++ n :: post ∧ eligible h n ∧ sid_of h chains n = sid
    ∧ Forall (λ m, eligible h m → sid_of h chains m ≠ sid) pre.

Record binv2 (L : list nat) (st : bstate) : Prop := {
  b2_size : size (item_map st) = length (item_store st);
  b2_ids : ∀ k r, item_map st !! k = Some r →
      item_id (item_store st !!! r) = k.1 +:+ "/i" +:+ pretty r;
  b2_aids : ∀ r it j a, item_store st !! r = Some it →
      actions it !! j = Some a →
      action_id a = item_id it +:+ "/a" +:+ pretty j;
  b2_acts : Forall (λ it, actions it ≠ []) (item_store st);
  b2_secs_nonempty : Forall (λ s, items s ≠ []) (sections st);
  b2_secs_sorted : Forall (λ s, StronglySorted lt (items s)) (sections st);
  b2_secs_first :
    section_id <$> sections st
    = first_seen (sid_of h chains <$> filter (λ n, eligible h n) L);
  b2_secs_fields : ∀ s, s ∈ sections st →
      ∃ n, first_with L (section_id s) n ∧ section_for n s;
}.

Lemma binv2_init : binv2 [] (mkB [] ∅ []).
Proof.
  split; cbn [item_store item_map sections]; try done.
  - by intros s ?%elem_of_nil.
Qed.

Lemma first_with_snoc (L : list nat) (sid : string) (n m : nat) :
  first_with L sid n → first_with (L ++ [m]) sid n.
Proof.
  intros (pre & post & -> & He & Hs & Hpre).
  exists pre, (post ++ [m]). split_and!; [|done..].
  by rewrite <-app_assoc.
Qed.

Lemma binv2_skip (L : list nat) (st : bstate) (n : nat) :
  ¬ eligible h n → binv2 L st → binv2 (L ++ [n]) st.
Proof.
  intros Hn [Hsz Hid Haid Hact Hne Hso Hfirst Hfld]. split; try done.
  - rewrite filter_app, (filter_cons_False _ n), filter_nil, app_nil_r by done.
    done.
  - intros s Hs. destruct (Hfld s Hs) as (m & Hm & Hsec).
    exists m. split; [by apply first_with_snoc|done].
Qed.

Lemma store_alter_lookup (store : list Item) (r : nat) (a : Action) (r' : nat)
    (it' : Item) :
  alter (add_action a) r store !! r' = Some it' →
  ∃ it, store !! r' = Some it
    ∧ (it' = it ∨ (r' = r ∧ it' = add_action a it)).
Proof.
  rewrite list_lookup_alter. case_decide as Hd.
  - subst r'. destruct (store !! r) as [it|]; [|done].
    intros [= <-]. exists it. split; [done|]. right. done.
  - intros Hit. exists it'. split; [done|by left].
Qed.

Lemma binv2_known (L : list nat) (st : bstate) (keys : list (string * nat))
    (n r : nat) :
  binv h chains L st keys → binv2 L st → eligible h n →
  item_map st !! key_of h chains n = Some r →
  binv2 (L ++ [n]) (visit_known h n r st).
Proof.
  intros Hinv [Hsz Hid Haid Hact Hne Hso Hfirst Hfld] He Hr.
  destruct (section_of_item h chains L st keys _ r Hinv Hr)
    as (s0 & Hs0 & _ & Hsid0). cbn [key_of fst] in Hsid0.
  assert (Hrl : r < length (item_store st)).
  { rewrite <-(bi_len _ _ _ _ _ Hinv).
    apply (bi_map _ _ _ _ _ Hinv) in Hr. by eapply lookup_lt_Some. }
  split; unfold visit_known; cbn [item_store item_map sections].
  - by rewrite length_alter.
  - intros k r' Hk. rewrite list_lookup_total_alter. case_decide as Hd.
    + destruct Hd as [<- _]. cbn [add_action item_id]. by apply Hid.
    + by apply Hid.
  - intros r' it' j a (it & Hit & [->|[-> ->]])%store_alter_lookup;
      [by eapply Haid|].
    cbn [add_action actions item_id]. intros Hj.
    apply lookup_snoc_Some in Hj as [[_ Hj]|[-> <-]]; [by eapply Haid|].
    cbn [action_of action_id].
    by rewrite (list_lookup_total_correct _ _ _ Hit).
  - apply Forall_forall. intros it' Hit'.
    apply list_elem_of_lookup_1 in Hit' as [r' Hit'].
    apply store_alter_lookup in Hit' as (it & Hit & [->|[-> ->]]).
    + rewrite Forall_forall in Hact. apply Hact. by eapply list_elem_of_lookup_2.
    + cbn [add_action actions]. by intros [_ ?]%app_nil.
  - done.
  - done.
  - rewrite filter_app, (filter_cons_True _ n), filter_nil, fmap_app by done.
    cbn [fmap list_fmap]. rewrite first_seen_snoc, <-Hfirst. unfold note.
    rewrite decide_True; [done|]. unfold key_of in Hsid0. cbn [fst] in Hsid0.
    rewrite <-Hsid0. by apply list_elem_of_fmap_2.
  - intros s Hs. destruct (Hfld s Hs) as (m & Hm & Hsec).
    exists m. split; [by apply first_with_snoc|done].
Qed.

Lemma items_below (L : list nat) (st : bstate) (keys : list (string * nat))
    (s : Section nat) (r : nat) :
  binv h chains L st keys → s ∈ sections st → r ∈ items s →
  r < length (item_store st).
Proof.
  intros Hinv Hs Hr.
  assert (Hin : r ∈ seq 0 (length (item_store st))).
  { rewrite <-(bi_secs_items _ _ _ _ _ Hinv).
    apply (elem_of_concat_2 _ (items s)); [|done]. by apply list_elem_of_fmap_2. }
  apply elem_of_seq in Hin. lia.
Qed.

Lemma sorted_snoc (l : list nat) (r : nat) :
  StronglySorted lt l → Forall (λ x, x < r) l → StronglySorted lt (l ++ [r]).
Proof.
  induction 1 as [|x l Hl IH Hx]; intros Hr; simpl.
  - repeat constructor.
  - apply Forall_cons in Hr as [Hxr Hr]. constructor; [by apply IH|].
    apply Forall_app. split; [done|by constructor].
Qed.

Lemma binv2_new (L : list nat) (st : bstate) (keys : list (string * nat))
    (n : nat) (key : string) :
  binv h chains L st keys → binv2 L st → eligible h n →
  item_map st !! key_of h chains n = None →
  binv2 (L ++ [n]) (visit_new h chains n key st).
Proof.
  intros Hinv [Hsz Hid Haid Hact Hne Hso Hfirst Hfld] He Hnone.
  set (k := key_of h chains n).
  set (r := length (item_store st)).
  pose proof (with_section_elem h chains n (sections st)) as Hsecs.
  split; unfold visit_new; fold k r; cbn [item_store item_map sections].
  - rewrite map_size_insert_None by done. rewrite length_app. simpl. lia.
  - intros k' r'. rewrite lookup_insert. case_decide as Hk.
    + intros [= <-]. subst k'. unfold r.
      rewrite list_lookup_total_middle by done. cbn [add_action item_id].
      by rewrite Hsz.
    + intros Hk'. rewrite lookup_total_app_l; [by apply Hid|].
      rewrite <-(bi_len _ _ _ _ _ Hinv).
      apply (bi_map _ _ _ _ _ Hinv) in Hk'. by eapply lookup_lt_Some.
  - intros r' it' j a Hit'.
    apply lookup_snoc_Some in Hit' as [[_ Hit']|[_ <-]]; [by eapply Haid|].
    cbn [add_action actions item_id app]. intros Hj.
    destruct j as [|j]; [|done]. injection Hj as <-. done.
  - apply Forall_app. split; [done|]. constructor; [done|constructor].
  - apply Forall_fmap, Forall_forall. intros s Hs. cbn [compose].
    rewrite with_item_items.
    destruct (Hsecs s Hs) as [Hold|[_ ->]].
    + rewrite Forall_forall in Hne. specialize (Hne s Hold).
      destruct (String.eqb _ _); [|done]. by intros [? _]%app_nil.
    + cbn [section_id items]. unfold k, key_of. cbn [fst].
      by rewrite String.eqb_refl.
  - apply Forall_fmap, Forall_forall. intros s Hs. cbn [compose].
    rewrite with_item_items.
    destruct (Hsecs s Hs) as [Hold|[_ ->]].
    + rewrite Forall_forall in Hso. specialize (Hso s Hold).
      destruct (String.eqb _ _); [|done]. apply sorted_snoc; [done|].
      apply Forall_forall. intros x Hx. by eapply items_below.
    + cbn [section_id items]. destruct (String.eqb _ _); repeat constructor.
  - rewrite with_item_ids, with_section_ids.
    rewrite filter_app, (filter_cons_True _ n), filter_nil, fmap_app by done.
    cbn [fmap list_fmap]. by rewrite first_seen_snoc, <-Hfirst.
  - intros s' (s & -> & Hs)%list_elem_of_fmap.
    destruct (with_item_id k.1 r s) as (Hi1 & Hi2 & Hi3).
    unfold section_for. rewrite Hi1, Hi2, Hi3.
    destruct (Hsecs s Hs) as [Hold|[Hnew ->]].
    + destruct (Hfld s Hold) as (m & Hm & Hsec).
      exists m. split; [by apply first_with_snoc|done].
    + exists n. cbn [section_id landmark heading_path]. split; [|done].
      exists L, []. split_and!; [done..|].
      apply Forall_forall. intros m Hm Hem Heq. apply Hnew.
      rewrite Hfirst. apply first_seen_keeps. rewrite <-Heq.
      apply list_elem_of_fmap_2, list_elem_of_filter. by split.
Qed.

End Loop2.

(** Every element of a list is seen. *)
Lemma first_seen_elem {A} `{EqDecision A} (l : list A) (x : A) :
  x ∈ first_seen l ↔ x ∈ l.
Proof.
  induction l as [|y l IH] using rev_ind; [done|].
  rewrite first_seen_snoc, elem_of_app, list_elem_of_singleton, <-IH.
  unfold note. case_decide as Hy.
  - split; [by left|]. intros [?| ->]; done.
  - by rewrite elem_of_app, list_elem_of_singleton.
Qed.

(** The key of an item is the salient text of its container. *)
Definition keyed (h : heap) (fuel : nat) (st : bstate) : Prop :=
  ∀ k r, item_map st !! k = Some r →
    first_salient_text fuel h k.2 = Ok (item_key (item_store st !!! r)).

Lemma keyed_known (h : heap) (fuel : nat) (st : bstate) (n r : nat) :
  keyed h fuel st → keyed h fuel (visit_known h n r st).
Proof.
  intros Hk k r' Hr'. unfold visit_known. cbn [item_store item_map] in *.
  rewrite list_lookup_total_alter. case_decide as Hd; [|by apply Hk].
  destruct Hd as [<- _]. cbn [add_action item_key]. by apply Hk.
Qed.

Lemma keyed_new (h : heap) (chains : gmap nat (list nat)) (fuel : nat)
    (L : list nat) (st : bstate) (keys : list (string * nat)) (n : nat)
    (key : string) :
  binv h chains L st keys → keyed h fuel st →
  first_salient_text fuel h (key_of h chains n).2 = Ok key →
  keyed h fuel (visit_new h chains n key st).
Proof.
  intros Hinv Hk Hkey k r'. unfold visit_new. cbn [item_store item_map].
  rewrite lookup_insert. case_decide as Hd.
  - intros [= <-]. subst k. by rewrite list_lookup_total_middle.
  - intros Hr'. rewrite lookup_total_app_l; [by apply Hk|].
    rewrite <-(bi_len _ _ _ _ _ Hinv).
    apply (bi_map _ _ _ _ _ Hinv) in Hr'. by eapply lookup_lt_Some.
Qed.

Section Built2.
Variables (h : heap) (kids : forest) (chains : gmap nat (list nat))
          (fuel : nat).
Hypothesis Hrepr : repr h (FCons 0 kids FNil).
Hypothesis Hpre : preorder (FCons 0 kids FNil) = seq 0 (length h).
Hypothesis Hfuel : length h < fuel.
Hypothesis Hall : ∀ n, n < length h → is_Some (chains !! n).
Hypothesis Hvalid : chains_valid h chains.

Lemma visit_inv2 (L : list nat) (st : bstate) (keys : list (string * nat))
    (n : nat) :
  binv h chains L st keys → binv2 h chains L st → keyed h fuel st →
  n < length h →
  ∃ st' keys', visit fuel h chains ROOT st n = Ok st'
    ∧ binv h chains (L ++ [n]) st' keys' ∧ binv2 h chains (L ++ [n]) st'
    ∧ keyed h fuel st'.
Proof.
  intros Hinv Hinv2 Hkeyed Hn.
  destruct (visit_inv h kids chains fuel Hrepr Hpre Hfuel Hall Hvalid
              L st keys n Hinv Hn) as (st' & keys' & Hv & Hinv').
  exists st', keys'. split; [done|]. split; [done|].
  pose proof (visit_cases h chains fuel L st st' keys n Hinv Hv) as Hc.
  destruct (eligible h n) eqn:He.
  - assert (He' : eligible h n) by by rewrite He.
    destruct (item_map st !! key_of h chains n) as [r|] eqn:Hk.
    + subst st'. split; [by eapply binv2_known|by apply keyed_known].
    + destruct Hc as (key & Hkey & ->).
      split; [by eapply binv2_new|by eapply keyed_new].
  - subst st'. split; [|done]. apply binv2_skip; [|done].
    rewrite He. simpl. tauto.
Qed.

Lemma visit_all_inv2 (ns L : list nat) (st : bstate)
    (keys : list (string * nat)) :
  binv h chains L st keys → binv2 h chains L st → keyed h fuel st →
  Forall (λ n, n < length h) ns →
  ∃ st' keys', visit_all fuel h chains ROOT st ns = Ok st'
    ∧ binv h chains (L ++ ns) st' keys' ∧ binv2 h chains (L ++ ns) st'
    ∧ keyed h fuel st'.
Proof.
  revert L st keys.
  induction ns as [|n ns IH]; intros L st keys Hinv Hinv2 Hkeyed Hns.
  { exists st, keys. by rewrite app_nil_r. }
  apply Forall_cons in Hns as [Hn Hns].
  destruct (visit_inv2 L st keys n Hinv Hinv2 Hkeyed Hn)
    as (st1 & keys1 & Hv & Hinv1 & Hinv21 & Hkeyed1).
  destruct (IH (L ++ [n]) st1 keys1 Hinv1 Hinv21 Hkeyed1 Hns)
    as (st' & keys' & Hrun & Hinv' & Hinv2' & Hkeyed').
  exists st', keys'. cbn [visit_all]. rewrite Hv. cbn [mbind result_bind].
  rewrite <-app_assoc in Hinv', Hinv2'. done.
Qed.
End Built2.

(** Everything the two invariants give about a run of
    [build_context_model]. *)
Lemma build_state_props (text : string) (fuel : nat) :
  String.length text + 2 ≤ fuel →
  ∃ h chains st keys,
    parse_snapshot text = Ok h
    ∧ ancestors_with_context fuel h ROOT = Ok chains
    ∧ build_state fuel text = Ok (h, st)
    ∧ build_context_model fuel text = Ok (resolve st)
    ∧ binv h chains (seq 0 (length h)) st keys
    ∧ binv2 h chains (seq 0 (length h)) st
    ∧ keyed h fuel st.
Proof.
  intros Hfuel.
  destruct (parse_snapshot_inv shape text)
    as (h & stack & Hp & Hinv & (kids & Hr & Hpre & _) & Hlen).
  { intros st st'. apply shape_step. }
  { apply shape_init. }
  cbn [fst] in Hr, Hpre.
  assert (Hf : length h < fuel) by lia.
  destruct (ancestors_spec h kids fuel Hr Hpre Hf)
    as (chains & Hanc & Hroot & Hall & Hedge).
  assert (Hvalid : chains_valid h chains).
  { eapply ancestors_valid; [|exact (pi_children _ _ Hinv)|exact Hanc].
    apply (pi_root _ _ Hinv). }
  destruct (visit_all_inv2 h kids chains fuel Hr Hpre Hf Hall Hvalid
              (seq 0 (length h)) [] (mkB [] ∅ []) []
              (binv_init h chains) (binv2_init h chains))
    as (st & keys & Hrun & Hb & Hb2 & Hkeyed).
  { intros k r. cbn [item_map]. by rewrite lookup_empty. }
  { apply Forall_forall. intros n Hn%elem_of_seq. lia. }
  assert (Hbs : build_state fuel text = Ok (h, st)).
  { unfold build_state. rewrite Hp. cbn [mbind result_bind]. rewrite Hanc.
    cbn [mbind result_bind]. rewrite (iter_nodes_root h kids fuel Hr Hpre Hf).
    cbn [mbind result_bind]. by rewrite Hrun. }
  exists h, chains, st, keys. split_and!; try done.
  unfold build_context_model. by rewrite Hbs.
Qed.

(** *** What the loop body computes from a chain *)

Lemma heading_path_short (h : heap) (ancs : list nat) :
  length (heading_path_for h ancs) ≤ 3.
Proof. unfold heading_path_for, last3. rewrite length_drop. lia. Qed.

Lemma role_in_elem (roles : list string) (r : string) :
  role_in roles r = true → r ∈ roles.
Proof.
  unfold role_in. intros (x & Hx & ->%String.eqb_eq)%existsb_exists.
  by apply list_elem_of_In.
Qed.

Lemma section_landmark_cases (h : heap) (ancs : list nat) :
  section_landmark_for h ancs = "unknown"
  ∨ section_landmark_for h ancs ∈ LANDMARK_ROLES.
Proof.
  unfold section_landmark_for, nearest_landmark.
  destruct (List.find _ _) as [lm|] eqn:Hf; [|by left].
  right. apply find_elem in Hf as [_ Hf]. by apply role_in_elem.
Qed.

(** Three buttons under two headings: the first and the third share the
    section of [Orders], and each sits in a list item of its own. *)
Definition two_sections : string :=
  snapshot ["- main";
            "  - heading " +:+ quoted "Orders";
            "    - listitem";
            "      - button " +:+ quoted "Open" +:+ " [ref=e1]";
            "      - link " +:+ quoted "Details" +:+ " [ref=e2]";
            "  - heading " +:+ quoted "Returns";
            "    - button " +:+ quoted "Start" +:+ " [ref=e3]";
            "  - heading " +:+ quoted "Orders";
            "    - listitem";
            "      - button " +:+ quoted "Close" +:+ " [ref=e4]"].

(** The ids of a model: of each section, of its items, of their
    actions. *)
Definition model_ids (model : list (Section Item))
    : list (string * list (string * list string)) :=
  (λ s, (section_id s,
         (λ it, (item_id it, action_id <$> actions it)) <$> items s))
    <$> model.

(** The run of [two_sections]: the item ids count the items of the whole
    model, so the second item of the first section is number 2. *)
Example build_context_model_two_sections :
  ∃ model, build_context_model 100 two_sections = Ok model
    ∧ model_ids model
      = [("s_main_Orders",
          [("s_main_Orders/i0",
            ["s_main_Orders/i0/a0"; "s_main_Orders/i0/a1"]);
           ("s_main_Orders/i2", ["s_main_Orders/i2/a0"])]);
         ("s_main_Returns",
          [("s_main_Returns/i1", ["s_main_Returns/i1/a0"])])].
Proof. eexists. split; vm_compute; reflexivity. Qed.

Lemma filter_nil_not {A} (P : A → Prop) `{!∀ x, Decision (P x)} (l : list A) :
  filter P l = [] → Forall (λ x, ¬ P x) l.
Proof.
  induction l as [|x l IH]; [constructor|]. rewrite filter_cons.
  case_decide; [done|]. intros Hl. constructor; [done|by apply IH].
Qed.

Lemma resolve_elem (st : bstate) (s : Section Item) :
  s ∈ resolve st →
  ∃ s0, s0 ∈ sections st ∧ section_id s = section_id s0
    ∧ landmark s = landmark s0 ∧ heading_path s = heading_path s0
    ∧ items s = (λ r, item_store st !!! r) <$> items s0.
Proof.
  unfold resolve. intros (s0 & -> & Hs0)%list_elem_of_fmap.
  by exists s0.
Qed.

Lemma seq_split (n : nat) (pre post : list nat) (x : nat) :
  seq 0 n = pre ++ x :: post → pre = seq 0 x.
Proof.
  intros Heq.
  pose proof (ParserProps.seq_block 0 n [] pre (x :: post) Heq) as Hpre.
  pose proof (ParserProps.seq_block 0 n pre [x] post Heq) as Hx.
  simpl in Hpre, Hx. injection Hx as Hx. by rewrite Hx.
Qed.

(** X8. For every text (and enough fuel), every item of the model of
    [build_context_model] is registered under the pair of its section id
    and one container node, carries the role of that node and the key that
    [first_salient_text] gives for it, and lists the actions of exactly
    the interactive nodes with a ref that have this section id and this
    container, in the order in which the nodes appear in the snapshot. *)
Theorem item_actions_in_document_order (text : string) (fuel : nat) :
  String.length text + 2 ≤ fuel →
  ∃ h chains st,
    parse_snapshot text = Ok h
    ∧ ancestors_with_context fuel h ROOT = Ok chains
    ∧ build_state fuel text = Ok (h, st)
    ∧ build_context_model fuel text = Ok (resolve st)
    ∧ ∀ s r, s ∈ sections st → r ∈ items s →
        ∃ c, item_map st !! (section_id s, c) = Some r
          ∧ container_role (item_store st !!! r) = role (h !!! c)
          ∧ first_salient_text fuel h c = Ok (item_key (item_store st !!! r))
          ∧ action_core <$> actions (item_store st !!! r)
            = node_core h <$>
                filter (λ n, eligible h n
                             ∧ key_of h chains n = (section_id s, c))
                       (seq 0 (length h)).
Proof.
  intros Hfuel.
  destruct (build_state_props text fuel Hfuel)
    as (h & chains & st & keys & Hp & Ha & Hb & Hm & Hinv & _ & Hkeyed).
  exists h, chains, st. split_and!; [done..|]. intros s r Hs Hr.
  pose proof (items_below h chains _ st keys s r Hinv Hs Hr) as Hlt.
  rewrite <-(bi_len _ _ _ _ _ Hinv) in Hlt.
  apply lookup_lt_is_Some in Hlt as [[sid c] Hk].
  pose proof (bi_secs_key _ _ _ _ _ Hinv s r _ Hs Hr Hk) as Hsid.
  cbn [fst] in Hsid. subst sid. exists c.
  destruct (bi_item _ _ _ _ _ Hinv r _ Hk) as [Hrole Hacts].
  apply (bi_map _ _ _ _ _ Hinv) in Hk.
  split_and!; [done|done|exact (Hkeyed _ _ Hk)|done].
Qed.

Lemma item_actions_in_document_order_witness :
  String.length two_sections + 2 ≤ 400
  ∧ ∃ h chains st,
      parse_snapshot two_sections = Ok h
      ∧ ancestors_with_context 400 h ROOT = Ok chains
      ∧ build_state 400 two_sections = Ok (h, st)
      ∧ build_context_model 400 two_sections = Ok (resolve st)
      ∧ ∀ s r, s ∈ sections st → r ∈ items s →
          ∃ c, item_map st !! (section_id s, c) = Some r
            ∧ container_role (item_store st !!! r) = role (h !!! c)
            ∧ first_salient_text 400 h c = Ok (item_key (item_store st !!! r))
            ∧ action_core <$> actions (item_store st !!! r)
              = node_core h <$>
                  filter (λ n, eligible h n
                               ∧ key_of h chains n = (section_id s, c))
                         (seq 0 (length h)).
Proof.
  assert (H : String.length two_sections + 2 ≤ 400) by (vm_compute; lia).
  split; [exact H|]. exact (item_actions_in_document_order two_sections 400 H).
Defined.

(** X9. For every text (and enough fuel), the sections of the model come
    in the order in which their ids are first met among the interactive
    nodes with a ref, taken in snapshot order; the landmark and the
    heading path of a section are those of the first such node with its
    id, the id is built from them, the heading path has at most three
    entries and the landmark is a landmark role or [unknown]. *)
Theorem sections_follow_first_nodes (text : string) (fuel : nat) :
  String.length text + 2 ≤ fuel →
  ∃ h chains model,
    parse_snapshot text = Ok h
    ∧ ancestors_with_context fuel h ROOT = Ok chains
    ∧ build_context_model fuel text = Ok model
    ∧ section_id <$> model
      = first_seen (sid_of h chains
                      <$> filter (λ n, eligible h n) (seq 0 (length h)))
    ∧ ∀ s, s ∈ model →
        ∃ n, n < length h ∧ eligible h n
          ∧ (∀ m, m < n → eligible h m → sid_of h chains m ≠ section_id s)
          ∧ landmark s = section_landmark_for h (ancs_of chains n)
          ∧ heading_path s = heading_path_for h (ancs_of chains n)
          ∧ section_id s = section_id_for (landmark s) (heading_path s)
          ∧ length (heading_path s) ≤ 3
          ∧ (landmark s = "unknown" ∨ landmark s ∈ LANDMARK_ROLES).
Proof.
  intros Hfuel.
  destruct (build_state_props text fuel Hfuel)
    as (h & chains & st & keys & Hp & Ha & Hb & Hm & Hinv & Hinv2 & Hkeyed).
  exists h, chains, (resolve st). split_and!; [done..| |].
  - rewrite <-(b2_secs_first _ _ _ _ Hinv2). unfold resolve.
    by rewrite <-list_fmap_compose.
  - intros s (s0 & Hs0 & Hid & Hlm & Hhp & _)%resolve_elem.
    destruct (b2_secs_fields _ _ _ _ Hinv2 s0 Hs0)
      as (n & (pre & post & Heq & He & Hsid & Hpre) & (Hf1 & Hf2 & Hf3)).
    pose proof (seq_split _ _ _ _ Heq) as ->.
    assert (Hn : n < length h).
    { assert (Hin : n ∈ seq 0 (length h)) by (rewrite Heq; set_solver).
      apply elem_of_seq in Hin. lia. }
    exists n. rewrite Hid, Hlm, Hhp, Hf2, Hf3. split_and!; [done|done| |done|done| | |].
    + intros m Hlt. rewrite Forall_forall in Hpre. apply Hpre.
      apply elem_of_seq. lia.
    + by rewrite Hf1.
    + apply heading_path_short.
    + apply section_landmark_cases.
Qed.

Lemma sections_follow_first_nodes_witness :
  String.length two_sections + 2 ≤ 400
  ∧ ∃ h chains model,
      parse_snapshot two_sections = Ok h
      ∧ ancestors_with_context 400 h ROOT = Ok chains
      ∧ build_context_model 400 two_sections = Ok model
      ∧ section_id <$> model
        = first_seen (sid_of h chains
                        <$> filter (λ n, eligible h n) (seq 0 (length h)))
      ∧ ∀ s, s ∈ model →
          ∃ n, n < length h ∧ eligible h n
            ∧ (∀ m, m < n → eligible h m → sid_of h chains m ≠ section_id s)
            ∧ landmark s = section_landmark_for h (ancs_of chains n)
            ∧ heading_path s = heading_path_for h (ancs_of chains n)
            ∧ section_id s = section_id_for (landmark s) (heading_path s)
            ∧ length (heading_path s) ≤ 3
            ∧ (landmark s = "unknown" ∨ landmark s ∈ LANDMARK_ROLES).
Proof.
  assert (H : String.length two_sections + 2 ≤ 400) by (vm_compute; lia).
  split; [exact H|]. exact (sections_follow_first_nodes two_sections 400 H).
Defined.

(** X10. For every text (and enough fuel), no section of the model is
    without items and no item is without actions; the model has no
    section at all exactly when no node of the snapshot is interactive
    with a ref. *)
Theorem model_has_no_empty_part (text : string) (fuel : nat) :
  String.length text + 2 ≤ fuel →
  ∃ h model,
    parse_snapshot text = Ok h
    ∧ build_context_model fuel text = Ok model
    ∧ Forall (λ s, items s ≠ [] ∧ Forall (λ it, actions it ≠ []) (items s))
             model
    ∧ (model = [] ↔ ∀ n, n < length h → ¬ eligible h n).
Proof.
  intros Hfuel.
  destruct (build_state_props text fuel Hfuel)
    as (h & chains & st & keys & Hp & Ha & Hb & Hm & Hinv & Hinv2 & Hkeyed).
  exists h, (resolve st). split_and!; [done..| |].
  - apply Forall_forall. intros s (s0 & Hs0 & _ & _ & _ & Hit)%resolve_elem.
    pose proof (b2_secs_nonempty _ _ _ _ Hinv2) as Hne.
    rewrite Forall_forall in Hne. specialize (Hne s0 Hs0).
    rewrite Hit. split.
    + by intros ?%fmap_nil_inv.
    + apply Forall_fmap, Forall_forall. intros r Hr. cbn [compose].
      pose proof (items_below h chains _ st keys s0 r Hinv Hs0 Hr) as Hlt.
      pose proof (b2_acts _ _ _ _ Hinv2) as Hact.
      rewrite Forall_forall in Hact. apply Hact.
      apply list_elem_of_lookup_total_2. done.
  - pose proof (b2_secs_first _ _ _ _ Hinv2) as Hfirst. split.
    + intros Hnil. unfold resolve in Hnil. apply fmap_nil_inv in Hnil.
      rewrite Hnil in Hfirst. symmetry in Hfirst.
      apply first_seen_nil, fmap_nil_inv, filter_nil_not in Hfirst.
      rewrite Forall_forall in Hfirst. intros n Hn. apply Hfirst.
      apply elem_of_seq. lia.
    + intros Hnone. unfold resolve.
      rewrite filter_none in Hfirst.
      * apply fmap_nil_inv in Hfirst. by rewrite Hfirst.
      * apply Forall_forall. intros n Hn%elem_of_seq. apply Hnone. lia.
Qed.

Lemma model_has_no_empty_part_witness :
  String.length two_sections + 2 ≤ 400
  ∧ ∃ h model,
      parse_snapshot two_sections = Ok h
      ∧ build_context_model 400 two_sections = Ok model
      ∧ Forall (λ s, items s ≠ [] ∧ Forall (λ it, actions it ≠ []) (items s))
               model
      ∧ (model = [] ↔ ∀ n, n < length h → ¬ eligible h n).
Proof.
  assert (H : String.length two_sections + 2 ≤ 400) by (vm_compute; lia).
  split; [exact H|]. exact (model_has_no_empty_part two_sections 400 H).
Defined.

(** X11. For every text (and enough fuel), the items of the model are
    numbered in the order of their creation by one counter for the whole
    model: the references listed by the sections are the numbers from
    zero up, each once, ascending inside a section; the id of item number
    [r] is the id of its section, [/i] and [r], and the id of the action
    at position [j] of an item is the id of the item, [/a] and [j]. *)
Theorem ids_count_items_and_actions (text : string) (fuel : nat) :
  String.length text + 2 ≤ fuel →
  ∃ h st,
    build_state fuel text = Ok (h, st)
    ∧ build_context_model fuel text = Ok (resolve st)
    ∧ concat (items <$> sections st) ≡ₚ seq 0 (length (item_store st))
    ∧ ∀ s, s ∈ sections st →
        StronglySorted lt (items s)
        ∧ ∀ r, r ∈ items s →
            item_id (item_store st !!! r) = section_id s +:+ "/i" +:+ pretty r
            ∧ ∀ j a, actions (item_store st !!! r) !! j = Some a →
                action_id a
                = item_id (item_store st !!! r) +:+ "/a" +:+ pretty j.
Proof.
  intros Hfuel.
  destruct (build_state_props text fuel Hfuel)
    as (h & chains & st & keys & Hp & Ha & Hb & Hm & Hinv & Hinv2 & Hkeyed).
  exists h, st. split_and!; [done|done|exact (bi_secs_items _ _ _ _ _ Hinv)|].
  intros s Hs. split.
  { pose proof (b2_secs_sorted _ _ _ _ Hinv2) as Hso.
    rewrite Forall_forall in Hso. by apply Hso. }
  intros r Hr.
  pose proof (items_below h chains _ st keys s r Hinv Hs Hr) as Hlt.
  pose proof Hlt as Hlt'. rewrite <-(bi_len _ _ _ _ _ Hinv) in Hlt'.
  apply lookup_lt_is_Some in Hlt' as [k Hk].
  pose proof (bi_secs_key _ _ _ _ _ Hinv s r _ Hs Hr Hk) as Hsid.
  apply (bi_map _ _ _ _ _ Hinv) in Hk. split.
  - rewrite <-Hsid. by apply (b2_ids _ _ _ _ Hinv2).
  - intros j a Hj. apply (b2_aids _ _ _ _ Hinv2 r); [|done].
    by apply list_lookup_lookup_total_lt.
Qed.

Lemma ids_count_items_and_actions_witness :
  String.length two_sections + 2 ≤ 400
  ∧ ∃ h st,
      build_state 400 two_sections = Ok (h, st)
      ∧ build_context_model 400 two_sections = Ok (resolve st)
      ∧ concat (items <$> sections st) ≡ₚ seq 0 (length (item_store st))
      ∧ ∀ s, s ∈ sections st →
          StronglySorted lt (items s)
          ∧ ∀ r, r ∈ items s →
              item_id (item_store st !!! r) = section_id s +:+ "/i" +:+ pretty r
              ∧ ∀ j a, actions (item_store st !!! r) !! j = Some a →
                  action_id a
                  = item_id (item_store st !!! r) +:+ "/a" +:+ pretty j.
Proof.
  assert (H : String.length two_sections + 2 ≤ 400) by (vm_compute; lia).
  split; [exact H|]. exact (ids_count_items_and_actions two_sections 400 H).
Defined.

End ContextProps.

(** ** The ids of the model are unique *)

Module ContextIds.
Import Text Parser Walk Context ContextFacts ContextProps.
Import Samples.

(** *** A number at the end of a string can be read back *)

Lemma head_run_inj (P : ascii → Prop) (c : ascii) (x y a b : list ascii) :
  ¬ P c → Forall P x → Forall P y →
  x ++ c :: a = y ++ c :: b → x = y ∧ a = b.
Proof.
  intros Hc Hx. revert y.
  induction Hx as [|d x Hd Hx IH]; intros y Hy; simpl.
  - destruct Hy as [|e y He Hy]; simpl; [by intros [= ->]|].
    intros [= <- _]. done.
  - destruct Hy as [|e y He Hy]; simpl; [intros [= -> _]; done|].
    intros [= <- Heq]. destruct (IH y Hy Heq) as [-> ->]. done.
Qed.

Lemma tail_run_inj (P : ascii → Prop) (c : ascii) (a b x y : list ascii) :
  ¬ P c → Forall P x → Forall P y →
  a ++ c :: x = b ++ c :: y → a = b ∧ x = y.
Proof.
  intros Hc Hx Hy Heq. apply (f_equal reverse) in Heq.
  rewrite !reverse_app, !reverse_cons, <-!app_assoc in Heq. simpl in Heq.
  apply (head_run_inj P) in Heq as [Hxy Hab];
    [|done|by apply Forall_reverse..].
  split.
  - by apply (inj reverse).
  - by apply (inj reverse).
Qed.

Definition chars (s : string) : list ascii := list_ascii_of_string s.

Lemma chars_app (a b : string) : chars (a +:+ b) = chars a ++ chars b.
Proof. induction a as [|c a IH]; simpl; [done|]. by rewrite <-IH. Qed.

Lemma chars_inj (a b : string) : chars a = chars b → a = b.
Proof.
  intros Heq. rewrite <-(string_of_list_ascii_of_string a).
  rewrite <-(string_of_list_ascii_of_string b). unfold chars in Heq.
  by rewrite Heq.
Qed.

Lemma all_chars_Forall (p : ascii → bool) (s : string) :
  all_chars p s = true → Forall (λ c, p c = true) (chars s).
Proof.
  induction s as [|c s IH]; simpl; [constructor|].
  intros [Hc Hs]%andb_true_iff. constructor; [done|by apply IH].
Qed.

Lemma pretty_N_char_digit (y : N) : is_digit (pretty_N_char y) = true.
Proof.
  destruct y as [|p]; [done|].
  do 4 (try destruct p as [p|p|]); reflexivity.
Qed.

Lemma pretty_N_go_digits (x : N) (s : string) :
  all_chars is_digit s = true → all_chars is_digit (pretty_N_go x s) = true.
Proof.
  revert s. induction (N.lt_wf_0 x) as [x _ IH]. intros s Hs.
  destruct (decide (x = 0)%N) as [->|Hx]; [by rewrite pretty_N_go_0|].
  rewrite pretty_N_go_step by lia. apply IH.
  - apply N.div_lt; lia.
  - simpl. by rewrite pretty_N_char_digit.
Qed.

Lemma pretty_nat_digits (n : nat) : all_chars is_digit (pretty n) = true.
Proof.
  unfold pretty, pretty_nat, pretty, pretty_N.
  case_decide; [done|]. by apply pretty_N_go_digits.
Qed.

(** Two strings that end with the same separator followed by a number
    are equal only if the numbers are the same and what comes before the
    separator is the same. *)
Lemma numbered_inj (a b : string) (c : ascii) (i j : nat) :
  is_digit c = false →
  a +:+ String c (pretty i) = b +:+ String c (pretty j) → a = b ∧ i = j.
Proof.
  intros Hc Heq. apply (f_equal chars) in Heq.
  rewrite !chars_app in Heq. simpl in Heq.
  apply (tail_run_inj (λ d, is_digit d = true)) in Heq as [Hab Hij].
  - split; [by apply chars_inj|]. apply chars_inj in Hij.
    by apply (inj pretty) in Hij.
  - by rewrite Hc.
  - apply all_chars_Forall, pretty_nat_digits.
  - apply all_chars_Forall, pretty_nat_digits.
Qed.

Lemma append_cons_r (a : string) (c : ascii) (s : string) :
  a +:+ String c s = (a +:+ String c EmptyString) +:+ s.
Proof.
  apply chars_inj. rewrite !chars_app. simpl. by rewrite <-app_assoc.
Qed.

Lemma item_id_inj (s1 s2 : string) (r1 r2 : nat) :
  s1 +:+ "/i" +:+ pretty r1 = s2 +:+ "/i" +:+ pretty r2 → r1 = r2.
Proof.
  change ("/i" +:+ pretty r1) with (String "/" (String "i" (pretty r1))).
  change ("/i" +:+ pretty r2) with (String "/" (String "i" (pretty r2))).
  rewrite (append_cons_r s1), (append_cons_r s2).
  by intros [_ ?]%numbered_inj.
Qed.

Lemma action_id_inj (s1 s2 : string) (j1 j2 : nat) :
  s1 +:+ "/a" +:+ pretty j1 = s2 +:+ "/a" +:+ pretty j2 → s1 = s2 ∧ j1 = j2.
Proof.
  change ("/a" +:+ pretty j1) with (String "/" (String "a" (pretty j1))).
  change ("/a" +:+ pretty j2) with (String "/" (String "a" (pretty j2))).
  rewrite (append_cons_r s1), (append_cons_r s2).
  intros [Hs ?]%numbered_inj; [|done]. split; [|done].
  apply (f_equal chars) in Hs. rewrite !chars_app in Hs.
  apply app_inv_tail in Hs. by apply chars_inj.
Qed.

(** *** The items and the actions of a model *)

Definition all_items (model : list (Section Item)) : list Item :=
  model ≫= items.

Definition all_actions (model : list (Section Item)) : list Action :=
  all_items model ≫= actions.

Lemma fmap_lookup_seq {A} `{!Inhabited A} (l : list A) :
  (λ r, l !!! r) <$> seq 0 (length l) = l.
Proof.
  induction l as [|x l IH] using rev_ind; [done|].
  rewrite length_app. simpl. rewrite Nat.add_1_r, seq_S, fmap_app. simpl.
  rewrite list_lookup_total_middle by done. f_equal.
  rewrite <-IH at 2. apply list_fmap_ext. intros i r Hr.
  apply lookup_seq in Hr as [-> Hr]. simpl.
  by rewrite lookup_total_app_l.
Qed.

Lemma fmap_bind_list {A B C} (f : B → C) (g : A → list B) (l : list A) :
  f <$> (l ≫= g) = l ≫= (λ x, f <$> g x).
Proof.
  induction l as [|x l IH]; [done|]. by rewrite !bind_cons, fmap_app, IH.
Qed.

Lemma all_items_resolve (st : bstate) :
  all_items (resolve st)
  = (λ r, item_store st !!! r) <$> concat (items <$> sections st).
Proof.
  unfold all_items, resolve.
  induction (sections st) as [|s secs IH]; [done|].
  rewrite !fmap_cons, bind_cons, IH. cbn [concat items]. by rewrite fmap_app.
Qed.

Lemma all_items_store (h : heap) (chains : gmap nat (list nat)) (L : list nat)
    (st : bstate) (keys : list (string * nat)) :
  binv h chains L st keys → all_items (resolve st) ≡ₚ item_store st.
Proof.
  intros Hinv. rewrite all_items_resolve, (bi_secs_items _ _ _ _ _ Hinv).
  by rewrite fmap_lookup_seq.
Qed.

Lemma store_item_ids (h : heap) (chains : gmap nat (list nat)) (L : list nat)
    (st : bstate) (keys : list (string * nat)) (r : nat) :
  binv h chains L st keys → binv2 h chains L st →
  r < length (item_store st) →
  ∃ sid, item_id (item_store st !!! r) = sid +:+ "/i" +:+ pretty r.
Proof.
  intros Hinv Hinv2 Hr. rewrite <-(bi_len _ _ _ _ _ Hinv) in Hr.
  apply lookup_lt_is_Some in Hr as [k Hk].
  apply (bi_map _ _ _ _ _ Hinv) in Hk. exists k.1.
  by apply (b2_ids _ _ _ _ Hinv2).
Qed.

Lemma store_ids_unique (h : heap) (chains : gmap nat (list nat)) (L : list nat)
    (st : bstate) (keys : list (string * nat)) :
  binv h chains L st keys → binv2 h chains L st →
  NoDup (item_id <$> item_store st)
  ∧ NoDup (action_id <$> (item_store st ≫= actions)).
Proof.
  intros Hinv Hinv2.
  assert (Hitem : ∀ r1 r2, r1 < length (item_store st) →
            r2 < length (item_store st) →
            item_id (item_store st !!! r1) = item_id (item_store st !!! r2) →
            r1 = r2).
  { intros r1 r2 H1 H2.
    destruct (store_item_ids h chains L st keys r1 Hinv Hinv2 H1) as [s1 ->].
    destruct (store_item_ids h chains L st keys r2 Hinv Hinv2 H2) as [s2 ->].
    apply item_id_inj. }
  split.
  - apply NoDup_alt. intros r1 r2 x.
    rewrite !list_lookup_fmap. intros H1 H2.
    destruct (item_store st !! r1) as [i1|] eqn:E1; [|done].
    destruct (item_store st !! r2) as [i2|] eqn:E2; [|done].
    simpl in H1, H2. apply Hitem.
    + by eapply lookup_lt_Some.
    + by eapply lookup_lt_Some.
    + rewrite (list_lookup_total_correct _ _ _ E1).
      rewrite (list_lookup_total_correct _ _ _ E2). congruence.
  - rewrite fmap_bind_list.
    rewrite <-(bind_seq_lookup (λ it, action_id <$> actions it) []
                 (item_store st)).
    cbn [length app].
    assert (Hact : ∀ r j a, r < length (item_store st) →
              actions (item_store st !!! r) !! j = Some a →
              action_id a
              = item_id (item_store st !!! r) +:+ "/a" +:+ pretty j).
    { intros r j a Hr. apply (b2_aids _ _ _ _ Hinv2 r).
      by apply list_lookup_lookup_total_lt. }
    apply NoDup_bind; [| |apply NoDup_seq].
    + intros r1 r2 y Hr1%elem_of_seq Hr2%elem_of_seq.
      intros (a1 & -> & [j1 Hj1]%list_elem_of_lookup_1)%list_elem_of_fmap.
      intros (a2 & Hy & [j2 Hj2]%list_elem_of_lookup_1)%list_elem_of_fmap.
      rewrite (Hact r1 j1 a1), (Hact r2 j2 a2) in Hy by (done || lia).
      apply action_id_inj in Hy as [Hy _]. apply Hitem; [lia|lia|done].
    + intros r Hr%elem_of_seq. apply NoDup_alt. intros j1 j2 y.
      rewrite !list_lookup_fmap. intros H1 H2.
      destruct (actions (item_store st !!! r) !! j1) as [a1|] eqn:E1; [|done].
      destruct (actions (item_store st !!! r) !! j2) as [a2|] eqn:E2; [|done].
      simpl in H1, H2. injection H1 as <-. injection H2 as H2.
      rewrite (Hact r j1 a1), (Hact r j2 a2) in H2 by (done || lia).
      by apply action_id_inj in H2 as [_ ?].
Qed.

(** X12. For every text (and enough fuel), no two items of the model of
    [build_context_model] have the same id and no two actions have the
    same id, across all sections. *)
Theorem model_ids_unique (text : string) (fuel : nat) :
  String.length text + 2 ≤ fuel →
  ∃ model,
    build_context_model fuel text = Ok model
    ∧ NoDup (item_id <$> all_items model)
    ∧ NoDup (action_id <$> all_actions model).
Proof.
  intros Hfuel.
  destruct (build_state_props text fuel Hfuel)
    as (h & chains & st & keys & Hp & Ha & Hb & Hm & Hinv & Hinv2 & _).
  exists (resolve st). split; [done|].
  destruct (store_ids_unique h chains _ st keys Hinv Hinv2) as [Hi Hact].
  pose proof (all_items_store h chains _ st keys Hinv) as Hperm.
  unfold all_actions. by rewrite Hperm.
Qed.

Lemma model_ids_unique_witness :
  String.length two_sections + 2 ≤ 400
  ∧ ∃ model,
      build_context_model 400 two_sections = Ok model
      ∧ NoDup (item_id <$> all_items model)
      ∧ NoDup (action_id <$> all_actions model).
Proof.
  assert (H : String.length two_sections + 2 ≤ 400) by (vm_compute; lia).
  split; [exact H|]. exact (model_ids_unique two_sections 400 H).
Defined.

End ContextIds.

(** * Further properties of the chunker *)

Module ChunkerProps.
Import Text Parser ParserFacts Shape Walk WalkFacts Builtins Chunker.
Import ContextFacts ParserProps.
Import Samples.

(** *** The order of the chunk roots *)

(** A stable ascending sort by a key with the two values 0 and 1 puts
    the elements with key 0 first and keeps both groups in order. *)
Section TwoRanks.
Context {A : Type} (key : A → Z).

Lemma insert_asc_two (x : A) (zs os : list A) :
  Forall (λ y, key y = 0%Z) zs → Forall (λ y, key y = 1%Z) os →
  insert_asc key x (zs ++ os)
  = if decide (key x = 0%Z) then x :: zs ++ os
    else if decide (key x = 1%Z) then zs ++ x :: os
    else insert_asc key x (zs ++ os).
Proof.
  intros Hz Ho. destruct (decide (key x = 0%Z)) as [H0|H0].
  { destruct zs as [|z zs]; simpl.
    - destruct os as [|o os]; simpl; [done|].
      apply Forall_cons in Ho as [Ho _].
      by rewrite (proj2 (Z.leb_le _ _)) by lia.
    - apply Forall_cons in Hz as [Hz _].
      by rewrite (proj2 (Z.leb_le _ _)) by lia. }
  destruct (decide (key x = 1%Z)) as [H1|H1]; [|done].
  induction Hz as [|z zs Hz _ IH]; simpl.
  - destruct Ho as [|o os Ho _]; simpl; [done|].
    by rewrite (proj2 (Z.leb_le _ _)) by lia.
  - rewrite (proj2 (Z.leb_gt _ _)) by lia. by rewrite IH.
Qed.

Lemma sorted_asc_two (l : list A) :
  Forall (λ x, key x = 0%Z ∨ key x = 1%Z) l →
  sorted_asc key l
  = filter (λ x, key x = 0%Z) l ++ filter (λ x, key x = 1%Z) l.
Proof.
  induction 1 as [|x l Hx _ IH]; [done|]. simpl.
  change (foldr (insert_asc key) [] l) with (sorted_asc key l). rewrite IH.
  rewrite insert_asc_two.
  - rewrite !(filter_cons _ x).
    destruct (decide (key x = 0%Z)) as [H0|H0];
      destruct (decide (key x = 1%Z)) as [H1|H1]; try done; lia.
  - apply Forall_forall. by intros y [? _]%list_elem_of_filter.
  - apply Forall_forall. by intros y [? _]%list_elem_of_filter.
Qed.
End TwoRanks.

Definition REPEATER_ROOT_ROLES : list string := ["rowgroup"; "list"].

Lemma chunk_root_roles (r : string) :
  role_in CHUNK_ROOT_ROLES r
  = role_in LANDMARK_ROLES r || role_in REPEATER_ROOT_ROLES r.
Proof.
  unfold role_in. simpl.
  destruct (r =? "main")%string, (r =? "navigation")%string,
    (r =? "contentinfo")%string, (r =? "rowgroup")%string,
    (r =? "list")%string; reflexivity.
Qed.

Lemma landmark_not_repeater (r : string) :
  role_in LANDMARK_ROLES r = true → role_in REPEATER_ROOT_ROLES r = false.
Proof.
  unfold role_in. simpl. rewrite !orb_false_r, !orb_true_iff.
  intros [->%String.eqb_eq|[->%String.eqb_eq| ->%String.eqb_eq]]; reflexivity.
Qed.

Lemma chunk_roots_split (h : heap) (nodes : list nat) :
  role (h !!! ROOT) = "root" →
  sorted_asc (rank h)
    (filter (λ n, role_in CHUNK_ROOT_ROLES (role (h !!! n))
                  && negb (Nat.eqb n ROOT)) nodes)
  = filter (λ n, role_in LANDMARK_ROLES (role (h !!! n))) nodes
    ++ filter (λ n, role_in REPEATER_ROOT_ROLES (role (h !!! n))) nodes.
Proof.
  intros Hroot.
  assert (Hrank : ∀ n, rank h n = if role_in LANDMARK_ROLES (role (h !!! n))
                                   then 0%Z else 1%Z) by done.
  rewrite sorted_asc_two.
  2:{ apply Forall_forall. intros n _. rewrite Hrank.
      destruct (role_in LANDMARK_ROLES _); [by left|by right]. }
  rewrite !list_filter_filter. f_equal.
  - apply list_filter_iff. intros n. rewrite Hrank, chunk_root_roles.
    destruct (role_in LANDMARK_ROLES (role (h !!! n))) eqn:Hl; cbn [orb andb].
    + split; [done|]. intros _. split; [done|].
      destruct (Nat.eqb_spec n ROOT) as [->|]; [|done].
      rewrite Hroot in Hl. done.
    + split; [by intros [? _]|done].
  - apply list_filter_iff. intros n. rewrite Hrank, chunk_root_roles.
    destruct (role_in LANDMARK_ROLES (role (h !!! n))) eqn:Hl; cbn [orb andb].
    + rewrite (landmark_not_repeater _ Hl). split; [by intros [? _]|done].
    + split; [by intros [_ [? _]%andb_True]|]. intros Hr. split; [done|].
      apply andb_True. split; [done|].
      destruct (Nat.eqb_spec n ROOT) as [->|]; [|done].
      rewrite Hroot in Hr. done.
Qed.

(** *** The lines of a serialised subtree *)

(** The lines of a forest whose roots are at depth [d]. *)
Fixpoint forest_lines (h : heap) (d : nat) (f : forest) : list string :=
  match f with
  | FNil => []
  | FCons n kids sibs =>
      render_line (h !!! n) d :: forest_lines h (S d) kids
        ++ forest_lines h d sibs
  end.

(** The stack of [serialize_subtree] with, beside each entry, the forest
    below its node. *)
Fixpoint stack_lines (h : heap) (stk : list (nat * nat * forest))
    : list string :=
  match stk with
  | [] => []
  | (n, d, k) :: rest =>
      render_line (h !!! n) d :: forest_lines h (S d) k ++ stack_lines h rest
  end.

Definition trees_at (d : nat) (f : forest) : list (nat * nat * forest) :=
  (λ t, (t.1, d, t.2)) <$> trees f.

Lemma stack_lines_trees (h : heap) (d : nat) (f : forest)
    (rest : list (nat * nat * forest)) :
  stack_lines h (trees_at d f ++ rest) = forest_lines h d f ++ stack_lines h rest.
Proof.
  unfold trees_at. induction f as [|n kids _ sibs IH]; [done|].
  cbn [trees]. rewrite fmap_cons. cbn [app stack_lines forest_lines fst snd].
  rewrite IH. by rewrite <-!app_assoc.
Qed.

Lemma trees_at_entries (d : nat) (f : forest) :
  (trees_at d f).*1 = (λ c, (c, d)) <$> roots f.
Proof.
  unfold trees_at. rewrite <-trees_roots, <-!list_fmap_compose.
  by apply list_fmap_ext.
Qed.

Lemma trees_at_ok (h : heap) (d : nat) (f : forest) :
  repr h f → Forall (λ t, tree_ok h (t.1.1, t.2)) (trees_at d f).
Proof.
  intros Hr. unfold trees_at. apply Forall_fmap.
  eapply Forall_impl; [by apply trees_ok|]. by intros [n k].
Qed.

Lemma serialize_loop_spec (h : heap) (room : nat)
    (stk : list (nat * nat * forest)) (lines : list string) :
  Forall (λ t, tree_ok h (t.1.1, t.2)) stk →
  serialize_loop room h (stk.*1) lines = lines ++ take room (stack_lines h stk).
Proof.
  revert stk lines. induction room as [|room IH]; intros stk lines Hok.
  { simpl. by rewrite app_nil_r. }
  destruct stk as [|[[n d] k] rest]; simpl.
  { by rewrite app_nil_r. }
  apply Forall_cons in Hok as [[Hc Hk] Hrest]. simpl in Hc, Hk.
  rewrite Hc, <-trees_at_entries, <-fmap_app, IH.
  - by rewrite stack_lines_trees, <-app_assoc.
  - apply Forall_app. split; [by apply trees_at_ok|done].
Qed.

(** The lines of a forest, read off its nodes in pre-order: [dep] gives
    the depth of a node in the whole tree and [base] the depth of the
    node at which the serialisation starts. *)
Lemma forest_lines_depth (h : heap) (dep : nat → nat) (base : nat)
    (f : forest) (d : nat) :
  (∀ p c, c ∈ children (h !!! p) → dep c = S (dep p)) →
  repr h f → Forall (λ r, dep r = base + d) (roots f) →
  forest_lines h d f
  = (λ n, render_line (h !!! n) (dep n - base)) <$> preorder f.
Proof.
  intros Hedge. revert d.
  induction f as [|n kids IHk sibs IHs]; intros d; [done|].
  intros (Hc & Hk & Hs) [Hn Hsibs]%Forall_cons. simpl.
  rewrite fmap_app, Hn. replace (base + d - base) with d by lia. f_equal.
  f_equal; [|by apply IHs].
  apply IHk; [done|]. rewrite <-Hc. apply Forall_forall. intros c Hcn.
  rewrite (Hedge n c Hcn), Hn. lia.
Qed.

Lemma serialize_subtree_lines (h : heap) (dep : nat → nat) (c : nat)
    (k : forest) :
  (∀ p c, c ∈ children (h !!! p) → dep c = S (dep p)) →
  tree_ok h (c, k) →
  serialize_subtree h c
  = join NEWLINE
      (take (Z.to_nat 5000)
         ((λ n, render_line (h !!! n) (dep n - dep c)) <$> c :: preorder k)).
Proof.
  intros Hedge [Hc Hk]. simpl in Hc, Hk. unfold serialize_subtree.
  pose proof (serialize_loop_spec h (Z.to_nat 5000) [(c, 0, k)] []) as Hrun.
  cbn [fmap list_fmap fst app stack_lines] in Hrun.
  rewrite Hrun by (by constructor). f_equal. f_equal.
  rewrite app_nil_r, fmap_cons, Nat.sub_diag. f_equal.
  apply forest_lines_depth; [done|done|].
  rewrite <-Hc. apply Forall_forall. intros x Hx.
  rewrite (Hedge c x Hx). lia.
Qed.

(** *** The texts of the chunks *)

(** From here on a serialisation is only measured and cut. *)
#[local] Opaque serialize_subtree.

Lemma str_take_exact (n : nat) (s : string) :
  n ≤ String.length s → String.length (str_take n s) = n.
Proof.
  revert s. induction n as [|n IH]; intros [|c s]; simpl; try lia.
  intros Hn. rewrite IH; lia.
Qed.

Lemma over_budget_length (s : string) (b : Z) :
  (0 ≤ b)%Z → (b < estimate_tokens s)%Z →
  Z.to_nat (b * 4) ≤ String.length s.
Proof.
  unfold estimate_tokens. intros Hb Hlt.
  destruct (decide (b = 0)%Z) as [->|Hne]; [simpl; lia|].
  assert (Hdiv : (b < Z.of_nat (String.length s) / 4)%Z) by lia.
  assert (Hmul : (4 * (b + 1) ≤ Z.of_nat (String.length s))%Z).
  { etrans; [|apply (Z.mul_div_le _ 4); lia]. lia. }
  lia.
Qed.

(** What a chunk can be: the whole serialisation of a chunk root that
    fits the budget, or, for a child of a chunk root that does not fit,
    the whole serialisation of the child or its first characters. *)
Inductive chunk_of (h : heap) (b : Z) (c : Chunk) : Prop :=
  | whole_root n :
      role_in CHUNK_ROOT_ROLES (role (h !!! n)) →
      (estimate_tokens (serialize_subtree h n) ≤ b)%Z →
      root_role c = role (h !!! n) → text c = serialize_subtree h n →
      chunk_of h b c
  | whole_child p n :
      role_in CHUNK_ROOT_ROLES (role (h !!! p)) →
      (b < estimate_tokens (serialize_subtree h p))%Z →
      n ∈ children (h !!! p) →
      (estimate_tokens (serialize_subtree h n) ≤ b)%Z →
      root_role c = role (h !!! p) +:+ ":" +:+ role (h !!! n) →
      text c = serialize_subtree h n →
      chunk_of h b c
  | cut_child p n :
      role_in CHUNK_ROOT_ROLES (role (h !!! p)) →
      (b < estimate_tokens (serialize_subtree h p))%Z →
      n ∈ children (h !!! p) →
      (b < estimate_tokens (serialize_subtree h n))%Z →
      root_role c = role (h !!! p) +:+ ":" +:+ role (h !!! n) →
      text c = str_take (Z.to_nat (b * 4)) (serialize_subtree h n) →
      String.length (text c) = Z.to_nat (b * 4) →
      chunk_of h b c.

Lemma Forall_imap_elem {A B} (Q : B → Prop) (f : nat → A → B) (l : list A) :
  (∀ i x, x ∈ l → Q (f i x)) → Forall Q (imap f l).
Proof.
  revert f. induction l as [|x l IH]; intros f Hf; simpl; constructor.
  - apply Hf. by left.
  - apply IH. intros i y Hy. apply Hf. by right.
Qed.

Lemma length_concat_imap {A B C} (f : nat → A → list B) (g : A → list C)
    (l : list A) :
  (∀ i x, length (f i x) = length (g x)) →
  length (concat (imap f l)) = length (l ≫= g).
Proof.
  revert f. induction l as [|x l IH]; intros f Hf; [done|].
  cbn [imap concat]. rewrite bind_cons, !length_app, Hf. f_equal.
  apply IH. intros i y. apply Hf.
Qed.

Lemma root_chunks_of (h : heap) (b : Z) (idx cr : nat) :
  (0 ≤ b)%Z → role_in CHUNK_ROOT_ROLES (role (h !!! cr)) →
  Forall (chunk_of h b) (root_chunks h b idx cr).
Proof.
  intros Hb Hcr. unfold root_chunks.
  destruct (Z.leb_spec (estimate_tokens (serialize_subtree h cr)) b)
    as [Hle|Hgt].
  { constructor; [|constructor].
    apply (whole_root h b _ cr); [exact Hcr|exact Hle|reflexivity..]. }
  apply Forall_imap_elem. intros j n Hn. unfold child_chunk.
  destruct (Z.leb_spec (estimate_tokens (serialize_subtree h n)) b)
    as [Hle'|Hgt'].
  { apply (whole_child h b _ cr n);
      [exact Hcr|exact Hgt|exact Hn|exact Hle'|reflexivity..]. }
  assert (Htext : slice_to (b * 4) (serialize_subtree h n)
                  = str_take (Z.to_nat (b * 4)) (serialize_subtree h n)).
  { unfold slice_to. by rewrite (proj2 (Z.leb_le 0 (b * 4))) by lia. }
  apply (cut_child h b _ cr n);
    [exact Hcr|exact Hgt|exact Hn|exact Hgt'|reflexivity|exact Htext|].
  cbn [text]. rewrite Htext. apply str_take_exact.
  apply over_budget_length; [exact Hb|exact Hgt'].
Qed.

(** The run of [make_chunks] up to the loop over the chunk roots. *)
Lemma make_chunks_run (text : string) (fuel : nat) (b : Z) :
  String.length text + 2 ≤ fuel →
  ∃ h roots,
    parse_snapshot text = Ok h
    ∧ find_chunk_roots fuel h ROOT = Ok roots
    ∧ roots
      = filter (λ n, role_in LANDMARK_ROLES (role (h !!! n))) (seq 0 (length h))
        ++ filter (λ n, role_in REPEATER_ROOT_ROLES (role (h !!! n)))
                  (seq 0 (length h))
    ∧ make_chunks fuel text b = Ok (concat (imap (root_chunks h b) roots)).
Proof.
  intros Hfuel.
  destruct (parse_snapshot_tree text)
    as (h & stack & kids & Hp & Hinv & Hr & Hpre & _ & Hlen).
  assert (Hroots : find_chunk_roots fuel h ROOT
            = Ok (filter (λ n, role_in LANDMARK_ROLES (role (h !!! n)))
                         (seq 0 (length h))
                  ++ filter (λ n, role_in REPEATER_ROOT_ROLES (role (h !!! n)))
                            (seq 0 (length h)))).
  { unfold find_chunk_roots. rewrite (iter_nodes_root h kids fuel Hr Hpre) by lia.
    cbn [mbind result_bind]. f_equal. apply chunk_roots_split.
    apply (pi_root_role _ _ Hinv). }
  eexists h, _. split_and!; [done|exact Hroots|done|].
  unfold make_chunks. rewrite Hp. cbn [mbind result_bind]. by rewrite Hroots.
Qed.

Lemma chunk_roots_roles (h : heap) (n : nat) :
  n ∈ filter (λ n, role_in LANDMARK_ROLES (role (h !!! n))) (seq 0 (length h))
      ++ filter (λ n, role_in REPEATER_ROOT_ROLES (role (h !!! n)))
                (seq 0 (length h)) →
  role_in CHUNK_ROOT_ROLES (role (h !!! n)).
Proof.
  rewrite chunk_root_roles, elem_of_app, !list_elem_of_filter.
  intros [[Hn _]|[Hn _]]; apply orb_True; [by left|by right].
Qed.

(** A landmark whose two children are a list and a button, and a
    second list after it. *)
Definition nested_roots : string :=
  snapshot ["- list";
            "  - listitem " +:+ quoted "One";
            "- main";
            "  - list";
            "    - listitem " +:+ quoted "First entry of the list";
            "    - listitem " +:+ quoted "Second entry of the list";
            "  - button " +:+ quoted "Load more entries" +:+ " [ref=e7]";
            "- navigation";
            "  - link " +:+ quoted "Home" +:+ " [ref=e8]";
            "    - /url: https://x.test/home"].

(** X13. For every text (and enough fuel), [find_chunk_roots] returns
    the nodes with a landmark role in snapshot order, followed by the
    nodes with role [rowgroup] or [list] in snapshot order; the root is
    never among them. *)
Theorem find_chunk_roots_order (text : string) (fuel : nat) :
  String.length text + 2 ≤ fuel →
  ∃ h roots,
    parse_snapshot text = Ok h
    ∧ find_chunk_roots fuel h ROOT = Ok roots
    ∧ roots
      = filter (λ n, role_in LANDMARK_ROLES (role (h !!! n))) (seq 0 (length h))
        ++ filter (λ n, role_in REPEATER_ROOT_ROLES (role (h !!! n)))
                  (seq 0 (length h))
    ∧ ROOT ∉ roots.
Proof.
  intros Hfuel.
  destruct (make_chunks_run text fuel 0 Hfuel) as (h & roots & Hp & Hf & Hroots & _).
  exists h, roots. split_and!; [done..|].
  intros Hin. rewrite Hroots in Hin. apply chunk_roots_roles in Hin.
  destruct (parse_snapshot_tree text) as (h' & stack & _ & Hp' & Hinv & _).
  rewrite Hp in Hp'. injection Hp' as <-.
  unfold ROOT in Hin. rewrite (pi_root_role _ _ Hinv) in Hin. done.
Qed.

Lemma find_chunk_roots_order_witness :
  String.length nested_roots + 2 ≤ 400
  ∧ ∃ h roots,
      parse_snapshot nested_roots = Ok h
      ∧ find_chunk_roots 400 h ROOT = Ok roots
      ∧ roots
        = filter (λ n, role_in LANDMARK_ROLES (role (h !!! n)))
                 (seq 0 (length h))
          ++ filter (λ n, role_in REPEATER_ROOT_ROLES (role (h !!! n)))
                    (seq 0 (length h))
      ∧ ROOT ∉ roots.
Proof.
  assert (H : String.length nested_roots + 2 ≤ 400) by (vm_compute; lia).
  split; [exact H|]. exact (find_chunk_roots_order nested_roots 400 H).
Defined.

(** X14. For every text and every node [c] of the parsed store (and
    enough fuel), [serialize_subtree] joins with line feeds one line per
    node of the subtree of [c], in the order of [iter_nodes], each line
    rendered at the depth of its node below [c] (the difference of the
    lengths of their ancestor chains), and keeps the first 5000 lines. *)
Theorem serialize_subtree_by_depth (text : string) (fuel : nat) :
  String.length text + 2 ≤ fuel →
  ∃ h chains,
    parse_snapshot text = Ok h
    ∧ ancestors_with_context fuel h ROOT = Ok chains
    ∧ ∀ c, c < length h →
        ∃ nodes, iter_nodes fuel h c = Ok nodes
          ∧ serialize_subtree h c
            = join NEWLINE
                (take (Z.to_nat 5000)
                   ((λ n, render_line (h !!! n)
                            (length (ancs_of chains n)
                             - length (ancs_of chains c))) <$> nodes)).
Proof.
  intros Hfuel.
  destruct (parse_snapshot_shape text) as (h & kids & Hp & Hr & Hpre & Hlen).
  destruct (ancestors_spec h kids fuel Hr Hpre)
    as (chains & Ha & _ & _ & Hedge); [lia|].
  exists h, chains. split_and!; [done..|]. intros c Hc.
  destruct (subtree_at h (FCons 0 kids FNil) c Hr) as (k & Hok & _ & Hk).
  { rewrite Hpre, elem_of_seq. lia. }
  rewrite Hpre, length_seq in Hk.
  exists (c :: preorder k). split.
  { apply iter_nodes_tree; [done|lia]. }
  apply (serialize_subtree_lines h (λ n, length (ancs_of chains n))); [|done].
  intros p x Hx. destruct (Hedge p x Hx) as (a & Hpa & Hxa).
  unfold ancs_of. rewrite Hpa, Hxa. cbn [from_option id].
  rewrite length_app. simpl. lia.
Qed.

Lemma serialize_subtree_by_depth_witness :
  String.length nested_roots + 2 ≤ 400
  ∧ ∃ h chains,
      parse_snapshot nested_roots = Ok h
      ∧ ancestors_with_context 400 h ROOT = Ok chains
      ∧ ∀ c, c < length h →
          ∃ nodes, iter_nodes 400 h c = Ok nodes
            ∧ serialize_subtree h c
              = join NEWLINE
                  (take (Z.to_nat 5000)
                     ((λ n, render_line (h !!! n)
                              (length (ancs_of chains n)
                               - length (ancs_of chains c))) <$> nodes)).
Proof.
  assert (H : String.length nested_roots + 2 ≤ 400) by (vm_compute; lia).
  split; [exact H|]. exact (serialize_subtree_by_depth nested_roots 400 H).
Defined.

(** X15. For every text and every budget that is not negative (and
    enough fuel), every chunk of [make_chunks] is the whole serialisation
    of a chunk root that fits the budget, or comes from a child of a chunk
    root that does not fit: the whole serialisation of the child if that
    fits, else exactly its first [4 * budget] characters. *)
Theorem make_chunks_texts (text : string) (fuel : nat) (b : Z) :
  String.length text + 2 ≤ fuel → (0 ≤ b)%Z →
  ∃ h chunks,
    parse_snapshot text = Ok h
    ∧ make_chunks fuel text b = Ok chunks
    ∧ Forall (chunk_of h b) chunks.
Proof.
  intros Hfuel Hb.
  destruct (make_chunks_run text fuel b Hfuel) as (h & roots & Hp & _ & Hroots & Hm).
  exists h, (concat (imap (root_chunks h b) roots)). split_and!; [done..|].
  apply Forall_concat, Forall_imap_elem. intros idx cr Hcr.
  apply root_chunks_of; [done|]. apply chunk_roots_roles. by rewrite <-Hroots.
Qed.

Lemma make_chunks_texts_witness :
  String.length nested_roots + 2 ≤ 400 ∧ (0 ≤ 8)%Z
  ∧ ∃ h chunks,
      parse_snapshot nested_roots = Ok h
      ∧ make_chunks 400 nested_roots 8 = Ok chunks
      ∧ Forall (chunk_of h 8) chunks.
Proof.
  assert (H : String.length nested_roots + 2 ≤ 400) by (vm_compute; lia).
  assert (H8 : (0 ≤ 8)%Z) by lia.
  split; [exact H|]. split; [exact H8|].
  exact (make_chunks_texts nested_roots 400 8 H H8).
Defined.

(** The run of [nested_roots] with a budget of twelve tokens: the two
    landmarks come first and neither fits, so each is split into its
    children, of which the inner list is cut to 48 characters; the two
    lists are chunk roots of their own, after the landmarks. *)
Example make_chunks_nested_roots :
  ∃ chunks, make_chunks 400 nested_roots 12 = Ok chunks
    ∧ (λ c, (chunk_id c, root_role c, String.length (text c))) <$> chunks
      = [("ch0_0_slice", "main:list", 48); ("ch0_1", "main:button", 37);
         ("ch1_0", "navigation:link", 47); ("ch2", "list", 25);
         ("ch3_0", "list:listitem", 36); ("ch3_1", "list:listitem", 37)].
Proof. eexists. split; vm_compute; reflexivity. Qed.

(** X16. For every text (and enough fuel), with a budget of zero tokens
    [make_chunks] still returns: no chunk root fits, so there is one chunk
    for every child of every chunk root, and the text of every chunk is
    empty. *)
Theorem make_chunks_zero_budget (snapshot_text : string) (fuel : nat) :
  String.length snapshot_text + 2 ≤ fuel →
  ∃ h roots chunks,
    parse_snapshot snapshot_text = Ok h
    ∧ find_chunk_roots fuel h ROOT = Ok roots
    ∧ make_chunks fuel snapshot_text 0 = Ok chunks
    ∧ length chunks = length (roots ≫= λ cr, children (h !!! cr))
    ∧ Forall (λ c, text c = EmptyString) chunks.
Proof.
  intros Hfuel.
  destruct (make_chunks_run snapshot_text fuel 0 Hfuel) as (h & roots & Hp & Hf & _ & Hm).
  exists h, roots, (concat (imap (root_chunks h 0) roots)).
  split_and!; [done..| |].
  - apply length_concat_imap. intros idx cr. unfold root_chunks.
    destruct (Z.leb_spec (estimate_tokens (serialize_subtree h cr)) 0) as [Hle|_].
    { unfold estimate_tokens in Hle. lia. }
    by rewrite length_imap.
  - apply Forall_concat, Forall_imap_elem. intros idx cr _. unfold root_chunks.
    destruct (Z.leb_spec (estimate_tokens (serialize_subtree h cr)) 0) as [Hle|_].
    { unfold estimate_tokens in Hle. lia. }
    apply Forall_imap_elem. intros j n _. unfold child_chunk.
    destruct (Z.leb_spec (estimate_tokens (serialize_subtree h n)) 0) as [Hle|_].
    { unfold estimate_tokens in Hle. lia. }
    done.
Qed.

Lemma make_chunks_zero_budget_witness :
  String.length nested_roots + 2 ≤ 400
  ∧ ∃ h roots chunks,
      parse_snapshot nested_roots = Ok h
      ∧ find_chunk_roots 400 h ROOT = Ok roots
      ∧ make_chunks 400 nested_roots 0 = Ok chunks
      ∧ length chunks = length (roots ≫= λ cr, children (h !!! cr))
      ∧ Forall (λ c, text c = EmptyString) chunks.
Proof.
  assert (H : String.length nested_roots + 2 ≤ 400) by (vm_compute; lia).
  split; [exact H|]. exact (make_chunks_zero_budget nested_roots 400 H).
Defined.

End ChunkerProps.

(** * Further properties of the relevance trimmer *)

Module TrimmerProps.
Import Text Context Builtins Trimmer TrimmerFacts ContextIds.

(** *** Without keywords nothing is reordered *)

Lemma sorted_desc_const {A} (key : A → Z) (l : list A) :
  (∀ x y, key x = key y) → sorted_desc key l = l.
Proof.
  intros Hkey. apply sorted_desc_id. unfold desc.
  induction l as [|x l IH]; constructor; [done|].
  apply Forall_forall. intros y _. rewrite (Hkey x y). lia.
Qed.

(** An item, a section, a model cut to the limits, in the given order. *)
Definition slice_item (max_actions : Z) (it : Item) : Item :=
  mkItem (item_id it) (item_key it) (container_role it)
         (list_slice_to max_actions (actions it)).

Definition slice_section (max_items max_actions : Z) (sec : Section Item)
    : Section Item :=
  mkSection (section_id sec) (landmark sec) (heading_path sec)
    (slice_item max_actions <$> list_slice_to max_items (items sec)).

Definition slice_model (max_sections max_items max_actions : Z)
    (model : list (Section Item)) : list (Section Item) :=
  slice_section max_items max_actions <$> list_slice_to max_sections model.

(** *** The case of the letters does not matter *)

Lemma lower_char_idem (c : ascii) : lower_char (lower_char c) = lower_char c.
Proof. destruct c as [[] [] [] [] [] [] [] []]; reflexivity. Qed.

Lemma lower_char_alnum (c : ascii) :
  is_alnum_ascii (lower_char c) = is_alnum_ascii c.
Proof. destruct c as [[] [] [] [] [] [] [] []]; reflexivity. Qed.

Lemma lower_idem (s : string) : lower (lower s) = lower s.
Proof.
  induction s as [|c s IH]; simpl; [done|]. by rewrite lower_char_idem, IH.
Qed.

Lemma lower_length (s : string) : String.length (lower s) = String.length s.
Proof. induction s as [|c s IH]; simpl; [done|]. by rewrite IH. Qed.

Lemma lower_of_list (l : list ascii) :
  lower (string_of_list_ascii l) = string_of_list_ascii (map lower_char l).
Proof. induction l as [|c l IH]; simpl; [done|]. by rewrite IH. Qed.

(** The run that [findall_alnum] closes. *)
Definition flush (cur : list ascii) : list string :=
  match cur with
  | [] => []
  | _ => [string_of_list_ascii (rev cur)]
  end.

Lemma findall_alnum_end (cur : list ascii) : findall_alnum cur EmptyString = flush cur.
Proof. by destruct cur. Qed.

Lemma findall_alnum_step (cur : list ascii) (c : ascii) (r : string) :
  findall_alnum cur (String c r)
  = if is_alnum_ascii c then findall_alnum (c :: cur) r
    else flush cur ++ findall_alnum [] r.
Proof. by destruct cur. Qed.

Lemma flush_lower (cur : list ascii) :
  flush (map lower_char cur) = lower <$> flush cur.
Proof.
  destruct cur as [|d cur]; [done|].
  change (flush (map lower_char (d :: cur)))
    with [string_of_list_ascii (rev (map lower_char (d :: cur)))].
  change (lower <$> flush (d :: cur))
    with [lower (string_of_list_ascii (rev (d :: cur)))].
  by rewrite <-map_rev, <-lower_of_list.
Qed.

Lemma findall_alnum_lower (cur : list ascii) (s : string) :
  findall_alnum (map lower_char cur) (lower s)
  = lower <$> findall_alnum cur s.
Proof.
  revert cur. induction s as [|c s IH]; intros cur.
  - change (lower EmptyString) with EmptyString. rewrite !findall_alnum_end. apply flush_lower.
  - change (lower (String c s)) with (String (lower_char c) (lower s)).
    rewrite !findall_alnum_step, lower_char_alnum.
    destruct (is_alnum_ascii c).
    + apply (IH (c :: cur)).
    + rewrite fmap_app, flush_lower. f_equal. apply (IH []).
Qed.

Lemma keywords_lower (task : string) : keywords (lower task) = keywords task.
Proof.
  unfold keywords. f_equal.
  pose proof (findall_alnum_lower [] task) as Hl. cbn [map] in Hl. rewrite Hl.
  generalize (findall_alnum [] task). intros l.
  induction l as [|w l IH]; [done|].
  rewrite fmap_cons, !filter_cons, lower_length.
  case_decide; rewrite ?fmap_cons, IH, ?lower_idem; done.
Qed.

Lemma score_text_lower (kw : list string) (s : string) :
  score_text kw (lower s) = score_text kw s.
Proof. unfold score_text. by rewrite lower_idem. Qed.

(** *** Nothing is added *)

Lemma bind_submseteq_pointwise {A B} (f g : A → list B) (l : list A) :
  (∀ x, f x ⊆+ g x) → l ≫= f ⊆+ l ≫= g.
Proof.
  intros Hfg. induction l as [|x l IH]; [done|].
  rewrite !bind_cons. by apply submseteq_app.
Qed.

Lemma bind_bind_list {A B C} (f : A → list B) (g : B → list C) (l : list A) :
  (l ≫= f) ≫= g = l ≫= (λ x, f x ≫= g).
Proof.
  induction l as [|x l IH]; [done|]. by rewrite !bind_cons, bind_app, IH.
Qed.

Lemma list_slice_to_submseteq {A} (k : Z) (l : list A) : list_slice_to k l ⊆+ l.
Proof. unfold list_slice_to. destruct (0 <=? k)%Z; apply submseteq_take. Qed.

Lemma kept_submseteq {A} (key : A → Z) (k : Z) (l : list A) :
  list_slice_to k (sorted_desc key l) ⊆+ l.
Proof.
  etrans; [apply list_slice_to_submseteq|].
  apply Permutation_submseteq, sorted_desc_perm.
Qed.

Lemma trim_section_items (kw : list string) (max_items max_actions : Z)
    (sec : Section Item) :
  item_id <$> items (trim_section kw max_items max_actions sec)
    ⊆+ item_id <$> items sec.
Proof.
  cbn [trim_section items]. rewrite <-list_fmap_compose.
  change (item_id ∘ trim_item kw max_actions) with item_id.
  apply fmap_submseteq, kept_submseteq.
Qed.

Lemma trim_section_actions (kw : list string) (max_items max_actions : Z)
    (sec : Section Item) :
  items (trim_section kw max_items max_actions sec) ≫= actions
    ⊆+ items sec ≫= actions.
Proof.
  cbn [trim_section items]. rewrite list_fmap_bind.
  etrans.
  - apply (bind_submseteq_pointwise _ actions). intros it.
    cbn [compose trim_item actions]. apply kept_submseteq.
  - apply bind_submseteq, kept_submseteq.
Qed.

(** *** Limits that cut nothing *)

Lemma trim_item_all (kw : list string) (max_actions : Z) (it : Item) :
  (Z.of_nat (length (actions it)) ≤ max_actions)%Z →
  actions (trim_item kw max_actions it) ≡ₚ actions it.
Proof.
  intros Hlen. cbn [trim_item actions].
  rewrite list_slice_to_ge by (by rewrite sorted_desc_perm).
  apply sorted_desc_perm.
Qed.

Lemma bind_perm_pointwise {A B} (f g : A → list B) (l : list A) :
  Forall (λ x, f x ≡ₚ g x) l → l ≫= f ≡ₚ l ≫= g.
Proof.
  induction 1 as [|x l Hx _ IH]; [done|]. by rewrite !bind_cons, Hx, IH.
Qed.

Lemma trim_section_all (kw : list string) (max_items max_actions : Z)
    (sec : Section Item) :
  (Z.of_nat (length (items sec)) ≤ max_items)%Z →
  Forall (λ it, (Z.of_nat (length (actions it)) ≤ max_actions)%Z) (items sec) →
  items (trim_section kw max_items max_actions sec) ≫= actions
    ≡ₚ items sec ≫= actions.
Proof.
  intros Hlen Hacts. cbn [trim_section items]. rewrite list_fmap_bind.
  rewrite list_slice_to_ge by (by rewrite sorted_desc_perm).
  rewrite sorted_desc_perm. apply bind_perm_pointwise.
  eapply Forall_impl; [exact Hacts|]. intros it Hit. cbn [compose].
  by apply trim_item_all.
Qed.

(** X17. For every model and all limits, when the task has no keyword
    (no run of letters and digits longer than two characters), all scores
    are zero and [trim_for_llm] only cuts: it keeps the sections, the
    items and the actions that a slice to the limit keeps, in the order of
    the model, and returns the task unchanged. *)
Theorem trim_for_llm_without_keywords (model : list (Section Item))
    (task : string) (max_sections max_items max_actions : Z) :
  keywords task = [] →
  trim_for_llm model task max_sections max_items max_actions
  = (task, slice_model max_sections max_items max_actions model).
Proof.
  intros Hkw. unfold trim_for_llm. rewrite Hkw. f_equal.
  rewrite sorted_desc_const by done. unfold slice_model.
  apply list_fmap_ext. intros _ sec _. unfold trim_section, slice_section.
  f_equal. rewrite sorted_desc_const by done.
  apply list_fmap_ext. intros _ it _. unfold trim_item, slice_item.
  f_equal. by rewrite sorted_desc_const.
Qed.

Lemma trim_for_llm_without_keywords_witness :
  keywords "go to it" = []
  ∧ trim_for_llm sample_model "go to it" 2 1 1
    = ("go to it", slice_model 2 1 1 sample_model).
Proof.
  assert (H : keywords "go to it" = []) by (vm_compute; reflexivity).
  split; [exact H|].
  exact (trim_for_llm_without_keywords sample_model "go to it" 2 1 1 H).
Defined.

(** X18. For every model and all limits, two tasks that differ only in
    the case of their letters have the same keywords and select the same
    sections, items and actions; and the score of a text does not depend
    on the case of its letters. *)
Theorem trim_for_llm_ignores_case (model : list (Section Item))
    (task1 task2 : string) (max_sections max_items max_actions : Z) :
  lower task1 = lower task2 →
  keywords task1 = keywords task2
  ∧ trim_sections model task1 max_sections max_items max_actions
    = trim_sections model task2 max_sections max_items max_actions
  ∧ ∀ s1 s2, lower s1 = lower s2 →
      score_text (keywords task1) s1 = score_text (keywords task2) s2.
Proof.
  intros Htask.
  assert (Hkw : keywords task1 = keywords task2).
  { by rewrite <-(keywords_lower task1), <-(keywords_lower task2), Htask. }
  split_and!; [done| |].
  - unfold trim_sections, trim_for_llm. cbn [snd]. by rewrite Hkw.
  - intros s1 s2 Hs. rewrite Hkw.
    by rewrite <-(score_text_lower _ s1), <-(score_text_lower _ s2), Hs.
Qed.

Lemma trim_for_llm_ignores_case_witness :
  lower "Open the PANEL" = lower "open The panel"
  ∧ keywords "Open the PANEL" = keywords "open The panel"
  ∧ trim_sections sample_model "Open the PANEL" 2 1 5
    = trim_sections sample_model "open The panel" 2 1 5
  ∧ ∀ s1 s2, lower s1 = lower s2 →
      score_text (keywords "Open the PANEL") s1
      = score_text (keywords "open The panel") s2.
Proof.
  assert (H : lower "Open the PANEL" = lower "open The panel")
    by (vm_compute; reflexivity).
  split; [exact H|].
  exact (trim_for_llm_ignores_case sample_model "Open the PANEL"
           "open The panel" 2 1 5 H).
Defined.

(** X19. For every model, task and limits, negative ones included,
    [trim_for_llm] adds nothing: the section ids, the item ids and the
    actions of its result are, counted with multiplicity, among those of
    the model. *)
Theorem trim_for_llm_adds_nothing (model : list (Section Item))
    (task : string) (max_sections max_items max_actions : Z) :
  section_id <$> trim_sections model task max_sections max_items max_actions
    ⊆+ section_id <$> model
  ∧ item_id <$> all_items
      (trim_sections model task max_sections max_items max_actions)
    ⊆+ item_id <$> all_items model
  ∧ all_actions (trim_sections model task max_sections max_items max_actions)
    ⊆+ all_actions model.
Proof.
  unfold trim_sections, trim_for_llm. cbn [snd].
  set (kw := keywords task). split_and!.
  - rewrite <-list_fmap_compose.
    change (section_id ∘ trim_section kw max_items max_actions)
      with (section_id (I:=Item)).
    apply fmap_submseteq, kept_submseteq.
  - unfold all_items. rewrite !fmap_bind_list, list_fmap_bind.
    etrans.
    + apply (bind_submseteq_pointwise _ (λ s, item_id <$> items s)).
      intros sec. apply trim_section_items.
    + apply bind_submseteq, kept_submseteq.
  - unfold all_actions, all_items. rewrite !bind_bind_list, list_fmap_bind.
    etrans.
    + apply (bind_submseteq_pointwise _ (λ s, items s ≫= actions)).
      intros sec. apply trim_section_actions.
    + apply bind_submseteq, kept_submseteq.
Qed.

(** X20. For every model, task and limits that the model fits, nothing
    is cut: the result of [trim_for_llm] has every section of the model
    and, counted with multiplicity, every action of the model. *)
Theorem trim_for_llm_keeps_all (model : list (Section Item)) (task : string)
    (max_sections max_items max_actions : Z) :
  within_limits max_sections max_items max_actions model = true →
  section_id <$> trim_sections model task max_sections max_items max_actions
    ≡ₚ section_id <$> model
  ∧ all_actions (trim_sections model task max_sections max_items max_actions)
    ≡ₚ all_actions model.
Proof.
  intros [Hlen Hall]%andb_true_iff.
  apply Z.leb_le in Hlen. apply Is_true_true, forallb_True in Hall.
  unfold trim_sections, trim_for_llm. cbn [snd].
  set (kw := keywords task).
  rewrite list_slice_to_ge by (by rewrite sorted_desc_perm). split.
  - rewrite <-list_fmap_compose.
    change (section_id ∘ trim_section kw max_items max_actions)
      with (section_id (I:=Item)).
    by rewrite sorted_desc_perm.
  - unfold all_actions, all_items. rewrite !bind_bind_list, list_fmap_bind.
    rewrite sorted_desc_perm. apply bind_perm_pointwise.
    eapply Forall_impl; [exact Hall|]. intros sec Hsec. cbn [compose].
    apply Is_true_true, andb_true_iff in Hsec as [Hi Ha].
    apply Z.leb_le in Hi. apply Is_true_true, forallb_True in Ha.
    apply trim_section_all; [done|].
    eapply Forall_impl; [exact Ha|]. intros it Hit.
    by apply Z.leb_le, Is_true_true.
Qed.

Lemma trim_for_llm_keeps_all_witness :
  within_limits 2 2 2 sample_model = true
  ∧ section_id <$> trim_sections sample_model "open the panel" 2 2 2
    ≡ₚ section_id <$> sample_model
  ∧ all_actions (trim_sections sample_model "open the panel" 2 2 2)
    ≡ₚ all_actions sample_model.
Proof.
  assert (H : within_limits 2 2 2 sample_model = true)
    by (vm_compute; reflexivity).
  split; [exact H|].
  exact (trim_for_llm_keeps_all sample_model "open the panel" 2 2 2 H).
Defined.

End TrimmerProps.

(** ** The ids of the chunks are unique *)

Module ChunkIds.
Import Text Parser Walk Chunker ContextIds ChunkerProps.

(** [a] is empty or starts with a character that is not a digit. *)
Definition no_digit_first (a : list ascii) : Prop :=
  ∀ c a', a = c :: a' → is_digit c = false.

Lemma digits_then_inj (x y a b : list ascii) :
  Forall (λ c, is_digit c = true) x → Forall (λ c, is_digit c = true) y →
  no_digit_first a → no_digit_first b →
  x ++ a = y ++ b → x = y ∧ a = b.
Proof.
  intros Hx. revert y. induction Hx as [|d x Hd Hx IH]; intros y Hy Ha Hb; simpl.
  - destruct Hy as [|e y He Hy]; simpl; [done|].
    intros ->. specialize (Ha e _ eq_refl). congruence.
  - destruct Hy as [|e y He Hy]; simpl.
    + intros <-. specialize (Hb d _ eq_refl). congruence.
    + intros [= <- Heq]. destruct (IH y Hy Ha Hb Heq) as [-> ->]. done.
Qed.

(** A number followed by something that does not go on with a digit can
    be read back. *)
Lemma number_then_inj (i j : nat) (s t : string) :
  no_digit_first (chars s) → no_digit_first (chars t) →
  pretty i +:+ s = pretty j +:+ t → i = j ∧ s = t.
Proof.
  intros Hs Ht Heq. apply (f_equal chars) in Heq. rewrite !chars_app in Heq.
  destruct (digits_then_inj _ _ _ _
              (all_chars_Forall _ _ (pretty_nat_digits i))
              (all_chars_Forall _ _ (pretty_nat_digits j)) Hs Ht Heq)
    as [Hij Hst].
  split; [|by apply chars_inj]. apply chars_inj in Hij.
  by apply (inj pretty) in Hij.
Qed.

(** What follows the number of the chunk root in a chunk id. *)
Inductive id_tail : string → Prop :=
  | tail_root : id_tail EmptyString
  | tail_child (j : nat) : id_tail ("_" +:+ pretty j)
  | tail_slice (j : nat) : id_tail ("_" +:+ pretty j +:+ "_slice").

Lemma id_tail_no_digit (t : string) : id_tail t → no_digit_first (chars t).
Proof.
  intros [|j|j] c a'; [done|..]; simpl; by intros [= <- _].
Qed.

Lemma id_tail_inj (j1 j2 : nat) (s1 s2 : string) :
  (s1 = EmptyString ∨ s1 = "_slice") → (s2 = EmptyString ∨ s2 = "_slice") →
  "_" +:+ pretty j1 +:+ s1 = "_" +:+ pretty j2 +:+ s2 → j1 = j2.
Proof.
  intros H1 H2 Heq.
  change ("_" +:+ pretty j1 +:+ s1) with (String "_" (pretty j1 +:+ s1)) in Heq.
  change ("_" +:+ pretty j2 +:+ s2) with (String "_" (pretty j2 +:+ s2)) in Heq.
  injection Heq as Heq. apply number_then_inj in Heq as [? _]; [done| |].
  - destruct H1 as [->| ->]; intros c a'; simpl; [done|by intros [= <- _]].
  - destruct H2 as [->| ->]; intros c a'; simpl; [done|by intros [= <- _]].
Qed.

(** *** Lists built with [enumerate] *)

Lemma elem_of_imap {A B} (f : nat → A → B) (l : list A) (y : B) :
  y ∈ imap f l → ∃ i x, l !! i = Some x ∧ y = f i x.
Proof.
  revert f. induction l as [|x l IH]; intros f; simpl; [by intros ?%elem_of_nil|].
  intros [->|Hy]%elem_of_cons; [by exists 0, x|].
  apply IH in Hy as (i & x' & Hi & ->). by exists (S i), x'.
Qed.

Lemma NoDup_imap {A B} (f : nat → A → B) (l : list A) :
  (∀ i1 i2 x1 x2, f i1 x1 = f i2 x2 → i1 = i2) → NoDup (imap f l).
Proof.
  revert f. induction l as [|x l IH]; intros f Hf; simpl; constructor.
  - intros (i & x' & _ & Heq)%elem_of_imap. by apply Hf in Heq.
  - apply IH. intros i1 i2 x1 x2 Heq. apply Hf in Heq. lia.
Qed.

Lemma NoDup_concat_imap {A B} (f : nat → A → list B) (l : list A) :
  (∀ i x, NoDup (f i x)) →
  (∀ i1 i2 x1 x2 y, y ∈ f i1 x1 → y ∈ f i2 x2 → i1 = i2) →
  NoDup (concat (imap f l)).
Proof.
  revert f. induction l as [|x l IH]; intros f Hnd Hf; simpl; [constructor|].
  apply NoDup_app. split_and!.
  - apply Hnd.
  - intros y Hy Hin. apply list_elem_of_In, in_concat in Hin as (ys & Hys & Hin).
    apply list_elem_of_In, elem_of_imap in Hys as (i & x' & _ & ->).
    apply list_elem_of_In in Hin. specialize (Hf _ _ _ _ _ Hy Hin). done.
  - apply IH; [intros i y; apply Hnd|].
    intros i1 i2 x1 x2 y H1 H2. specialize (Hf _ _ _ _ _ H1 H2). lia.
Qed.

Lemma fmap_concat_imap {A B C} (g : B → C) (f : nat → A → list B)
    (l : list A) :
  g <$> concat (imap f l) = concat (imap (λ i x, g <$> f i x) l).
Proof.
  revert f. induction l as [|x l IH]; intros f; [done|].
  cbn [imap concat]. rewrite fmap_app. f_equal. apply IH.
Qed.

Lemma fmap_imap_list {A B C} (g : B → C) (f : nat → A → B) (l : list A) :
  g <$> imap f l = imap (λ i x, g (f i x)) l.
Proof.
  revert f. induction l as [|x l IH]; intros f; [done|].
  cbn [imap]. rewrite fmap_cons. f_equal. apply IH.
Qed.

(** *** The ids of the chunks of one chunk root *)

#[local] Opaque serialize_subtree.

Lemma child_chunk_id (h : heap) (b : Z) (idx cr j child : nat) :
  ∃ s, (s = EmptyString ∨ s = "_slice")
    ∧ chunk_id (child_chunk h b idx cr j child)
      = "ch" +:+ pretty idx +:+ "_" +:+ pretty j +:+ s.
Proof.
  unfold child_chunk. destruct (_ <=? _)%Z; cbn [chunk_id].
  - exists EmptyString. split; [by left|]. f_equal. f_equal. f_equal.
    apply chars_inj. rewrite chars_app. simpl. by rewrite app_nil_r.
  - exists "_slice". split; [by right|done].
Qed.

Lemma root_chunks_ids (h : heap) (b : Z) (idx cr : nat) (y : string) :
  y ∈ chunk_id <$> root_chunks h b idx cr →
  ∃ t, id_tail t ∧ y = "ch" +:+ pretty idx +:+ t.
Proof.
  unfold root_chunks. destruct (_ <=? _)%Z.
  - intros ->%list_elem_of_singleton. exists EmptyString. split; [constructor|].
    cbn [chunk_id]. f_equal. apply chars_inj. rewrite chars_app. simpl.
    by rewrite app_nil_r.
  - intros (c & -> & (j & child & _ & ->)%elem_of_imap)%list_elem_of_fmap.
    destruct (child_chunk_id h b idx cr j child) as (s & [->| ->] & ->).
    + exists ("_" +:+ pretty j). split; [constructor|]. f_equal. f_equal. f_equal.
      apply chars_inj. rewrite chars_app. simpl. by rewrite app_nil_r.
    + exists ("_" +:+ pretty j +:+ "_slice"). split; [constructor|done].
Qed.

Lemma root_chunks_ids_unique (h : heap) (b : Z) (idx cr : nat) :
  NoDup (chunk_id <$> root_chunks h b idx cr).
Proof.
  unfold root_chunks. destruct (_ <=? _)%Z; [apply NoDup_singleton|].
  rewrite fmap_imap_list. apply NoDup_imap. intros j1 j2 c1 c2.
  destruct (child_chunk_id h b idx cr j1 c1) as (s1 & Hs1 & ->).
  destruct (child_chunk_id h b idx cr j2 c2) as (s2 & Hs2 & ->).
  intros Heq.
  change ("ch" +:+ pretty idx +:+ "_" +:+ pretty j1 +:+ s1)
    with (String "c" (String "h" (pretty idx +:+ "_" +:+ pretty j1 +:+ s1)))
    in Heq.
  change ("ch" +:+ pretty idx +:+ "_" +:+ pretty j2 +:+ s2)
    with (String "c" (String "h" (pretty idx +:+ "_" +:+ pretty j2 +:+ s2)))
    in Heq.
  injection Heq as Heq.
  apply number_then_inj in Heq as [_ Heq].
  - exact (id_tail_inj j1 j2 s1 s2 Hs1 Hs2 Heq).
  - intros c a'. simpl. by intros [= <- _].
  - intros c a'. simpl. by intros [= <- _].
Qed.

(** X21. For every text and every budget (and enough fuel), no two
    chunks of [make_chunks] have the same [chunk_id]. *)
Theorem make_chunks_ids_unique (snapshot_text : string) (fuel : nat) (b : Z) :
  String.length snapshot_text + 2 ≤ fuel →
  ∃ chunks,
    make_chunks fuel snapshot_text b = Ok chunks
    ∧ NoDup (chunk_id <$> chunks).
Proof.
  intros Hfuel.
  destruct (make_chunks_run snapshot_text fuel b Hfuel)
    as (h & roots & _ & _ & _ & Hm).
  exists (concat (imap (root_chunks h b) roots)). split; [done|].
  rewrite fmap_concat_imap. apply NoDup_concat_imap.
  - intros idx cr. apply root_chunks_ids_unique.
  - intros i1 i2 x1 x2 y (t1 & Ht1 & ->)%root_chunks_ids
      (t2 & Ht2 & Heq)%root_chunks_ids.
    change ("ch" +:+ pretty i1 +:+ t1)
      with (String "c" (String "h" (pretty i1 +:+ t1))) in Heq.
    change ("ch" +:+ pretty i2 +:+ t2)
      with (String "c" (String "h" (pretty i2 +:+ t2))) in Heq.
    injection Heq as Heq.
    by apply number_then_inj in Heq as [? _]; [|apply id_tail_no_digit..].
Qed.

Lemma make_chunks_ids_unique_witness :
  String.length nested_roots + 2 ≤ 400
  ∧ ∃ chunks,
      make_chunks 400 nested_roots 12 = Ok chunks
      ∧ NoDup (chunk_id <$> chunks).
Proof.
  assert (H : String.length nested_roots + 2 ≤ 400) by (vm_compute; lia).
  split; [exact H|]. exact (make_chunks_ids_unique nested_roots 400 12 H).
Defined.

End ChunkIds.
